(** * Virvo CUDA ray caster (vvrayrend.cu): kernel dispatch, volume upload,
      space skipping and the per-pixel render kernel.

    The development follows the layout of the source file:
    - [Dispatch]      the cascade of [getKernel...] template factories;
    - [VolumeStore]   [initVolumeTexture], and the guard and the launch of
                      [compositeVolume];
    - [Binary32]      the device's single-precision arithmetic;
    - [Rounding]      what rounding to nearest even keeps on the unit
                      interval;
    - [SpaceSkipping] [calcSpaceSkippingGrid], [computeSpaceSkippingTexture];
    - [Kernel]        the [render] kernel, generic in the float arithmetic,
                      and its instance in single precision. *)

From Stdlib Require Reals Lra.
From Stdlib Require Import ZArith QArith Qabs Qminmax Lia Lqa Bool List SpecFloat.
From stdpp Require Import base list strings.

Local Open Scope Z_scope.

(** ** Kernel specialisations

    The eleven template arguments of [render], in the order of the source. *)
Record KernelConfig := mkKernel {
  t_earlyRayTermination : bool;
  t_spaceSkipping : bool;
  t_frontToBack : bool;
  t_bpc : Z;
  t_mipMode : Z;
  t_lighting : bool;
  t_opacityCorrection : bool;
  t_jittering : bool;
  t_clipPlane : bool;
  t_clipSphere : bool;
  t_useSphereAsProbe : bool
}.

(** [vvImage2_5d::DepthPrecision], as far as the source names its
    enumerators. *)
Inductive DepthPrecision := VV_UCHAR | VV_USHORT | VV_UINT.

Module Dispatch.

(** What the dispatcher reads from the renderer: the members of [vvRayRend]
    behind its getters, [vd->bpc], and the [vvRenderState] parameters after the
    casts the source applies to them ([(int)] for the MIP mode, [(bool)] for
    the others). *)
Record vvRayRend := {
  bpc : Z;
  _illumination : bool;
  _opacityCorrection : bool;
  _earlyRayTermination : bool;
  VV_CLIP_MODE : bool;
  VV_IS_ROI_USED : bool;
  VV_SPHERICAL_ROI : bool;
  VV_MIP_MODE : Z
}.

Definition getKernelWithMip (t_bpc : Z)
  (t_illumination t_opacityCorrection t_earlyRayTermination
   t_clipPlane t_clipSphere t_useSphereAsProbe : bool) (t_mipMode : Z)
  (rayRend : vvRayRend) : KernelConfig :=
  mkKernel t_earlyRayTermination
           true  (* Space skipping. *)
           true  (* Front to back. *)
           t_bpc
           t_mipMode
           t_illumination
           t_opacityCorrection
           false (* Jittering. *)
           t_clipPlane
           t_clipSphere
           t_useSphereAsProbe.

Definition getKernelWithSphereAsProbe (t_bpc : Z)
  (t_illumination t_opacityCorrection t_earlyRayTermination
   t_clipPlane t_clipSphere t_useSphereAsProbe : bool)
  (rayRend : vvRayRend) : KernelConfig :=
  match VV_MIP_MODE rayRend with
  | 0 => getKernelWithMip t_bpc t_illumination t_opacityCorrection
           t_earlyRayTermination t_clipPlane t_clipSphere t_useSphereAsProbe
           0 rayRend
  | 1 => (* No early ray termination possible with max intensity projection. *)
         getKernelWithMip t_bpc t_illumination t_opacityCorrection
           false t_clipPlane t_clipSphere t_useSphereAsProbe
           1 rayRend
  | 2 => (* No early ray termination possible with min intensity projection. *)
         getKernelWithMip t_bpc t_illumination t_opacityCorrection
           false t_clipPlane t_clipSphere t_useSphereAsProbe
           2 rayRend
  | _ => getKernelWithMip t_bpc t_illumination t_opacityCorrection
           t_earlyRayTermination t_clipPlane t_clipSphere t_useSphereAsProbe
           0 rayRend
  end.

Definition getKernelWithClipPlane (t_bpc : Z)
  (t_illumination t_opacityCorrection t_earlyRayTermination t_clipPlane : bool)
  (rayRend : vvRayRend) : KernelConfig :=
  if VV_IS_ROI_USED rayRend && VV_SPHERICAL_ROI rayRend
  then getKernelWithSphereAsProbe t_bpc t_illumination t_opacityCorrection
         t_earlyRayTermination t_clipPlane true true rayRend
  else getKernelWithSphereAsProbe t_bpc t_illumination t_opacityCorrection
         t_earlyRayTermination t_clipPlane false false rayRend.

Definition getKernelWithEarlyRayTermination (t_bpc : Z)
  (t_illumination t_opacityCorrection t_earlyRayTermination : bool)
  (rayRend : vvRayRend) : KernelConfig :=
  if VV_CLIP_MODE rayRend
  then getKernelWithClipPlane t_bpc t_illumination t_opacityCorrection
         t_earlyRayTermination true rayRend
  else getKernelWithClipPlane t_bpc t_illumination t_opacityCorrection
         t_earlyRayTermination false rayRend.

Definition getKernelWithOpacityCorrection (t_bpc : Z)
  (t_illumination t_opacityCorrection : bool)
  (rayRend : vvRayRend) : KernelConfig :=
  if _earlyRayTermination rayRend
  then getKernelWithEarlyRayTermination t_bpc t_illumination
         t_opacityCorrection true rayRend
  else getKernelWithEarlyRayTermination t_bpc t_illumination
         t_opacityCorrection false rayRend.

Definition getKernelWithIllumination (t_bpc : Z) (t_illumination : bool)
  (rayRend : vvRayRend) : KernelConfig :=
  if _opacityCorrection rayRend
  then getKernelWithOpacityCorrection t_bpc t_illumination true rayRend
  else getKernelWithOpacityCorrection t_bpc t_illumination false rayRend.

Definition getKernelWithBpc (t_bpc : Z) (rayRend : vvRayRend) : KernelConfig :=
  if _illumination rayRend
  then getKernelWithIllumination t_bpc true rayRend
  else getKernelWithIllumination t_bpc false rayRend.

Definition getKernel (rayRend : vvRayRend) : KernelConfig :=
  if bpc rayRend =? 1 then getKernelWithBpc 1 rayRend
  else if bpc rayRend =? 2 then getKernelWithBpc 2 rayRend
  else getKernelWithBpc 1 rayRend.

(** The MIP modes for which the switch has a dedicated MAX/MIN case. *)
Definition isMip (mode : Z) : bool := (mode =? 1) || (mode =? 2).

Lemma getKernelWithSphereAsProbe_ert b il oc ert cp cs sp r :
  t_earlyRayTermination (getKernelWithSphereAsProbe b il oc ert cp cs sp r)
  = if isMip (VV_MIP_MODE r) then false else ert.
Proof.
  unfold getKernelWithSphereAsProbe, isMip.
  destruct (VV_MIP_MODE r) as [|[p|p|]|]; try destruct p; reflexivity.
Qed.

Lemma getKernelWithSphereAsProbe_mip b il oc ert cp cs sp r :
  t_mipMode (getKernelWithSphereAsProbe b il oc ert cp cs sp r)
  = if isMip (VV_MIP_MODE r) then VV_MIP_MODE r else 0.
Proof.
  unfold getKernelWithSphereAsProbe, isMip.
  destruct (VV_MIP_MODE r) as [|[p|p|]|]; try destruct p; reflexivity.
Qed.

(** C3. Whatever the renderer state, the kernel picked by the dispatcher has
    early-ray termination switched off when the MIP mode parameter is 1 (MAX)
    or 2 (MIN) and carries the mode through; for mode 0 and for every
    unrecognised mode the renderer's early-ray-termination flag is passed on
    unchanged (and the kernel composites with mode 0).  The same holds for
    the switch in [getKernelWithSphereAsProbe] at any template arguments. *)
Theorem dispatcher_disables_ert_for_mip :
  (forall b il oc ert cp cs sp r,
     t_earlyRayTermination (getKernelWithSphereAsProbe b il oc ert cp cs sp r)
     = if isMip (VV_MIP_MODE r) then false else ert) /\
  (forall r,
     t_earlyRayTermination (getKernel r)
     = (if isMip (VV_MIP_MODE r) then false else _earlyRayTermination r) /\
     t_mipMode (getKernel r)
     = (if isMip (VV_MIP_MODE r) then VV_MIP_MODE r else 0)).
Proof.
  split; [exact getKernelWithSphereAsProbe_ert|].
  intros r.
  unfold getKernel, getKernelWithBpc, getKernelWithIllumination,
    getKernelWithOpacityCorrection, getKernelWithEarlyRayTermination,
    getKernelWithClipPlane.
  repeat match goal with
         | |- context [if ?c then _ else _] =>
             lazymatch c with
             | isMip _ => fail
             | _ => destruct c eqn:?
             end
         end;
    rewrite getKernelWithSphereAsProbe_ert, getKernelWithSphereAsProbe_mip;
    split; reflexivity.
Qed.

(** X1. Whatever the renderer state, the dispatcher instantiates [render]
    with space skipping on, front-to-back compositing on and jittering off,
    and for one byte per channel unless [vd->bpc] is 2. *)
Theorem getKernel_fixed_template_arguments (r : vvRayRend) :
  t_spaceSkipping (getKernel r) = true /\
  t_frontToBack (getKernel r) = true /\
  t_jittering (getKernel r) = false /\
  t_bpc (getKernel r) = (if bpc r =? 2 then 2 else 1).
Proof.
  unfold getKernel, getKernelWithBpc, getKernelWithIllumination,
    getKernelWithOpacityCorrection, getKernelWithEarlyRayTermination,
    getKernelWithClipPlane, getKernelWithSphereAsProbe.
  destruct (Z.eqb_spec (bpc r) 1) as [E|_];
    [rewrite E; change (1 =? 2) with false|destruct (bpc r =? 2)];
    repeat match goal with
           | |- context [if ?c then _ else _] => destruct c
           end;
    destruct (VV_MIP_MODE r) as [|[p|p|]|]; try destruct p;
    repeat split; reflexivity.
Qed.

(** X2. The dispatcher passes the renderer's illumination, opacity
    correction and clip-mode flags on unchanged; the clip sphere is used
    exactly when a region of interest is used and is spherical, and it is
    then always used as a probe. *)
Theorem getKernel_forwards_renderer_flags (r : vvRayRend) :
  t_lighting (getKernel r) = _illumination r /\
  t_opacityCorrection (getKernel r) = _opacityCorrection r /\
  t_clipPlane (getKernel r) = VV_CLIP_MODE r /\
  t_clipSphere (getKernel r) = VV_IS_ROI_USED r && VV_SPHERICAL_ROI r /\
  t_useSphereAsProbe (getKernel r) = t_clipSphere (getKernel r).
Proof.
  unfold getKernel, getKernelWithBpc, getKernelWithIllumination,
    getKernelWithOpacityCorrection, getKernelWithEarlyRayTermination,
    getKernelWithClipPlane, getKernelWithSphereAsProbe.
  destruct (bpc r =? 1), (bpc r =? 2), (_illumination r),
    (_opacityCorrection r), (_earlyRayTermination r), (VV_CLIP_MODE r),
    (VV_IS_ROI_USED r && VV_SPHERICAL_ROI r);
    destruct (VV_MIP_MODE r) as [|[p|p|]|]; try destruct p;
    repeat split; reflexivity.
Qed.

End Dispatch.

(** ** Volume upload: [initVolumeTexture], and [compositeVolume] up to the
    launch *)
Module VolumeStore.

Inductive cudaError_t := cudaSuccess | cudaErrorMemoryAllocation.

(** The fields of [vvVolDesc] the upload reads.  Raw frames are byte
    buffers; a byte is an integer in [0, 256). *)
Record vvVolDesc := {
  vox : Z * Z * Z;
  bpc : Z;
  frames : nat;
  getRaw : nat -> list Z
}.

Definition voxels (vd : vvVolDesc) : Z :=
  let '(vx, vy, vz) := vox vd in vx * vy * vz.

(** The CUDA runtime calls and diagnostics issued by the host code, in the
    order they are issued.  Frames stand for the array slots
    [d_volumeArrays[f]] the calls are applied to. *)
Inductive Call :=
| cudaGetLastError
| cudaMalloc3DArray (f : nat) (result : cudaError_t)
| cudaMemGetInfo
| cudaMemcpy3D (f : nat) (src : option (list Z))
| cudaFree (f : nat)
| cudaFreeArray (f : nat)
| cudaBindTextureToArray (texture_bpc : Z) (f : nat)
| cerr (msg : string)
| kernelLaunch (kernel : KernelConfig) (gridSize blockSize : Z * Z)
    (d_depth : DepthPrecision)
| renderVolumeGL.

(** A slot of [d_volumeArrays]: [None] is the NULL pointer, [Some data] a
    device array holding [data] ([[]] until something is copied into it). *)
Definition cudaArray := option (list Z).

Record vvRayRend := {
  _volumeCopyToGpuOk : bool;
  d_volumeArrays : list cudaArray;
  calls : list Call
}.

Definition set_ok (b : bool) (r : vvRayRend) : vvRayRend :=
  {| _volumeCopyToGpuOk := b; d_volumeArrays := d_volumeArrays r;
     calls := calls r |}.
Definition set_array (f : nat) (a : cudaArray) (r : vvRayRend) : vvRayRend :=
  {| _volumeCopyToGpuOk := _volumeCopyToGpuOk r;
     d_volumeArrays := <[f := a]> (d_volumeArrays r);
     calls := calls r |}.
Definition call (c : Call) (r : vvRayRend) : vvRayRend :=
  {| _volumeCopyToGpuOk := _volumeCopyToGpuOk r;
     d_volumeArrays := d_volumeArrays r;
     calls := calls r ++ [c] |}.

(** The 16-bit rebit loop of [initVolumeTexture]:
<<
      for (int i=0; i<size; i+=2) {
        int val = ((int) raw[i] << 8) | (int) raw[i + 1];
        val >>= 4;
        data[i] = raw[i];
        data[i + 1] = val;       // stored in a uchar
      }
>>
    [n] counts the remaining iterations.  A read past the end of [raw] is out
    of bounds in the source and yields a fixed value here. *)
Fixpoint rebit_loop (n i : nat) (raw data : list Z) : list Z :=
  match n with
  | O => data
  | S n' =>
      let val := Z.lor (Z.shiftl (raw !!! i) 8) (raw !!! (i + 1)%nat) in
      let val := Z.shiftr val 4 in
      let data := <[i := raw !!! i]> data in
      let data := <[(i + 1)%nat := val mod 256]> data in
      rebit_loop n' (i + 2)%nat raw data
  end.

(** [new uchar[size]] has indeterminate contents, given by [junk]; the loop
    runs for i = 0, 2, 4, ... below [size]. *)
Definition rebit (size : Z) (junk raw : list Z) : list Z :=
  rebit_loop (Z.to_nat ((size + 1) / 2)) 0 raw (resize (Z.to_nat size) 0 junk).

(** The transform in the words of the specification: the byte pair is read as
    a big-endian 16-bit value and shifted right by 4; the first byte of the
    pair is copied through, the second becomes the shifted value (as a
    byte). *)
Definition be16 (b0 b1 : Z) : Z := b0 * 256 + b1.
Definition rebit_pair_spec (b0 b1 : Z) : Z * Z :=
  (b0, (be16 b0 b1 / 16) mod 256).
Fixpoint rebit_spec (raw : list Z) : list Z :=
  match raw with
  | b0 :: b1 :: rest =>
      fst (rebit_pair_spec b0 b1) :: snd (rebit_pair_spec b0 b1) :: rebit_spec rest
  | _ => []
  end.

Definition is_byte (b : Z) : Prop := 0 <= b < 256.

Section Host.

(** [vvCuda::checkError(&flag, err, msg)] lives in vvcuda.h, which is not part
    of the sources; it is a parameter, called with the current value of the
    flag and returning its new value.  The device decides each allocation. *)
Variable checkError : bool -> cudaError_t -> bool.
Variable device : nat -> cudaError_t.

(** What [cudaMemcpy3D] receives for frame [f]: [vd->getRaw(f)] for one byte
    per channel, the rebitted copy of [vd->getRaw(0)] for two, and a zeroed
    [copyParams.srcPtr] otherwise.  The copy moves [extent] elements. *)
Definition copySource (vd : vvVolDesc) (junk : list Z) (f : nat)
  : option (list Z) :=
  if bpc vd =? 1 then Some (take (Z.to_nat (voxels vd)) (getRaw vd f))
  else if bpc vd =? 2 then
    let size := voxels vd * bpc vd in
    let raw := getRaw vd 0 in
    Some (rebit size junk raw)
  else None.

(** One turn of the frame loop up to the test of the flag: the allocation,
    [checkError] on [_volumeCopyToGpuOk], and the memory query. *)
Definition tryAlloc (f : nat) (r : vvRayRend) : vvRayRend :=
  let err := device f in
  let r := call (cudaMalloc3DArray f err) r in
  let r := match err with
           | cudaSuccess => set_array f (Some []) r
           | _ => r
           end in
  let r := set_ok (checkError (_volumeCopyToGpuOk r) err) r in
  call cudaMemGetInfo r.

(** The rest of the turn: the copy into [d_volumeArrays[f]]. *)
Definition copyFrame (vd : vvVolDesc) (junk : list Z) (f : nat)
  (r : vvRayRend) : vvRayRend :=
  let src := copySource vd junk f in
  let r := call (cudaMemcpy3D f src) r in
  match src with
  | Some data => set_array f (Some data) r
  | None => r
  end.

(** The frame loop, [n] frames from frame [f] on.  Returns the state and
    [outOfMemFrame]. *)
Fixpoint uploadFrames (vd : vvVolDesc) (junk : list Z) (n f : nat)
  (r : vvRayRend) : vvRayRend * Z :=
  match n with
  | O => (r, -1)
  | S n' =>
      let r := tryAlloc f r in
      if negb (_volumeCopyToGpuOk r) then (r, Z.of_nat f)
      else uploadFrames vd junk n' (S f) (copyFrame vd junk f r)
  end.

Definition freeFrame (r : vvRayRend) (f : nat) : vvRayRend :=
  set_array f None (call (cudaFree f) r).
Definition freeArrayFrame (r : vvRayRend) (f : nat) : vvRayRend :=
  set_array f None (call (cudaFreeArray f) r).

Definition initVolumeTexture (vd : vvVolDesc) (junk : list Z)
  (r : vvRayRend) : vvRayRend :=
  let r := {| _volumeCopyToGpuOk := _volumeCopyToGpuOk r;
              d_volumeArrays := resize (frames vd) None (d_volumeArrays r);
              calls := calls r |} in
  (* Free "cuda error cache". *)
  let r := call cudaGetLastError r in
  let '(r, outOfMemFrame) := uploadFrames vd junk (frames vd) 0 r in
  let r :=
    if 0 <=? outOfMemFrame then
      let r := call (cerr "Couldn't accomodate the volume"%string) r in
      foldl freeFrame r (seq 0 (Z.to_nat (outOfMemFrame + 1)))
    else r in
  let r :=
    if bpc vd =? 1 then
      foldl freeArrayFrame r (seq 0 (Z.to_nat outOfMemFrame))
    else r in
  if _volumeCopyToGpuOk r then
    if bpc vd =? 1 then call (cudaBindTextureToArray 1 0) r
    else if bpc vd =? 2 then call (cudaBindTextureToArray 2 0) r
    else r
  else r.

Definition iDivUp (a b : Z) : Z :=
  if negb (Z.rem a b =? 0) then Z.quot a b + 1 else Z.quot a b.

(** [compositeVolume]: the guard, and of the rest of the body the kernel
    launch (the kernel pointer returned by [getKernel] is never NULL) and the
    final [vvRenderer::renderVolumeGL()].  [vp] is the GL viewport size.
    The launch sits in a [switch (_depthPrecision)] with a case for each of
    the three enumerators and no default; [_depthPrecision] is [None] when
    the member holds none of them, and then nothing is launched.  The launch
    records which of [_depthUchar], [_depthUshort] and [_depthUint] it
    passes. *)
Definition compositeVolume (rend : Dispatch.vvRayRend)
  (_depthPrecision : option DepthPrecision) (vp : Z * Z) (w h : Z)
  (r : vvRayRend) : vvRayRend :=
  if negb (_volumeCopyToGpuOk r) then
    call (cerr "vvRayRend::compositeVolume() aborted because of previous CUDA-Error"%string) r
  else
    let vp := if (0 <? w) && (0 <? h) then (w, h) else vp in
    let blockSize := (16, 16) in
    let gridSize := (iDivUp (fst vp) (fst blockSize),
                     iDivUp (snd vp) (snd blockSize)) in
    let kernel := Dispatch.getKernel rend in
    let r :=
      match _depthPrecision with
      | Some VV_UCHAR =>
          call (kernelLaunch kernel gridSize blockSize VV_UCHAR) r
      | Some VV_USHORT =>
          call (kernelLaunch kernel gridSize blockSize VV_USHORT) r
      | Some VV_UINT =>
          call (kernelLaunch kernel gridSize blockSize VV_UINT) r
      | None => r
      end in
    call renderVolumeGL r.

End Host.

(** *** The rebit transform *)

Lemma rebit_val (b0 b1 : Z) :
  is_byte b0 -> is_byte b1 ->
  Z.shiftr (Z.lor (Z.shiftl b0 8) b1) 4 = be16 b0 b1 / 16.
Proof.
  intros H0 H1. unfold be16, is_byte in *.
  rewrite Z.shiftr_div_pow2, Z.shiftl_mul_pow2 by lia.
  assert (L : Z.land (b0 * 2 ^ 8) b1 = 0).
  { apply Z.bits_inj'. intros i Hi.
    rewrite Z.land_spec, Z.bits_0.
    destruct (Z.ltb_spec i 8).
    - rewrite Z.mul_pow2_bits_low by lia. reflexivity.
    - destruct (Z.eq_dec b1 0) as [->|].
      + rewrite Z.bits_0. apply andb_false_r.
      + rewrite (Z.bits_above_log2 b1), andb_false_r; [reflexivity|lia|].
        apply Z.lt_le_trans with 8; [|lia].
        apply Z.log2_lt_pow2; simpl; lia. }
  pose proof (Z.add_lor_land (b0 * 2 ^ 8) b1) as E. rewrite L in E.
  change (2 ^ 8) with 256 in *. change (2 ^ 4) with 16.
  f_equal. lia.
Qed.

(** The stored second byte is the low nibble of the first source byte
    followed by the high nibble of the second. *)
Lemma rebit_pair_nibbles (b0 b1 : Z) :
  is_byte b0 -> is_byte b1 ->
  snd (rebit_pair_spec b0 b1) = (b0 mod 16) * 16 + b1 / 16.
Proof.
  unfold rebit_pair_spec, be16, is_byte. simpl. intros H0 H1.
  Z.div_mod_to_equations. lia.
Qed.

Lemma rebit_loop_spec (n : nat) :
  forall (praw pre rest data : list Z),
    length praw = length pre ->
    length rest = (2 * n)%nat -> length data = (2 * n)%nat ->
    Forall is_byte rest ->
    rebit_loop n (length pre) (praw ++ rest) (pre ++ data)
    = pre ++ rebit_spec rest.
Proof.
  induction n as [|n IH]; intros praw pre rest data Hp Hr Hd Hb.
  - destruct rest; [|discriminate]. destruct data; [|discriminate]. reflexivity.
  - destruct rest as [|b0 [|b1 rest]]; simpl in Hr; try lia.
    destruct data as [|d0 [|d1 data]]; simpl in Hd; try lia.
    inversion Hb as [|? ? Hb0 Hb']; subst. inversion Hb' as [|? ? Hb1 Hb'']; subst.
    assert (E0 : (praw ++ b0 :: b1 :: rest) !!! length pre = b0)
      by (apply list_lookup_total_middle; lia).
    assert (E1 : (praw ++ b0 :: b1 :: rest) !!! (length pre + 1)%nat = b1).
    { replace (praw ++ b0 :: b1 :: rest) with ((praw ++ [b0]) ++ b1 :: rest)
        by (rewrite <- app_assoc; reflexivity).
      apply list_lookup_total_middle. rewrite length_app; simpl; lia. }
    cbn [rebit_loop rebit_spec]. rewrite E0, E1.
    rewrite rebit_val by assumption.
    rewrite !insert_app_r_alt by lia.
    replace (length pre - length pre)%nat with 0%nat by lia.
    replace (length pre + 1 - length pre)%nat with 1%nat by lia.
    cbn [list_insert rebit_pair_spec fst snd].
    specialize (IH (praw ++ [b0; b1]) (pre ++ [b0; be16 b0 b1 / 16 mod 256])
                  rest data).
    rewrite !length_app in IH. simpl length in IH.
    replace (length pre + 2)%nat with (length pre + 2)%nat in IH by lia.
    rewrite <- !app_assoc in IH. simpl app in IH.
    apply IH; [lia | lia | lia | assumption].
Qed.

Lemma rebit_spec_lookup (raw : list Z) (i : nat) (b0 b1 : Z) :
  raw !! (2 * i)%nat = Some b0 -> raw !! (2 * i + 1)%nat = Some b1 ->
  rebit_spec raw !! (2 * i)%nat = Some b0 /\
  rebit_spec raw !! (2 * i + 1)%nat = Some ((be16 b0 b1 / 16) mod 256).
Proof.
  revert raw. induction i as [|i IH]; intros raw H0 H1.
  - destruct raw as [|c0 [|c1 raw]]; try discriminate.
    simpl in *. inversion H0; inversion H1; subst. split; reflexivity.
  - destruct raw as [|c0 [|c1 raw]]; try discriminate.
    replace (2 * S i)%nat with (S (S (2 * i))) in * by lia.
    simpl in H0, H1. cbn [rebit_spec].
    change ((?a :: ?b :: ?l) !! S (S ?k)) with (l !! k).
    replace (S (S (2 * i)) + 1)%nat with (S (S (2 * i + 1))) by lia.
    change ((?a :: ?b :: ?l) !! S (S ?k)) with (l !! k).
    apply IH; assumption.
Qed.

Lemma rebit_eq_spec (raw junk : list Z) (n : nat) :
  length raw = (2 * n)%nat -> Forall is_byte raw ->
  rebit (Z.of_nat (2 * n)) junk raw = rebit_spec raw.
Proof.
  intros Hlen Hb. unfold rebit.
  replace (Z.to_nat ((Z.of_nat (2 * n) + 1) / 2)) with n
    by (apply Nat2Z.inj; rewrite Z2Nat.id;
        Z.div_mod_to_equations; lia).
  rewrite Nat2Z.id.
  apply (rebit_loop_spec n [] [] raw); auto.
  apply length_resize.
Qed.

(** C7. For two bytes per channel and a raw buffer of [size] bytes ([size]
    even), the buffer handed to the upload is determined by the pair-wise
    transform alone, whatever the fresh array held: each pair
    [(raw[i], raw[i+1])] is read as a big-endian 16-bit value and shifted
    right by 4; [data[i]] is [raw[i]] unchanged and [data[i+1]] is the
    shifted value modulo 2^8. *)
Theorem rebit_is_pairwise_transform (raw junk : list Z) (n : nat) :
  length raw = (2 * n)%nat -> Forall is_byte raw ->
  rebit (Z.of_nat (2 * n)) junk raw = rebit_spec raw /\
  (forall (i : nat) (b0 b1 : Z),
     raw !! (2 * i)%nat = Some b0 -> raw !! (2 * i + 1)%nat = Some b1 ->
     rebit (Z.of_nat (2 * n)) junk raw !! (2 * i)%nat = Some b0 /\
     rebit (Z.of_nat (2 * n)) junk raw !! (2 * i + 1)%nat
     = Some ((be16 b0 b1 / 16) mod 256)).
Proof.
  intros Hlen Hb.
  pose proof (rebit_eq_spec raw junk n Hlen Hb) as E.
  split; [exact E|].
  intros i b0 b1 H0 H1. rewrite E. apply rebit_spec_lookup; assumption.
Qed.

Lemma rebit_is_pairwise_transform_witness :
  rebit 4 [7; 7; 7; 7] [18; 52; 171; 205] = [18; 35; 171; 188].
Proof.
  destruct (rebit_is_pairwise_transform [18; 52; 171; 205] [7; 7; 7; 7] 2)
    as [E _].
  - reflexivity.
  - repeat constructor; unfold is_byte; lia.
  - exact E.
Defined.

(** *** The frame loop and its failure path *)

(** Writing the slots [fs] in turn, slot [j] to [a j]. *)
Definition fillSlots (a : nat -> cudaArray) (fs : list nat)
  (l : list cudaArray) : list cudaArray :=
  foldl (fun l j => <[j := a j]> l) l fs.

Lemma fillSlots_length a fs l : length (fillSlots a fs l) = length l.
Proof.
  revert l. induction fs as [|f fs IH]; intros l; simpl; [reflexivity|].
  unfold fillSlots in *. simpl. rewrite IH. apply length_insert.
Qed.

Lemma fillSlots_lookup a fs : forall l j,
  (j < length l)%nat ->
  fillSlots a fs l !! j = if decide (j ∈ fs) then Some (a j) else l !! j.
Proof.
  induction fs as [|f fs IH]; intros l j Hj.
  - destruct (decide (j ∈ [])) as [H|_]; [|reflexivity].
    exfalso. revert H. apply not_elem_of_nil.
  - change (fillSlots a (f :: fs) l) with (fillSlots a fs (<[f := a f]> l)).
    rewrite IH by (rewrite length_insert; exact Hj).
    destruct (decide (j ∈ fs)) as [Hin|Hin].
    + rewrite decide_True by (right; exact Hin). reflexivity.
    + destruct (decide (j = f)) as [->|Hne].
      * rewrite decide_True by left.
        apply list_lookup_insert_eq. exact Hj.
      * rewrite decide_False
          by (intros H; apply elem_of_cons in H; destruct H; contradiction).
        apply list_lookup_insert_ne. congruence.
Qed.

Lemma foldl_slot_calls (c : nat -> Call) (a : nat -> cudaArray) fs : forall r,
  foldl (fun r f => set_array f (a f) (call (c f) r)) r fs
  = {| _volumeCopyToGpuOk := _volumeCopyToGpuOk r;
       d_volumeArrays := fillSlots a fs (d_volumeArrays r);
       calls := calls r ++ map c fs |}.
Proof.
  induction fs as [|f fs IH]; intros [ok arrs cs]; simpl.
  - rewrite app_nil_r. reflexivity.
  - rewrite IH. simpl. rewrite <- app_assoc. reflexivity.
Qed.

Section HostProofs.

Variable checkError : bool -> cudaError_t -> bool.
Variable device : nat -> cudaError_t.
Variable vd : vvVolDesc.
Variable junk : list Z.

(** The calls of one successful turn of the frame loop. *)
Definition uploadCalls (f : nat) : list Call :=
  [cudaMalloc3DArray f cudaSuccess; cudaMemGetInfo;
   cudaMemcpy3D f (copySource vd junk f)].

(** The slot of a frame after a successful turn. *)
Definition uploaded (f : nat) : cudaArray :=
  Some (default [] (copySource vd junk f)).

Hypothesis checkError_success : checkError true cudaSuccess = true.

Lemma successful_turn f r :
  device f = cudaSuccess -> _volumeCopyToGpuOk r = true ->
  copyFrame vd junk f (tryAlloc checkError device f r)
  = {| _volumeCopyToGpuOk := true;
       d_volumeArrays := <[f := uploaded f]> (d_volumeArrays r);
       calls := calls r ++ uploadCalls f |}
  /\ _volumeCopyToGpuOk (tryAlloc checkError device f r) = true.
Proof.
  intros Hd Hok. destruct r as [ok arrs cs]. simpl in Hok. subst ok.
  unfold copyFrame, tryAlloc, uploaded, uploadCalls. rewrite Hd. simpl.
  rewrite checkError_success. split; [|reflexivity].
  destruct (copySource vd junk f); unfold set_array, call; simpl;
    rewrite <- !app_assoc; simpl; [rewrite list_insert_insert_eq|];
    reflexivity.
Qed.

Lemma uploadFrames_ok n : forall f r,
  (forall j, (f <= j < f + n)%nat -> device j = cudaSuccess) ->
  _volumeCopyToGpuOk r = true ->
  uploadFrames checkError device vd junk n f r
  = ({| _volumeCopyToGpuOk := true;
        d_volumeArrays := fillSlots uploaded (seq f n) (d_volumeArrays r);
        calls := calls r ++ flat_map uploadCalls (seq f n) |}, -1).
Proof.
  induction n as [|n IH]; intros f r Hdev Hok.
  - destruct r as [ok arrs cs]. simpl in *. subst. rewrite app_nil_r.
    reflexivity.
  - destruct (successful_turn f r) as [E1 E2]; [apply Hdev; lia|exact Hok|].
    cbn [uploadFrames]. rewrite E2, E1. cbn [negb].
    rewrite IH; [|intros j Hj; apply Hdev; lia|reflexivity].
    cbn [seq flat_map fillSlots foldl d_volumeArrays calls].
    rewrite <- app_assoc. reflexivity.
Qed.

Lemma uploadFrames_fail (e : cudaError_t) k : forall n f r,
  checkError true e = false -> e <> cudaSuccess ->
  (k < n)%nat ->
  (forall j, (f <= j < f + k)%nat -> device j = cudaSuccess) ->
  device (f + k)%nat = e ->
  _volumeCopyToGpuOk r = true ->
  uploadFrames checkError device vd junk n f r
  = ({| _volumeCopyToGpuOk := false;
        d_volumeArrays := fillSlots uploaded (seq f k) (d_volumeArrays r);
        calls := calls r ++ flat_map uploadCalls (seq f k)
                 ++ [cudaMalloc3DArray (f + k) e; cudaMemGetInfo] |},
     Z.of_nat (f + k)).
Proof.
  induction k as [|k IH]; intros n f r He Hne Hk Hdev Hfail Hok.
  - destruct n as [|n]; [lia|].
    rewrite Nat.add_0_r in *.
    destruct r as [ok arrs cs]. simpl in Hok. subst ok.
    cbn [uploadFrames]. unfold tryAlloc. rewrite Hfail.
    destruct e; [congruence|]. simpl. rewrite He.
    unfold call, set_ok. simpl. rewrite <- app_assoc. reflexivity.
  - destruct n as [|n]; [lia|].
    destruct (successful_turn f r) as [E1 E2]; [apply Hdev; lia|exact Hok|].
    cbn [uploadFrames]. rewrite E2, E1. cbn [negb].
    rewrite (IH n (S f)); try assumption; try reflexivity; try lia.
    + cbn [seq flat_map fillSlots foldl d_volumeArrays calls].
      rewrite <- !app_assoc.
      replace (S f + k)%nat with (f + S k)%nat by lia. reflexivity.
    + intros j Hj. apply Hdev. lia.
    + replace (S f + k)%nat with (f + S k)%nat by lia. exact Hfail.
Qed.

Lemma freeFrames_spec fs r :
  foldl freeFrame r fs
  = {| _volumeCopyToGpuOk := _volumeCopyToGpuOk r;
       d_volumeArrays := fillSlots (fun _ => None) fs (d_volumeArrays r);
       calls := calls r ++ map cudaFree fs |}.
Proof. exact (foldl_slot_calls cudaFree (fun _ => None) fs r). Qed.

Lemma freeArrayFrames_spec fs r :
  foldl freeArrayFrame r fs
  = {| _volumeCopyToGpuOk := _volumeCopyToGpuOk r;
       d_volumeArrays := fillSlots (fun _ => None) fs (d_volumeArrays r);
       calls := calls r ++ map cudaFreeArray fs |}.
Proof. exact (foldl_slot_calls cudaFreeArray (fun _ => None) fs r). Qed.

Lemma compositeVolume_refuses rend dp vp w h r :
  _volumeCopyToGpuOk r = false ->
  compositeVolume rend dp vp w h r
  = call (cerr "vvRayRend::compositeVolume() aborted because of previous CUDA-Error") r.
Proof. intros H. unfold compositeVolume. rewrite H. reflexivity. Qed.

(** C8. Let the device accept the allocations of frames [0 .. k-1] and
    refuse the one of frame [k < F].  Then [initVolumeTexture] uploads frames
    [0 .. k-1] only, issues nothing more for frames after [k], calls
    [cudaFree] on the slots of frames [0 .. k] (and, for one byte per
    channel, [cudaFreeArray] on the slots below [k], already NULL), leaves
    the slots [0 .. k] NULL and [_volumeCopyToGpuOk] false; and as long as
    that flag is false [compositeVolume] only prints its diagnostic: no
    kernel is launched. *)
Theorem alloc_failure_rolls_back_and_blocks (r : vvRayRend) (k : nat) :
  (forall b, checkError b cudaErrorMemoryAllocation = false) ->
  _volumeCopyToGpuOk r = true ->
  (k < frames vd)%nat ->
  (forall j, (j < k)%nat -> device j = cudaSuccess) ->
  device k = cudaErrorMemoryAllocation ->
  let r' := initVolumeTexture checkError device vd junk r in
  _volumeCopyToGpuOk r' = false /\
  calls r'
  = calls r ++ [cudaGetLastError] ++ flat_map uploadCalls (seq 0 k)
    ++ [cudaMalloc3DArray k cudaErrorMemoryAllocation; cudaMemGetInfo;
        cerr "Couldn't accomodate the volume"]
    ++ map cudaFree (seq 0 (S k))
    ++ (if bpc vd =? 1 then map cudaFreeArray (seq 0 k) else []) /\
  (forall f, (f <= k)%nat -> d_volumeArrays r' !! f = Some None) /\
  (forall rend dp vp w h r0, _volumeCopyToGpuOk r0 = false ->
     compositeVolume rend dp vp w h r0
     = call (cerr "vvRayRend::compositeVolume() aborted because of previous CUDA-Error") r0).
Proof.
  intros Herr Hok Hk Hprev Hfail r'.
  assert (E : r' =
    {| _volumeCopyToGpuOk := false;
       d_volumeArrays :=
         (if bpc vd =? 1 then fillSlots (fun _ => None) (seq 0 k) else id)
           (fillSlots (fun _ => None) (seq 0 (S k))
              (fillSlots uploaded (seq 0 k)
                 (resize (frames vd) None (d_volumeArrays r))));
       calls := calls r ++ [cudaGetLastError] ++ flat_map uploadCalls (seq 0 k)
         ++ [cudaMalloc3DArray k cudaErrorMemoryAllocation; cudaMemGetInfo;
             cerr "Couldn't accomodate the volume"]
         ++ map cudaFree (seq 0 (S k))
         ++ (if bpc vd =? 1 then map cudaFreeArray (seq 0 k) else []) |}).
  { subst r'. unfold initVolumeTexture.
    rewrite (uploadFrames_fail cudaErrorMemoryAllocation k (frames vd) 0);
      [| apply Herr | discriminate | exact Hk
       | intros j Hj; apply Hprev; lia | exact Hfail | exact Hok].
    cbn [Nat.add].
    replace (0 <=? Z.of_nat k) with true by (symmetry; apply Z.leb_le; lia).
    replace (Z.to_nat (Z.of_nat k + 1)) with (S k) by lia.
    rewrite Nat2Z.id, freeFrames_spec.
    destruct (bpc vd =? 1).
    - rewrite freeArrayFrames_spec. cbn. rewrite <- !app_assoc. reflexivity.
    - cbn. rewrite <- !app_assoc, app_nil_r. reflexivity. }
  rewrite E. cbn [_volumeCopyToGpuOk calls d_volumeArrays].
  split; [reflexivity|]. split; [reflexivity|].
  split; [|intros; apply compositeVolume_refuses; assumption].
  intros f Hf.
  assert (L : fillSlots (fun _ : nat => None) (seq 0 (S k))
                (fillSlots uploaded (seq 0 k)
                   (resize (frames vd) None (d_volumeArrays r))) !! f
              = Some (None : cudaArray)).
  { rewrite fillSlots_lookup
      by (rewrite fillSlots_length, length_resize; lia).
    rewrite decide_True by (apply elem_of_seq; lia). reflexivity. }
  destruct (bpc vd =? 1); [|exact L].
  rewrite fillSlots_lookup
    by (rewrite !fillSlots_length, length_resize; lia).
  destruct (decide (f ∈ seq 0 k)); [reflexivity|exact L].
Qed.

Lemma initVolumeTexture_ok (r : vvRayRend) :
  _volumeCopyToGpuOk r = true ->
  (forall j, (j < frames vd)%nat -> device j = cudaSuccess) ->
  initVolumeTexture checkError device vd junk r
  = {| _volumeCopyToGpuOk := true;
       d_volumeArrays :=
         fillSlots uploaded (seq 0 (frames vd))
           (resize (frames vd) None (d_volumeArrays r));
       calls := calls r ++ [cudaGetLastError]
         ++ flat_map uploadCalls (seq 0 (frames vd))
         ++ (if bpc vd =? 1 then [cudaBindTextureToArray 1 0]
             else if bpc vd =? 2 then [cudaBindTextureToArray 2 0] else []) |}.
Proof.
  intros Hok Hdev. unfold initVolumeTexture.
  rewrite uploadFrames_ok; [|intros j Hj; apply Hdev; lia|exact Hok].
  cbn [Z.leb Z.compare Z.to_nat seq foldl].
  replace (if bpc vd =? 1 then _ else _) with
    {| _volumeCopyToGpuOk := true;
       d_volumeArrays :=
         fillSlots uploaded (seq 0 (frames vd))
           (resize (frames vd) None (d_volumeArrays r));
       calls := (calls r ++ [cudaGetLastError])
                ++ flat_map uploadCalls (seq 0 (frames vd)) |}
    by (destruct (bpc vd =? 1); reflexivity).
  cbn [_volumeCopyToGpuOk].
  destruct (bpc vd =? 1); [|destruct (bpc vd =? 2)];
    unfold call; cbn; rewrite <- ?app_assoc, ?app_nil_r; reflexivity.
Qed.

Lemma uploaded_slot (r : vvRayRend) (f : nat) :
  _volumeCopyToGpuOk r = true ->
  (forall j, (j < frames vd)%nat -> device j = cudaSuccess) ->
  (f < frames vd)%nat ->
  let r' := initVolumeTexture checkError device vd junk r in
  cudaMemcpy3D f (copySource vd junk f) ∈ calls r' /\
  d_volumeArrays r' !! f = Some (uploaded f).
Proof.
  intros Hok Hdev Hf r'. subst r'. rewrite initVolumeTexture_ok by assumption.
  cbn [calls d_volumeArrays]. split.
  - rewrite !elem_of_app. right. right. left.
    apply list_elem_of_In, in_flat_map. exists f. split.
    + apply in_seq. lia.
    + right. right. left. reflexivity.
  - rewrite fillSlots_lookup by (rewrite length_resize; exact Hf).
    rewrite decide_True by (apply elem_of_seq; lia). reflexivity.
Qed.

(** C10. When every allocation succeeds, each frame [f] of a volume with two
    bytes per channel is filled by a copy whose source is the rebitted
    [vd->getRaw(0)]: the uploaded data does not depend on [f] and is the
    pair-wise transform of frame 0 (of the first [size] bytes, when they are
    there).  With one byte per channel frame [f] receives the voxels of its
    own [vd->getRaw(f)]. *)
Theorem bpc2_uploads_frame0_to_every_frame (r : vvRayRend) :
  _volumeCopyToGpuOk r = true ->
  (forall j, (j < frames vd)%nat -> device j = cudaSuccess) ->
  let r' := initVolumeTexture checkError device vd junk r in
  (bpc vd = 2 -> forall f, (f < frames vd)%nat ->
     let data := rebit (voxels vd * 2) junk (getRaw vd 0) in
     cudaMemcpy3D f (Some data) ∈ calls r' /\
     d_volumeArrays r' !! f = Some (Some data)) /\
  (bpc vd = 2 -> forall n : nat,
     voxels vd = Z.of_nat n -> length (getRaw vd 0) = (2 * n)%nat ->
     Forall is_byte (getRaw vd 0) ->
     forall f, (f < frames vd)%nat ->
     d_volumeArrays r' !! f = Some (Some (rebit_spec (getRaw vd 0)))) /\
  (bpc vd = 1 -> forall f, (f < frames vd)%nat ->
     let data := take (Z.to_nat (voxels vd)) (getRaw vd f) in
     cudaMemcpy3D f (Some data) ∈ calls r' /\
     d_volumeArrays r' !! f = Some (Some data)).
Proof.
  intros Hok Hdev r'.
  assert (S2 : bpc vd = 2 -> forall f,
            copySource vd junk f
            = Some (rebit (voxels vd * 2) junk (getRaw vd 0))).
  { intros Hb f. unfold copySource. rewrite Hb. reflexivity. }
  assert (S1 : bpc vd = 1 -> forall f,
            copySource vd junk f
            = Some (take (Z.to_nat (voxels vd)) (getRaw vd f))).
  { intros Hb f. unfold copySource. rewrite Hb. reflexivity. }
  split; [|split].
  - intros Hb f Hf data.
    destruct (uploaded_slot r f Hok Hdev Hf) as [Hc Ha].
    unfold uploaded in Ha. rewrite (S2 Hb) in Hc, Ha. split; assumption.
  - intros Hb n Hn Hlen Hbytes f Hf.
    destruct (uploaded_slot r f Hok Hdev Hf) as [_ Ha].
    unfold uploaded in Ha. rewrite (S2 Hb) in Ha. refine (eq_trans Ha _).
    cbn [default]. do 2 f_equal.
    replace (voxels vd * 2) with (Z.of_nat (2 * n)) by lia.
    apply rebit_eq_spec; assumption.
  - intros Hb f Hf data.
    destruct (uploaded_slot r f Hok Hdev Hf) as [Hc Ha].
    unfold uploaded in Ha. rewrite (S1 Hb) in Hc, Ha. split; assumption.
Qed.


End HostProofs.

(** A device with room for one frame only, a [checkError] that stores
    whether the call succeeded, and a three-frame 8-bit volume. *)
Definition checkError_assign (_ : bool) (e : cudaError_t) : bool :=
  match e with cudaSuccess => true | _ => false end.
Definition device_one_frame (f : nat) : cudaError_t :=
  if (f <? 1)%nat then cudaSuccess else cudaErrorMemoryAllocation.
Definition device_unlimited (f : nat) : cudaError_t := cudaSuccess.
Definition vd_8bit : vvVolDesc :=
  {| vox := (2, 1, 1); bpc := 1; frames := 3;
     getRaw := fun f => [Z.of_nat f; Z.of_nat f + 10] |}.
Definition vd_16bit : vvVolDesc :=
  {| vox := (2, 1, 1); bpc := 2; frames := 2;
     getRaw := fun f => [18 + Z.of_nat f; 52; 171; 205] |}.
Definition fresh : vvRayRend :=
  {| _volumeCopyToGpuOk := true; d_volumeArrays := []; calls := [] |}.

Lemma alloc_failure_rolls_back_and_blocks_witness :
  _volumeCopyToGpuOk
    (initVolumeTexture checkError_assign device_one_frame vd_8bit [] fresh)
  = false.
Proof.
  refine (proj1 (alloc_failure_rolls_back_and_blocks checkError_assign
                   device_one_frame vd_8bit [] _ fresh 1%nat _ _ _ _ _)).
  - reflexivity.
  - intros b. reflexivity.
  - reflexivity.
  - simpl. lia.
  - intros j Hj. assert (j = 0%nat) as -> by lia. reflexivity.
  - reflexivity.
Defined.

Lemma bpc2_uploads_frame0_to_every_frame_witness :
  d_volumeArrays
    (initVolumeTexture checkError_assign device_unlimited vd_16bit [] fresh)
    !! 1%nat
  = Some (Some [18; 35; 171; 188]).
Proof.
  refine (proj2 (proj1 (bpc2_uploads_frame0_to_every_frame checkError_assign
                   device_unlimited vd_16bit [] _ fresh _ _) _ 1%nat _)).
  - reflexivity.
  - reflexivity.
  - intros j Hj. reflexivity.
  - reflexivity.
  - simpl. lia.
Defined.


(** *** The launch grid *)

Lemma iDivUp_spec (a b : Z) :
  0 <= a -> 0 < b ->
  iDivUp a b = (a + b - 1) / b /\
  a <= iDivUp a b * b < a + b.
Proof.
  intros Ha Hb. unfold iDivUp.
  rewrite Z.rem_mod_nonneg, Z.quot_div_nonneg by lia.
  pose proof (Z.div_mod a b ltac:(lia)) as E.
  pose proof (Z.mod_pos_bound a b Hb) as Hm.
  destruct (Z.eqb_spec (a mod b) 0) as [H0|H0]; cbn [negb].
  - split; [|nia].
    apply (Z.div_unique _ _ _ (b - 1)); [lia|]. rewrite H0 in E. lia.
  - split; [|nia].
    apply (Z.div_unique _ _ _ (a mod b - 1)); [lia|]. lia.
Qed.

(** X3. For a non-negative [a] and a positive [b], [iDivUp a b] is the
    ceiling of [a / b]: the least number of blocks of [b] threads that
    covers [a] pixels. *)
Theorem iDivUp_is_ceiling (a b : Z) :
  0 <= a -> 0 < b ->
  a <= iDivUp a b * b /\
  (forall n, a <= n * b -> iDivUp a b <= n) /\
  iDivUp a b = (a + b - 1) / b.
Proof.
  intros Ha Hb. destruct (iDivUp_spec a b Ha Hb) as [E [H1 H2]].
  split; [exact H1|]. split; [|exact E].
  intros n Hn. nia.
Qed.

Lemma iDivUp_is_ceiling_witness :
  10 <= iDivUp 10 16 * 16 /\
  (forall n, 10 <= n * 16 -> iDivUp 10 16 <= n) /\
  iDivUp 10 16 = (10 + 16 - 1) / 16.
Proof. apply (iDivUp_is_ceiling 10 16); lia. Defined.

(** X4. With the volume on the device, a viewport of [w] x [h] pixels and a
    depth precision that is one of the three enumerators, [compositeVolume]
    launches the kernel picked by the dispatcher exactly once, in blocks of
    16 x 16 threads on a grid that covers the viewport: every pixel is the
    pixel of one thread of the grid, and no row or column of blocks lies
    wholly outside the viewport.  [vvRenderer::renderVolumeGL] follows. *)
Theorem compositeVolume_launch_covers_viewport
  (rend : Dispatch.vvRayRend) (dp : DepthPrecision) (vp : Z * Z) (w h : Z)
  (r : vvRayRend) :
  _volumeCopyToGpuOk r = true -> 0 < w -> 0 < h ->
  let r' := compositeVolume rend (Some dp) vp w h r in
  exists gx gy,
    calls r'
    = calls r ++ [kernelLaunch (Dispatch.getKernel rend) (gx, gy) (16, 16) dp;
                  renderVolumeGL] /\
    _volumeCopyToGpuOk r' = true /\
    d_volumeArrays r' = d_volumeArrays r /\
    (forall x y, 0 <= x < w -> 0 <= y < h ->
       exists bx by_ tx ty,
         0 <= bx < gx /\ 0 <= by_ < gy /\ 0 <= tx < 16 /\ 0 <= ty < 16 /\
         bx * 16 + tx = x /\ by_ * 16 + ty = y) /\
    (gx - 1) * 16 < w /\ (gy - 1) * 16 < h.
Proof.
  intros Hok Hw Hh r'. subst r'. unfold compositeVolume. rewrite Hok.
  replace ((0 <? w) && (0 <? h)) with true
    by (symmetry; apply andb_true_iff; split; apply Z.ltb_lt; assumption).
  cbn [negb fst snd].
  destruct (iDivUp_spec w 16 ltac:(lia) ltac:(lia)) as [_ Gw].
  destruct (iDivUp_spec h 16 ltac:(lia) ltac:(lia)) as [_ Gh].
  exists (iDivUp w 16), (iDivUp h 16).
  split; [destruct dp; unfold call; cbn; rewrite <- app_assoc; reflexivity|].
  split; [destruct dp; exact Hok|].
  split; [destruct dp; reflexivity|]. split; [|lia].
  intros x y Hx Hy.
  exists (x / 16), (y / 16), (x mod 16), (y mod 16).
  pose proof (Z.div_mod x 16 ltac:(lia)).
  pose proof (Z.div_mod y 16 ltac:(lia)).
  pose proof (Z.mod_pos_bound x 16 ltac:(lia)).
  pose proof (Z.mod_pos_bound y 16 ltac:(lia)).
  repeat split; try lia.
Qed.

Definition uploaded_one : vvRayRend :=
  {| _volumeCopyToGpuOk := true; d_volumeArrays := [Some [1; 2]];
     calls := [] |}.
Definition rend_plain : Dispatch.vvRayRend :=
  {| Dispatch.bpc := 1;
     Dispatch._illumination := false;
     Dispatch._opacityCorrection := false;
     Dispatch._earlyRayTermination := true;
     Dispatch.VV_CLIP_MODE := false;
     Dispatch.VV_IS_ROI_USED := false;
     Dispatch.VV_SPHERICAL_ROI := false;
     Dispatch.VV_MIP_MODE := 0 |}.

Lemma compositeVolume_launch_covers_viewport_witness :
  calls (compositeVolume rend_plain (Some VV_UCHAR) (0, 0) 40 16 uploaded_one)
  = [kernelLaunch (Dispatch.getKernel rend_plain) (3, 1) (16, 16) VV_UCHAR;
     renderVolumeGL].
Proof.
  destruct (compositeVolume_launch_covers_viewport rend_plain VV_UCHAR (0, 0)
              40 16 uploaded_one)
    as (gx & gy & Hc & _); [reflexivity | lia | lia |].
  reflexivity.
Defined.

End VolumeStore.

(** ** IEEE-754 single precision, on the specification floats of the
    standard library: 24 bits of mantissa, infinities at exponent 128. *)
Module Binary32.

Definition prec : Z := 24.
Definition emax : Z := 128.
Definition float : Type := spec_float.

Definition of_int (n : Z) : float := binary_normalize prec emax n 0 false.
Definition zero : float := S754_zero false.
Definition one : float := of_int 1.

Definition add : float -> float -> float := SFadd prec emax.
Definition sub : float -> float -> float := SFsub prec emax.
Definition mul : float -> float -> float := SFmul prec emax.
Definition div : float -> float -> float := SFdiv prec emax.
Definition sqrt : float -> float := SFsqrt prec emax.
Definition ltb : float -> float -> bool := SFltb.
Definition leb : float -> float -> bool := SFleb.
Definition eqb : float -> float -> bool := SFeqb.

(** A decimal literal such as [0.95f]: the quotient of two small integers,
    correctly rounded. *)
Definition lit (q : Q) : float := div (of_int (Qnum q)) (of_int (Zpos (Qden q))).

(** [fminf] and [fmaxf]: a NaN argument is dropped in favour of the other. *)
Definition fminf (a b : float) : float :=
  match a, b with
  | S754_nan, _ => b
  | _, S754_nan => a
  | _, _ => if ltb b a then b else a
  end.
Definition fmaxf (a b : float) : float :=
  match a, b with
  | S754_nan, _ => b
  | _, S754_nan => a
  | _, _ => if ltb a b then b else a
  end.

(** Conversion to an integer type with values in [lo, hi]: truncation
    towards zero; out of range the device conversion saturates and maps NaN
    to 0. *)
Definition trunc (x : float) : option Z :=
  match x with
  | S754_zero _ => Some 0
  | S754_finite s m e =>
      let v := match e with
               | Zneg p => Z.shiftr (Zpos m) (Zpos p)
               | _ => Z.shiftl (Zpos m) e
               end in
      Some (if s then - v else v)
  | _ => None
  end.
Definition to_int_range (lo hi : Z) (x : float) : Z :=
  match x with
  | S754_nan => 0
  | S754_infinity s => if s then lo else hi
  | _ => match trunc x with
         | Some v => Z.max lo (Z.min hi v)
         | None => 0
         end
  end.

(** The comparison with [0.0f] used by the host code. *)
Definition is_zero (a : float) : bool := eqb zero a.
Definition ge_zero (a : float) : bool := leb zero a.
Definition gt_zero (a : float) : bool := ltb zero a.

Lemma not_gt_zero_is_zero (a : float) :
  ge_zero a = true -> (gt_zero a = false <-> is_zero a = true).
Proof.
  unfold ge_zero, gt_zero, is_zero, leb, ltb, eqb, SFleb, SFltb, SFeqb.
  destruct (SFcompare zero a) as [[| |]|]; intuition discriminate.
Qed.

End Binary32.

(** ** Rounding in single precision

    The standard library gives the operations of [SpecFloat] without their
    theory.  This module proves what the accumulation of the kernel needs:
    [binary_round] returns a number of the format, it is monotone, and it
    leaves the numbers of the format alone; the comparisons of canonical
    numbers agree with the order of their values; and on the unit interval
    [1 - d], [s * r] and [d + s * (1 - d)] stay in the interval.  Values are
    real numbers. *)
Module Rounding.

Import Reals.
Import SpecFloat.
Import Binary32.

(** Powers of two and the value of a mantissa-exponent pair. *)
Definition bpow (e : Z) : R := powerRZ 2 e.
Definition F2R (m e : Z) : R := (IZR m * bpow e)%R.

Lemma bpow_gt_0 e : (0 < bpow e)%R.
Proof. apply powerRZ_lt. Lra.lra. Qed.

Lemma bpow_add a b : bpow (a + b) = (bpow a * bpow b)%R.
Proof. apply powerRZ_add. Lra.lra. Qed.

Lemma bpow_IZR n : 0 <= n -> bpow n = IZR (2 ^ n).
Proof.
  intros Hn. destruct n as [|p|p]; [reflexivity| |lia].
  unfold bpow. symmetry. exact (Zpower_pos_powerRZ 2 p).
Qed.

Lemma bpow_ge_1 n : 0 <= n -> (1 <= bpow n)%R.
Proof.
  intros Hn. rewrite bpow_IZR by exact Hn. apply IZR_le.
  pose proof (Z.pow_pos_nonneg 2 n ltac:(lia) Hn). lia.
Qed.

Lemma bpow_le a b : a <= b -> (bpow a <= bpow b)%R.
Proof.
  intros H. replace b with (a + (b - a)) by lia. rewrite bpow_add.
  pose proof (bpow_gt_0 a). pose proof (bpow_ge_1 (b - a) ltac:(lia)). Lra.nra.
Qed.

Lemma bpow_lt a b : a < b -> (bpow a < bpow b)%R.
Proof.
  intros H. replace b with (a + (b - a)) by lia. rewrite bpow_add.
  pose proof (bpow_gt_0 a).
  assert (2 <= bpow (b - a))%R.
  { rewrite bpow_IZR by lia. apply IZR_le.
    replace (b - a) with (Z.succ (b - a - 1)) by lia.
    rewrite Z.pow_succ_r by lia.
    pose proof (Z.pow_pos_nonneg 2 (b - a - 1) ltac:(lia) ltac:(lia)). lia. }
  Lra.nra.
Qed.

Lemma F2R_shift m e n : 0 <= n -> F2R (m * 2 ^ n) e = F2R m (e + n).
Proof.
  intros Hn. unfold F2R. rewrite mult_IZR, bpow_add, <- bpow_IZR by exact Hn.
  ring.
Qed.

(** Number of binary digits. *)
Lemma digits2_size m : digits2_pos m = Pos.size m.
Proof. induction m; cbn; congruence. Qed.

Lemma digits_bounds (m : positive) :
  let d := Z.pos (digits2_pos m) in
  2 ^ (d - 1) <= Z.pos m < 2 ^ d.
Proof.
  intros d. subst d. rewrite digits2_size.
  pose proof (Pos.size_gt m) as Hgt. pose proof (Pos.size_le m) as Hle.
  assert (E : forall p, Z.pos (2 ^ p) = 2 ^ Z.pos p).
  { intros p. rewrite Pos2Z.inj_pow. reflexivity. }
  apply Pos2Z.pos_lt_pos in Hgt. rewrite E in Hgt.
  apply Pos2Z.pos_le_pos in Hle. rewrite E in Hle.
  split; [|exact Hgt].
  replace (Z.pos (Pos.size m)) with (Z.succ (Z.pos (Pos.size m) - 1)) in Hle by lia.
  rewrite Z.pow_succ_r in Hle by lia. lia.
Qed.

Lemma F2R_bounds (m : positive) e :
  let d := Z.pos (digits2_pos m) in
  (bpow (d + e - 1) <= F2R (Z.pos m) e < bpow (d + e))%R.
Proof.
  intros d. destruct (digits_bounds m) as [H1 H2]. fold d in H1, H2.
  unfold F2R. pose proof (bpow_gt_0 e).
  replace (d + e - 1) with ((d - 1) + e) by lia.
  rewrite !bpow_add, (bpow_IZR (d - 1)), (bpow_IZR d) by (subst d; lia).
  apply IZR_le in H1. apply IZR_lt in H2.
  generalize dependent (IZR (2 ^ (d - 1))). generalize dependent (IZR (2 ^ d)).
  generalize dependent (IZR (Z.pos m)). generalize dependent (bpow e).
  intros. split; Lra.nra.
Qed.


(** [k * P] is a multiple of [P] nearest to [x], ties to even. *)
Definition nearest_even (x P : R) (k : Z) : Prop :=
  (x - P / 2 <= IZR k * P <= x + P / 2)%R /\
  ((IZR k * P = x + P / 2 \/ IZR k * P = x - P / 2)%R -> Z.even k = true).

Lemma nearest_even_mono x1 x2 P k1 k2 :
  (0 < P)%R -> (x1 <= x2)%R ->
  nearest_even x1 P k1 -> nearest_even x2 P k2 -> k1 <= k2.
Proof.
  intros HP Hx [[L1 U1] E1] [[L2 U2] E2].
  destruct (Z_le_gt_dec k1 k2) as [H|H]; [exact H|exfalso].
  assert (Hk : (IZR k2 + 1 <= IZR k1)%R).
  { rewrite <- plus_IZR. apply IZR_le. lia. }
  assert (A1 : (IZR k1 * P = x1 + P / 2)%R) by Lra.nra.
  assert (A2 : (IZR k2 * P = x2 - P / 2)%R) by Lra.nra.
  assert (Ek : (IZR k1 = IZR k2 + 1)%R) by Lra.nra.
  rewrite <- plus_IZR in Ek. apply eq_IZR in Ek.
  pose proof (E1 (or_introl A1)) as V1. pose proof (E2 (or_intror A2)) as V2.
  subst k1. rewrite Z.even_add in V1. rewrite V2 in V1. discriminate.
Qed.

Lemma nearest_even_ge x P k G :
  (0 < P)%R -> (IZR G * P <= x)%R -> nearest_even x P k -> G <= k.
Proof.
  intros HP HG [[L U] _].
  destruct (Z_le_gt_dec G k) as [H|H]; [exact H|exfalso].
  assert (Hk : (IZR k + 1 <= IZR G)%R).
  { rewrite <- plus_IZR. apply IZR_le. lia. }
  Lra.nra.
Qed.

Lemma nearest_even_le x P k G :
  (0 < P)%R -> (x <= IZR G * P)%R -> nearest_even x P k -> k <= G.
Proof.
  intros HP HG [[L U] _].
  destruct (Z_le_gt_dec k G) as [H|H]; [exact H|exfalso].
  assert (Hk : (IZR G + 1 <= IZR k)%R).
  { rewrite <- plus_IZR. apply IZR_le. lia. }
  Lra.nra.
Qed.

Lemma nearest_even_exact x P k G :
  (0 < P)%R -> (x = IZR G * P)%R -> nearest_even x P k -> k = G.
Proof.
  intros HP HG H.
  pose proof (nearest_even_ge x P k G HP ltac:(Lra.lra) H).
  pose proof (nearest_even_le x P k G HP ltac:(Lra.lra) H). lia.
Qed.

(** *** The right shift with round and sticky bits *)

Lemma iter_pos_nat {A} (f : A -> A) (p : positive) (x : A) :
  SpecFloat.iter_pos f p x = Nat.iter (Pos.to_nat p) f x.
Proof.
  revert x. induction p as [p IH|p IH|]; intros x; cbn [SpecFloat.iter_pos].
  - rewrite !IH, Pos2Nat.inj_xI, Nat.iter_succ_r.
    replace (2 * Pos.to_nat p)%nat with (Pos.to_nat p + Pos.to_nat p)%nat by lia.
    rewrite Nat.iter_add. reflexivity.
  - rewrite !IH, Pos2Nat.inj_xO.
    replace (2 * Pos.to_nat p)%nat with (Pos.to_nat p + Pos.to_nat p)%nat by lia.
    rewrite Nat.iter_add. reflexivity.
  - reflexivity.
Qed.

Lemma shr_1_spec m r s :
  0 <= m ->
  shr_1 {| shr_m := m; shr_r := r; shr_s := s |}
  = {| shr_m := m / 2; shr_r := Z.odd m; shr_s := r || s |}.
Proof.
  intros Hm. destruct m as [|[p|p|]|p]; try lia; cbn [shr_1 Z.odd].
  - reflexivity.
  - f_equal. rewrite Pos2Z.inj_xI.
    apply (Z.div_unique _ _ _ 1); lia.
  - f_equal. rewrite Pos2Z.inj_xO.
    apply (Z.div_unique _ _ _ 0); lia.
  - reflexivity.
Qed.

(** After [j + 1] shifts of [m]: the quotient, and the remainder split at
    its top bit. *)
Definition shifted (m : Z) (j : nat) (mrs : shr_record) : Prop :=
  exists low,
    0 <= low < 2 ^ Z.of_nat j /\
    shr_s mrs = negb (low =? 0) /\
    0 <= shr_m mrs /\
    m = shr_m mrs * 2 ^ (Z.of_nat j + 1)
        + (if shr_r mrs then 2 ^ Z.of_nat j else 0) + low.

Lemma shr_iter m (j : nat) :
  0 <= m ->
  shifted m j (Nat.iter (S j) shr_1
                 {| shr_m := m; shr_r := false; shr_s := false |}).
Proof.
  intros Hm. induction j as [|j IH].
  - cbn [Nat.iter]. rewrite shr_1_spec by exact Hm.
    exists 0. cbn [shr_m shr_r shr_s orb Z.of_nat]. 
    pose proof (Z.div_mod m 2 ltac:(lia)) as E.
    pose proof (Z.mod_pos_bound m 2 ltac:(lia)) as B.
    rewrite Zodd_mod.
    split; [lia|]. split; [reflexivity|].
    split; [apply Z.div_pos; lia|].
    change (2 ^ (0 + 1)) with 2. change (2 ^ 0) with 1.
    destruct (Z.eqb_spec (m mod 2) 1); lia.
  - change (Nat.iter (S (S j)) shr_1 ?x) with (shr_1 (Nat.iter (S j) shr_1 x)).
    destruct IH as (low & Hlow & Hs & Hq & E).
    destruct (Nat.iter (S j) shr_1 _) as [q r s].
    cbn [shr_m shr_r shr_s] in *.
    rewrite shr_1_spec by exact Hq.
    exists ((if r then 2 ^ Z.of_nat j else 0) + low).
    cbn [shr_m shr_r shr_s].
    pose proof (Z.div_mod q 2 ltac:(lia)) as Eq.
    pose proof (Z.mod_pos_bound q 2 ltac:(lia)) as Bq.
    assert (P0 : 0 < 2 ^ Z.of_nat j) by (apply Z.pow_pos_nonneg; lia).
    assert (P1 : 2 ^ Z.of_nat (S j) = 2 * 2 ^ Z.of_nat j).
    { rewrite Nat2Z.inj_succ, Z.pow_succ_r by lia. reflexivity. }
    assert (P2 : 2 ^ (Z.of_nat j + 1) = 2 * 2 ^ Z.of_nat j).
    { rewrite Z.pow_add_r by lia. change (2 ^ 1) with 2. lia. }
    assert (P3 : 2 ^ (Z.of_nat (S j) + 1) = 4 * 2 ^ Z.of_nat j).
    { rewrite Z.pow_add_r, P1 by lia. change (2 ^ 1) with 2. lia. }
    rewrite P1, P3. rewrite P2 in E.
    split; [destruct r; lia|]. split.
    + rewrite Hs. destruct r; destruct (Z.eqb_spec low 0);
        cbn [orb negb]; symmetry.
      * apply negb_true_iff, Z.eqb_neq. lia.
      * apply negb_true_iff, Z.eqb_neq. lia.
      * apply negb_false_iff, Z.eqb_eq. lia.
      * apply negb_true_iff, Z.eqb_neq. lia.
    + split; [apply Z.div_pos; lia|].
      rewrite Zodd_mod.
      destruct (Z.eqb_spec (q mod 2) 1); nia.
Qed.

(** Rounding the shifted mantissa to nearest even, on integers. *)
Lemma round_shifted m j mrs :
  shifted m j mrs ->
  let n := Z.of_nat j + 1 in
  let k := round_nearest_even (shr_m mrs) (loc_of_shr_record mrs) in
  (2 * m - 2 ^ n <= 2 * (k * 2 ^ n) <= 2 * m + 2 ^ n) /\
  ((2 * (k * 2 ^ n) = 2 * m + 2 ^ n \/ 2 * (k * 2 ^ n) = 2 * m - 2 ^ n) ->
   Z.even k = true) /\
  shr_m mrs <= k <= shr_m mrs + 1 /\
  (m = shr_m mrs * 2 ^ n -> k = shr_m mrs).
Proof.
  intros (low & Hlow & Hs & Hq & E) n k. subst n k.
  destruct mrs as [q r s]. cbn [shr_m shr_r shr_s] in *.
  assert (P0 : 0 < 2 ^ Z.of_nat j) by (apply Z.pow_pos_nonneg; lia).
  assert (P2 : 2 ^ (Z.of_nat j + 1) = 2 * 2 ^ Z.of_nat j).
  { rewrite Z.pow_add_r by lia. change (2 ^ 1) with 2. lia. }
  rewrite P2 in *. set (h := 2 ^ Z.of_nat j) in *.
  destruct r, s; cbn [loc_of_shr_record round_nearest_even];
    symmetry in Hs.
  - apply negb_true_iff, Z.eqb_neq in Hs. repeat split; try nia.
  - apply negb_false_iff, Z.eqb_eq in Hs. subst low.
    destruct (Z.even q) eqn:Ev.
    + repeat split; try nia. intros _. exact Ev.
    + repeat split; try nia. intros _.
      rewrite Z.even_add, Ev. reflexivity.
  - apply negb_true_iff, Z.eqb_neq in Hs. repeat split; try nia.
  - apply negb_false_iff, Z.eqb_eq in Hs. subst low.
    repeat split; try nia.
Qed.


(** *** Values of floats *)

Definition B2R (x : spec_float) : R :=
  match x with
  | S754_finite s m e => F2R (if s then Z.neg m else Z.pos m) e
  | _ => 0%R
  end.

(** Non-negative numbers of the format: a zero, or a positive finite number
    with a canonical mantissa. *)
Definition NN (x : spec_float) : Prop :=
  match x with
  | S754_zero _ => True
  | S754_finite false m e => bounded prec emax m e = true
  | _ => False
  end.

Lemma fexp_eq z : fexp prec emax z = Z.max (z - 24) (-149).
Proof. reflexivity. Qed.

Lemma digits_unique (m : positive) (d : Z) :
  2 ^ (d - 1) <= Z.pos m < 2 ^ d -> Z.pos (digits2_pos m) = d.
Proof.
  intros [H1 H2]. destruct (digits_bounds m) as [B1 B2].
  set (d' := Z.pos (digits2_pos m)) in *.
  assert (0 < d).
  { destruct d as [|p|p]; [cbn in H2; lia|lia|].
    rewrite (Z.pow_neg_r 2 (Z.neg p)) in H2 by lia. lia. }
  destruct (Z.lt_trichotomy d' d) as [H'|[H'|H']]; [|exact H'|].
  - assert (2 ^ d' <= 2 ^ (d - 1)) by (apply Z.pow_le_mono_r; lia). lia.
  - assert (2 ^ d <= 2 ^ (d' - 1)) by (apply Z.pow_le_mono_r; lia). lia.
Qed.


Lemma shift_pos_value (m p : positive) :
  Z.pos (Pos.iter xO m p) = Z.pos m * 2 ^ Z.pos p.
Proof.
  change (Pos.iter xO m p) with (shift_pos p m).
  rewrite shift_pos_correct, Z.pow_pos_fold. lia.
Qed.


(** The second half of [binary_round_aux]: the rounded mantissa is brought
    back into the format. *)
Definition finish (k fe : Z) : spec_float :=
  let '(mrs, e) := shr_fexp prec emax k fe loc_Exact in
  match shr_m mrs with
  | Z0 => S754_zero false
  | Z.pos m =>
      if e <=? emax - prec then S754_finite false m e
      else S754_infinity false
  | _ => S754_nan
  end.

Lemma binary_round_aux_finish m e :
  binary_round_aux prec emax false m e loc_Exact
  = let '(mrs', e') := shr_fexp prec emax m e loc_Exact in
    finish (round_nearest_even (shr_m mrs') (loc_of_shr_record mrs')) e'.
Proof.
  unfold binary_round_aux, finish.
  destruct (shr_fexp prec emax m e loc_Exact) as [mrs' e']. reflexivity.
Qed.

Lemma finish_spec k fe :
  0 <= k <= 2 ^ 24 -> -149 <= fe <= 100 -> (2 ^ 23 <= k \/ fe = -149) ->
  NN (finish k fe) /\ B2R (finish k fe) = (IZR k * bpow fe)%R.
Proof.
  intros Hk Hfe Hn. unfold finish, shr_fexp.
  destruct k as [|kp|kp]; [| |lia].
  - cbn [Zdigits2]. rewrite Z.add_0_l, fexp_eq.
    replace (Z.max (fe - 24) (-149) - fe) with (- (fe - Z.max (fe - 24) (-149)))
      by lia.
    destruct (fe - Z.max (fe - 24) (-149)) eqn:E; try lia;
      cbn [Z.opp shr shr_record_of_loc shr_m NN B2R];
      (split; [exact I|rewrite Rmult_0_l; reflexivity]).
  - cbn [Zdigits2 shr_record_of_loc].
    destruct (Z.eq_dec (Z.pos kp) (2 ^ 24)) as [E|E].
    + assert (Ekp : kp = 16777216%positive) by lia. subst kp. clear E.
      change (Z.pos (digits2_pos 16777216)) with 25. rewrite fexp_eq.
      replace (Z.max (25 + fe - 24) (-149) - fe) with 1 by lia.
      cbn [shr SpecFloat.iter_pos shr_1 shr_m].
      replace (fe + 1 <=? emax - prec) with true
        by (symmetry; apply Z.leb_le; unfold emax, prec; lia).
      split.
      * cbn [NN]. unfold bounded, canonical_mantissa.
        change (Z.pos (digits2_pos 8388608)) with 24. rewrite fexp_eq.
        apply andb_true_iff. split; [apply Z.eqb_eq; lia|].
        apply Z.leb_le. unfold emax, prec. lia.
      * cbn [B2R]. unfold F2R. rewrite bpow_add.
        assert (B1 : bpow 1 = 2%R) by (unfold bpow; simpl; Lra.lra).
        rewrite B1. Lra.lra.
    + pose proof (digits_bounds kp) as B. cbv zeta in B.
      set (dk := Z.pos (digits2_pos kp)) in *.
      assert (Hdk : dk <= 24).
      { destruct (Z_le_gt_dec dk 24); [assumption|exfalso].
        assert (2 ^ 24 <= 2 ^ (dk - 1)) by (apply Z.pow_le_mono_r; lia). lia. }
      assert (Hdk' : dk = 24 \/ fe = -149).
      { destruct Hn as [Hn|Hn]; [left|right; exact Hn].
        destruct (Z.eq_dec dk 24); [assumption|exfalso].
        assert (2 ^ dk <= 2 ^ 23) by (apply Z.pow_le_mono_r; lia). lia. }
      assert (Ef : fexp prec emax (dk + fe) = fe) by (rewrite fexp_eq; lia).
      rewrite Ef, Z.sub_diag. cbn [shr shr_m].
      replace (fe <=? emax - prec) with true
        by (symmetry; apply Z.leb_le; unfold emax, prec; lia).
      split; [|reflexivity].
      cbn [NN]. unfold bounded, canonical_mantissa. fold dk. rewrite Ef.
      apply andb_true_iff. split; [apply Z.eqb_refl|].
      apply Z.leb_le. unfold emax, prec. lia.
Qed.


Lemma nearest_even_refl k P : (0 < P)%R -> nearest_even (IZR k * P) P k.
Proof. intros HP. split; [Lra.lra|]. intros [H|H]; Lra.lra. Qed.

(** A mantissa that already sits on its grid is left alone. *)
Lemma binary_round_aux_on_grid (mz : positive) (fe : Z) :
  fexp prec emax (Z.pos (digits2_pos mz) + fe) = fe ->
  Z.pos (digits2_pos mz) + fe <= 100 ->
  NN (binary_round_aux prec emax false (Z.pos mz) fe loc_Exact) /\
  B2R (binary_round_aux prec emax false (Z.pos mz) fe loc_Exact)
  = F2R (Z.pos mz) fe.
Proof.
  intros Ef Hmag. rewrite binary_round_aux_finish. unfold shr_fexp.
  cbn [Zdigits2]. rewrite Ef, Z.sub_diag.
  cbn [shr shr_record_of_loc shr_m loc_of_shr_record round_nearest_even].
  pose proof (digits_bounds mz) as B. cbv zeta in B.
  set (dz := Z.pos (digits2_pos mz)) in *. rewrite fexp_eq in Ef.
  apply finish_spec.
  - split; [lia|].
    assert (2 ^ dz <= 2 ^ 24) by (apply Z.pow_le_mono_r; lia). lia.
  - lia.
  - destruct (Z.eq_dec fe (-149)) as [E|E]; [right; exact E|left].
    assert (2 ^ 23 <= 2 ^ (dz - 1)) by (apply Z.pow_le_mono_r; lia). lia.
Qed.

(** [binary_round] on a positive mantissa: the result is a non-negative
    number of the format whose value is the multiple of the grid step
    nearest to the input, ties to even.  The grid step is set by the
    magnitude of the input. *)
Lemma binary_round_spec (m : positive) (e : Z) :
  let fe := fexp prec emax (Z.pos (digits2_pos m) + e) in
  Z.pos (digits2_pos m) + e <= 100 ->
  exists k,
    0 <= k /\
    nearest_even (F2R (Z.pos m) e) (bpow fe) k /\
    NN (binary_round prec emax false m e) /\
    B2R (binary_round prec emax false m e) = (IZR k * bpow fe)%R.
Proof.
  intros fe Hmag. unfold binary_round. fold fe.
  pose proof (digits_bounds m) as B. cbv zeta in B.
  set (d := Z.pos (digits2_pos m)) in *.
  assert (Hfe : fe = Z.max (d + e - 24) (-149)) by reflexivity.
  pose proof (bpow_gt_0 fe) as HP.
  destruct (Z_lt_le_dec e fe) as [Hlt|Hge].
  - (* bits are shifted out *)
    unfold shl_align. destruct (fe - e) as [|p|p] eqn:En; try lia.
    rewrite binary_round_aux_finish. unfold shr_fexp.
    cbn [Zdigits2]. fold d fe. rewrite En.
    cbn [shr shr_record_of_loc]. rewrite iter_pos_nat.
    destruct (Pos.to_nat p) as [|j] eqn:Ej; [lia|].
    pose proof (shr_iter (Z.pos m) j ltac:(lia)) as Hs.
    set (mrs := Nat.iter (S j) shr_1 _) in *.
    destruct (round_shifted _ _ _ Hs) as (Hr & Hev & Hq & _).
    set (k := round_nearest_even (shr_m mrs) (loc_of_shr_record mrs)) in *.
    assert (Hn : Z.of_nat j + 1 = Z.pos p) by lia.
    rewrite Hn in Hr, Hev.
    assert (N0 : 0 < 2 ^ Z.pos p) by (apply Z.pow_pos_nonneg; lia).
    assert (Hk0 : 0 <= k).
    { destruct Hs as (low & _ & _ & Hq0 & _). lia. }
    assert (Hd : 2 ^ d <= 2 ^ 24 * 2 ^ Z.pos p).
    { rewrite <- Z.pow_add_r by lia. apply Z.pow_le_mono_r; lia. }
    assert (Hk24 : k <= 2 ^ 24) by nia.
    assert (Hk23 : 2 ^ 23 <= k \/ fe = -149).
    { destruct (Z.eq_dec fe (-149)) as [E|E]; [right; exact E|left].
      assert (Hd' : 2 ^ (d - 1) = 2 ^ 23 * 2 ^ Z.pos p).
      { rewrite <- Z.pow_add_r by lia. f_equal. lia. }
      nia. }
    replace (e + Z.pos p) with fe by lia.
    destruct (finish_spec k fe ltac:(lia) ltac:(lia) Hk23) as [Hnn Hv].
    exists k. split; [exact Hk0|]. split; [|split; assumption].
    assert (EP : bpow fe = (bpow e * IZR (2 ^ Z.pos p))%R).
    { replace fe with (e + Z.pos p) by lia.
      rewrite bpow_add, (bpow_IZR (Z.pos p)) by lia. reflexivity. }
    unfold F2R. rewrite EP. pose proof (bpow_gt_0 e) as He.
    destruct Hr as [Hr1 Hr2].
    assert (Hr1' : 2 * Z.pos m <= 2 * (k * 2 ^ Z.pos p) + 2 ^ Z.pos p) by lia.
    clear Hr1. rename Hr1' into Hr1.
    apply IZR_le in Hr1, Hr2.
    rewrite plus_IZR, !mult_IZR in Hr1, Hr2.
    split.
    + clear - Hr1 Hr2 He.
      generalize dependent (IZR (2 ^ Z.pos p)).
      generalize dependent (IZR k). generalize dependent (IZR (Z.pos m)).
      generalize dependent (bpow e). intros b Hb M K N H1 H2.
      assert (A1 : (0 <= b * (2 * (K * N) - (2 * M - N)))%R)
        by (apply Rmult_le_pos; Lra.lra).
      assert (A2 : (0 <= b * (2 * M + N - 2 * (K * N)))%R)
        by (apply Rmult_le_pos; Lra.lra).
      split; Lra.lra.
    + intros Ht. apply Hev.
      destruct Ht as [Ht|Ht]; [left|right]; apply eq_IZR;
        rewrite ?minus_IZR, ?plus_IZR, ?mult_IZR;
        clear - Ht He;
        generalize dependent (IZR (2 ^ Z.pos p));
        generalize dependent (IZR k); generalize dependent (IZR (Z.pos m));
        generalize dependent (bpow e); intros b Hb M K N Ht;
        apply (Rmult_eq_reg_l b); Lra.lra.
  - (* the mantissa is aligned to the grid, exactly *)
    assert (exists mz : positive,
              shl_align m e fe = (mz, fe) /\
              Z.pos mz = Z.pos m * 2 ^ (e - fe)) as (mz & -> & Emz).
    { unfold shl_align. destruct (fe - e) as [|p|p] eqn:En; try lia.
      - exists m. assert (Ee : e = fe) by lia. rewrite <- Ee.
        rewrite Z.sub_diag. split; [reflexivity|]. lia.
      - exists (Pos.iter xO m p). split; [reflexivity|].
        rewrite shift_pos_value. f_equal. f_equal. lia. }
    assert (P0 : 0 < 2 ^ (e - fe)) by (apply Z.pow_pos_nonneg; lia).
    assert (Dz : Z.pos (digits2_pos mz) = d + (e - fe)).
    { apply digits_unique. rewrite Emz.
      replace (d + (e - fe) - 1) with ((d - 1) + (e - fe)) by lia.
      rewrite !Z.pow_add_r by lia. nia. }
    destruct (binary_round_aux_on_grid mz fe) as [Hnn Hv].
    { rewrite Dz. replace (d + (e - fe) + fe) with (d + e) by lia.
      reflexivity. }
    { rewrite Dz. lia. }
    exists (Z.pos mz). split; [lia|].
    assert (Ex : F2R (Z.pos m) e = (IZR (Z.pos mz) * bpow fe)%R).
    { rewrite Emz. fold (F2R (Z.pos m * 2 ^ (e - fe)) fe).
      rewrite F2R_shift by lia. f_equal. lia. }
    split; [rewrite Ex; apply nearest_even_refl, HP|].
    split; [exact Hnn|exact Hv].
Qed.


(** Rounding is monotone. *)
Lemma binary_round_le (m1 m2 : positive) (e1 e2 : Z) :
  Z.pos (digits2_pos m1) + e1 <= 100 ->
  Z.pos (digits2_pos m2) + e2 <= 100 ->
  (F2R (Z.pos m1) e1 <= F2R (Z.pos m2) e2)%R ->
  (B2R (binary_round prec emax false m1 e1)
   <= B2R (binary_round prec emax false m2 e2))%R.
Proof.
  intros H1 H2 Hx.
  destruct (binary_round_spec m1 e1 H1) as (k1 & K1 & N1 & _ & ->).
  destruct (binary_round_spec m2 e2 H2) as (k2 & K2 & N2 & _ & ->).
  pose proof (F2R_bounds m1 e1) as B1. pose proof (F2R_bounds m2 e2) as B2.
  cbv zeta in B1, B2. rewrite !fexp_eq in *.
  set (g1 := Z.pos (digits2_pos m1) + e1) in *.
  set (g2 := Z.pos (digits2_pos m2) + e2) in *.
  assert (Hg : g1 <= g2).
  { destruct (Z_le_gt_dec g1 g2); [assumption|exfalso].
    pose proof (bpow_le g2 (g1 - 1) ltac:(lia)). Lra.lra. }
  set (f1 := Z.max (g1 - 24) (-149)) in *.
  set (f2 := Z.max (g2 - 24) (-149)) in *.
  pose proof (bpow_gt_0 f1) as P1. pose proof (bpow_gt_0 f2) as P2.
  destruct (Z.eq_dec f1 f2) as [E|E].
  - rewrite <- E in *.
    pose proof (nearest_even_mono _ _ _ _ _ P1 Hx N1 N2) as Hk.
    apply IZR_le in Hk. apply Rmult_le_compat_r; Lra.lra.
  - assert (Hf : f1 < f2) by lia.
    assert (Hf2 : f2 = g2 - 24) by lia.
    assert (A2 : 2 ^ 23 <= k2).
    { apply (nearest_even_ge (F2R (Z.pos m2) e2) (bpow f2) k2 (2 ^ 23) P2);
        [|exact N2].
      rewrite <- bpow_IZR, <- bpow_add by lia.
      replace (23 + f2) with (g2 - 1) by lia. Lra.lra. }
    assert (G0 : 0 <= g2 - 1 - f1) by lia.
    assert (A1 : k1 <= 2 ^ (g2 - 1 - f1)).
    { apply (nearest_even_le (F2R (Z.pos m1) e1) (bpow f1) k1
               (2 ^ (g2 - 1 - f1)) P1); [|exact N1].
      rewrite <- bpow_IZR, <- bpow_add by lia.
      replace (g2 - 1 - f1 + f1) with (g2 - 1) by lia.
      pose proof (bpow_le g1 (g2 - 1) ltac:(lia)). Lra.lra. }
    apply IZR_le in A1, A2.
    rewrite <- bpow_IZR in A1, A2 by lia.
    assert (T1 : (IZR k1 * bpow f1 <= bpow (g2 - 1))%R).
    { replace (g2 - 1) with (g2 - 1 - f1 + f1) at 1 by lia.
      rewrite bpow_add. Lra.nra. }
    assert (T2 : (bpow (g2 - 1) <= IZR k2 * bpow f2)%R).
    { replace (g2 - 1) with (23 + f2) at 1 by lia.
      rewrite bpow_add. Lra.nra. }
    Lra.lra.
Qed.

(** A value on the grid of its magnitude is not changed. *)
Lemma binary_round_exact (m : positive) (e G : Z) :
  Z.pos (digits2_pos m) + e <= 100 ->
  F2R (Z.pos m) e
  = (IZR G * bpow (fexp prec emax (Z.pos (digits2_pos m) + e)))%R ->
  B2R (binary_round prec emax false m e) = F2R (Z.pos m) e.
Proof.
  intros H HG.
  destruct (binary_round_spec m e H) as (k & K & N & _ & ->).
  rewrite (nearest_even_exact _ _ _ G (bpow_gt_0 _) HG N). auto.
Qed.


(** *** Order on the non-negative numbers of the format *)

Lemma F2R_pos (m : positive) e : (0 < F2R (Z.pos m) e)%R.
Proof.
  unfold F2R. apply Rmult_lt_0_compat; [apply IZR_lt; lia|apply bpow_gt_0].
Qed.

Lemma NN_nonneg x : NN x -> (0 <= B2R x)%R.
Proof.
  destruct x as [s|s| |[|] m e]; cbn; try tauto; try Lra.lra.
  intros _. pose proof (F2R_pos m e). Lra.lra.
Qed.

Lemma bounded_canonical m e :
  bounded prec emax m e = true ->
  e = Z.max (Z.pos (digits2_pos m) + e - 24) (-149) /\ e <= 104.
Proof.
  unfold bounded, canonical_mantissa. rewrite fexp_eq.
  intros H. apply andb_true_iff in H as [H1 H2].
  apply Z.eqb_eq in H1. apply Z.leb_le in H2. unfold emax, prec in H2. lia.
Qed.

Lemma canonical_lt m1 e1 m2 e2 :
  bounded prec emax m1 e1 = true -> bounded prec emax m2 e2 = true ->
  e1 < e2 -> (F2R (Z.pos m1) e1 < F2R (Z.pos m2) e2)%R.
Proof.
  intros H1 H2 He.
  apply bounded_canonical in H1 as [C1 _], H2 as [C2 _].
  pose proof (F2R_bounds m1 e1) as B1. pose proof (F2R_bounds m2 e2) as B2.
  cbv zeta in B1, B2.
  set (g1 := Z.pos (digits2_pos m1) + e1) in *.
  set (g2 := Z.pos (digits2_pos m2) + e2) in *.
  pose proof (bpow_le g1 (g2 - 1) ltac:(lia)). Lra.lra.
Qed.

Lemma SFcompare_NN x y :
  NN x -> NN y ->
  match SFcompare x y with
  | Some Lt => (B2R x < B2R y)%R
  | Some Eq => B2R x = B2R y
  | Some Gt => (B2R y < B2R x)%R
  | None => False
  end.
Proof.
  destruct x as [sx|sx| |[|] mx ex], y as [sy|sy| |[|] my ey];
    cbn [NN]; try tauto; intros Hx Hy; cbn [SFcompare B2R].
  - reflexivity.
  - apply F2R_pos.
  - apply F2R_pos.
  - destruct (Z.compare_spec ex ey) as [E|E|E].
    + subst ey. change (Pos.compare_cont Eq mx my) with (Pos.compare mx my).
      destruct (Pos.compare_spec mx my) as [Em|Em|Em].
      * subst. reflexivity.
      * unfold F2R. pose proof (bpow_gt_0 ex).
        apply Pos2Z.pos_lt_pos, IZR_lt in Em. Lra.nra.
      * unfold F2R. pose proof (bpow_gt_0 ex).
        apply Pos2Z.pos_lt_pos, IZR_lt in Em. Lra.nra.
    + apply canonical_lt; assumption.
    + apply canonical_lt; assumption.
Qed.

Lemma SFleb_NN x y :
  NN x -> NN y -> (SFleb x y = true <-> (B2R x <= B2R y)%R).
Proof.
  intros Hx Hy. pose proof (SFcompare_NN x y Hx Hy) as H. unfold SFleb.
  destruct (SFcompare x y) as [[| |]|]; try tauto;
    split; intros; try reflexivity; try discriminate; Lra.lra.
Qed.

Lemma SFltb_NN x y :
  NN x -> NN y -> (SFltb x y = true <-> (B2R x < B2R y)%R).
Proof.
  intros Hx Hy. pose proof (SFcompare_NN x y Hx Hy) as H. unfold SFltb.
  destruct (SFcompare x y) as [[| |]|]; try tauto;
    split; intros; try reflexivity; try discriminate; Lra.lra.
Qed.

Lemma SFeqb_NN x y :
  NN x -> NN y -> (SFeqb x y = true <-> B2R x = B2R y).
Proof.
  intros Hx Hy. pose proof (SFcompare_NN x y Hx Hy) as H. unfold SFeqb.
  destruct (SFcompare x y) as [[| |]|]; try tauto;
    split; intros; try reflexivity; try discriminate; Lra.lra.
Qed.


(** *** The operations on the unit interval *)

Definition Unit (x : spec_float) : Prop := NN x /\ (B2R x <= 1)%R.

Lemma bpow_0 : bpow 0 = 1%R.
Proof. reflexivity. Qed.

Lemma B2R_one : B2R one = 1%R.
Proof.
  change (B2R one) with (IZR (2 ^ 23) * bpow (-23))%R.
  rewrite <- (bpow_IZR 23), <- bpow_add by lia. reflexivity.
Qed.

Lemma NN_one : NN one.
Proof. reflexivity. Qed.

Lemma mag_le (m : positive) e b :
  (F2R (Z.pos m) e <= bpow b)%R -> Z.pos (digits2_pos m) + e <= b + 1.
Proof.
  intros H. pose proof (F2R_bounds m e) as B. cbv zeta in B.
  set (g := Z.pos (digits2_pos m) + e) in *.
  destruct (Z_le_gt_dec g (b + 1)); [assumption|exfalso].
  pose proof (bpow_lt b (g - 1) ltac:(lia)). Lra.lra.
Qed.

Lemma mag_lt (m : positive) e b :
  (F2R (Z.pos m) e < bpow b)%R -> Z.pos (digits2_pos m) + e <= b.
Proof.
  intros H. pose proof (F2R_bounds m e) as B. cbv zeta in B.
  set (g := Z.pos (digits2_pos m) + e) in *.
  destruct (Z_le_gt_dec g b); [assumption|exfalso].
  pose proof (bpow_le b (g - 1) ltac:(lia)). Lra.lra.
Qed.

(** A number of the format is the rounding of itself. *)
Lemma binary_round_canonical m e :
  bounded prec emax m e = true ->
  Z.pos (digits2_pos m) + e <= 100 ->
  B2R (binary_round prec emax false m e) = F2R (Z.pos m) e.
Proof.
  intros H Hg. apply bounded_canonical in H as [C L].
  apply (binary_round_exact m e (Z.pos m)); [lia|].
  rewrite fexp_eq, <- C. reflexivity.
Qed.

(** Every multiple of 2^-24 up to 1 is a number of the format. *)
Lemma binary_round_grid24 (p : positive) (e G : Z) :
  F2R (Z.pos p) e = (IZR G * bpow (-24))%R -> G <= 2 ^ 24 ->
  B2R (binary_round prec emax false p e) = F2R (Z.pos p) e.
Proof.
  intros HG HG24.
  assert (Hx1 : (F2R (Z.pos p) e <= 1)%R).
  { rewrite HG. apply IZR_le in HG24. rewrite <- bpow_IZR in HG24 by lia.
    replace 1%R with (bpow 24 * bpow (-24))%R
      by (rewrite <- bpow_add; reflexivity).
    pose proof (bpow_gt_0 (-24)). Lra.nra. }
  pose proof (mag_le p e 0 Hx1) as Hg.
  destruct (Z.eq_dec G (2 ^ 24)) as [E|E].
  - (* the value 1 *)
    assert (Hv : F2R (Z.pos p) e = 1%R).
    { rewrite HG, E, <- bpow_IZR, <- bpow_add by lia. reflexivity. }
    assert (Hg1 : Z.pos (digits2_pos p) + e = 1).
    { pose proof (F2R_bounds p e) as B. cbv zeta in B.
      destruct (Z.eq_dec (Z.pos (digits2_pos p) + e) 1); [assumption|].
      pose proof (bpow_le (Z.pos (digits2_pos p) + e) 0 ltac:(lia)).
      rewrite bpow_0 in *. Lra.lra. }
    apply (binary_round_exact p e (2 ^ 23)); [lia|].
    rewrite fexp_eq, Hg1, Hv, <- bpow_IZR, <- bpow_add by lia. reflexivity.
  - assert (HG' : G <= 2 ^ 24 - 1) by lia.
    assert (Hlt : (F2R (Z.pos p) e < bpow 0)%R).
    { rewrite HG. apply IZR_le in HG'. rewrite minus_IZR in HG'.
      rewrite <- bpow_IZR in HG' by lia.
      replace (bpow 0) with (bpow 24 * bpow (-24))%R
        by (rewrite <- bpow_add; reflexivity).
      pose proof (bpow_gt_0 (-24)). Lra.nra. }
    pose proof (mag_lt p e 0 Hlt) as Hg0.
    set (fe := fexp prec emax (Z.pos (digits2_pos p) + e)).
    assert (Hfe : fe <= -24) by (subst fe; rewrite fexp_eq; lia).
    apply (binary_round_exact p e (G * 2 ^ (-24 - fe))); [lia|].
    fold fe. rewrite HG, mult_IZR, <- bpow_IZR by lia.
    rewrite Rmult_assoc, <- bpow_add. do 2 f_equal. lia.
Qed.

Lemma shl_align_fst (m : positive) (e e' : Z) :
  e' <= e -> Z.pos (fst (shl_align m e e')) = Z.pos m * 2 ^ (e - e').
Proof.
  intros H. unfold shl_align.
  destruct (e' - e) as [|p|p] eqn:E; try lia; cbn [fst].
  - replace (e - e') with 0 by lia. lia.
  - rewrite shift_pos_value. do 2 f_equal. lia.
Qed.

Lemma F2R_align (m : positive) (e e' : Z) :
  e' <= e -> F2R (Z.pos (fst (shl_align m e e'))) e' = F2R (Z.pos m) e.
Proof.
  intros H. rewrite shl_align_fst by exact H.
  rewrite F2R_shift by lia. f_equal. lia.
Qed.


(** Multiplication of two positive numbers of the format rounds the exact
    product. *)
Lemma SFmul_round mx ex my ey :
  bounded prec emax mx ex = true -> bounded prec emax my ey = true ->
  SFmul prec emax (S754_finite false mx ex) (S754_finite false my ey)
  = binary_round prec emax false (mx * my) (ex + ey).
Proof.
  intros Hx Hy. cbn [SFmul xorb]. unfold binary_round.
  apply bounded_canonical in Hx as [Cx _], Hy as [Cy _].
  pose proof (digits_bounds mx) as Bx. pose proof (digits_bounds my) as By.
  pose proof (digits_bounds (mx * my)) as Bp. cbv zeta in Bx, By, Bp.
  set (dx := Z.pos (digits2_pos mx)) in *.
  set (dy := Z.pos (digits2_pos my)) in *.
  set (dp := Z.pos (digits2_pos (mx * my))) in *.
  assert (Hd : dx + dy - 1 <= dp).
  { destruct (Z_le_gt_dec (dx + dy - 1) dp); [assumption|exfalso].
    assert (2 ^ dp <= 2 ^ (dx - 1 + (dy - 1)))
      by (apply Z.pow_le_mono_r; lia).
    rewrite Z.pow_add_r in H by lia. rewrite Pos2Z.inj_mul in Bp. nia. }
  unfold shl_align. rewrite fexp_eq.
  destruct (Z.max (dp + (ex + ey) - 24) (-149) - (ex + ey)) eqn:E;
    try reflexivity.
  exfalso. lia.
Qed.

Lemma F2R_mul m1 e1 m2 e2 :
  F2R (m1 * m2) (e1 + e2) = (F2R m1 e1 * F2R m2 e2)%R.
Proof. unfold F2R. rewrite mult_IZR, bpow_add. ring. Qed.

Lemma SFmul_unit s r :
  Unit s -> Unit r ->
  Unit (SFmul prec emax s r) /\
  (B2R (SFmul prec emax s r) <= B2R r)%R.
Proof.
  intros [Ns Hs] [Nr Hr].
  destruct s as [ss|ss| |[|] ms es], r as [sr|sr| |[|] mr er];
    cbn [NN] in Ns, Nr; try tauto.
  - unfold Unit. cbn. repeat split; Lra.lra.
  - unfold Unit. cbn [SFmul B2R NN]. pose proof (F2R_pos mr er).
    repeat split; Lra.lra.
  - unfold Unit. cbn [SFmul B2R NN]. repeat split; Lra.lra.
  - rewrite SFmul_round by assumption. cbn [B2R] in *.
    pose proof (F2R_pos ms es) as Ps. pose proof (F2R_pos mr er) as Pr.
    assert (Hp : (F2R (Z.pos (ms * mr)) (es + er) <= F2R (Z.pos mr) er)%R).
    { rewrite Pos2Z.inj_mul, F2R_mul. Lra.nra. }
    assert (Gr : Z.pos (digits2_pos mr) + er <= 100).
    { rewrite <- bpow_0 in Hr. pose proof (mag_le mr er 0 Hr). lia. }
    assert (Gp : Z.pos (digits2_pos (ms * mr)) + (es + er) <= 100).
    { assert (H1 : (F2R (Z.pos (ms * mr)) (es + er) <= bpow 0)%R)
        by (rewrite bpow_0; Lra.lra).
      pose proof (mag_le _ _ 0 H1). lia. }
    pose proof (binary_round_le _ _ _ _ Gp Gr Hp) as Hle.
    rewrite (binary_round_canonical mr er Nr Gr) in Hle.
    destruct (binary_round_spec (ms * mr) (es + er) Gp) as (k & _ & _ & Hnn & _).
    repeat split; try assumption; Lra.lra.
Qed.

Lemma F2R_le_1 (p : positive) (e : Z) :
  (F2R (Z.pos p) e <= 1)%R -> e <= 0 -> Z.pos p <= 2 ^ (- e).
Proof.
  intros H He. apply le_IZR. rewrite <- bpow_IZR by lia.
  unfold F2R in H. pose proof (bpow_gt_0 (- e)) as P.
  replace (IZR (Z.pos p)) with (IZR (Z.pos p) * bpow e * bpow (- e))%R.
  - replace (bpow (- e)) with (1 * bpow (- e))%R at 2 by ring.
    apply Rmult_le_compat_r; Lra.lra.
  - rewrite Rmult_assoc, <- bpow_add. replace (e + - e) with 0 by lia.
    rewrite bpow_0. ring.
Qed.

Lemma F2R_le (m1 m2 e : Z) : m1 <= m2 -> (F2R m1 e <= F2R m2 e)%R.
Proof.
  intros H. unfold F2R. apply Rmult_le_compat_r.
  - pose proof (bpow_gt_0 e). Lra.lra.
  - apply IZR_le, H.
Qed.

Lemma F2R_minus (m1 m2 e : Z) : F2R (m1 - m2) e = (F2R m1 e - F2R m2 e)%R.
Proof. unfold F2R. rewrite minus_IZR. ring. Qed.

(** [1 - d] for [d] in the unit interval. *)
Lemma SFsub_one_unit d :
  Unit d ->
  Unit (SFsub prec emax one d) /\
  (B2R d + B2R (SFsub prec emax one d)
   <= 1 + bpow (-24) - bpow (-149))%R.
Proof.
  intros [Nd Hd].
  assert (Hb : (1 <= 1 + bpow (-24) - bpow (-149))%R).
  { pose proof (bpow_le (-149) (-24) ltac:(lia)). Lra.lra. }
  destruct d as [s|s| |[|] md ed]; cbn [NN] in Nd; try tauto.
  - change (SFsub prec emax one (S754_zero s)) with one.
    split; [split; [exact NN_one|rewrite B2R_one; Lra.lra]|].
    rewrite B2R_one. cbn [B2R]. Lra.lra.
  - cbn [B2R] in *.
    pose proof (bounded_canonical _ _ Nd) as [Cd _].
    assert (Hed : -149 <= ed) by lia.
    change (SFsub prec emax one (S754_finite false md ed))
      with (binary_normalize prec emax
              (Z.pos (fst (shl_align 8388608 (-23) (Z.min (-23) ed)))
               - Z.pos (fst (shl_align md ed (Z.min (-23) ed))))
              (Z.min (-23) ed) false).
    set (ez := Z.min (-23) ed).
    assert (Hez : -149 <= ez <= -23) by (subst ez; lia).
    pose proof (F2R_align 8388608 (-23) ez ltac:(lia)) as A1.
    pose proof (F2R_align md ed ez ltac:(lia)) as A2.
    set (a := Z.pos (fst (shl_align 8388608 (-23) ez))) in *.
    set (b := Z.pos (fst (shl_align md ed ez))) in *.
    change (F2R 8388608 (-23)) with (B2R one) in A1. rewrite B2R_one in A1.
    assert (Hv : F2R (a - b) ez = (1 - F2R (Z.pos md) ed)%R).
    { unfold F2R in *. rewrite minus_IZR. Lra.lra. }
    pose proof (bpow_gt_0 ez) as Pz.
    assert (Hab : 0 <= a - b).
    { apply le_IZR.
      assert (H0 : (0 <= F2R (a - b) ez)%R) by (rewrite Hv; Lra.lra).
      unfold F2R in H0.
      destruct (Rle_lt_dec 0 (IZR (a - b))); [assumption|exfalso; Lra.nra]. }
    destruct (a - b) as [|p|p] eqn:Ep; [| |lia].
    + cbn [binary_normalize]. unfold F2R in Hv at 1.
      rewrite Rmult_0_l in Hv.
      split; [split; [exact I|cbn; Lra.lra]|]. cbn [B2R]. Lra.lra.
    + cbn [binary_normalize].
      pose proof (F2R_pos p ez) as Pp.
      assert (Hx1 : (F2R (Z.pos p) ez <= bpow 0)%R).
      { rewrite bpow_0, Hv. pose proof (F2R_pos md ed). Lra.lra. }
      pose proof (mag_le p ez 0 Hx1) as Gp.
      destruct (binary_round_spec p ez ltac:(lia)) as (k & _ & _ & Hnn & _).
      assert (Hone : B2R (binary_round prec emax false 8388608 (-23)) = 1%R)
        by exact B2R_one.
      assert (Hle1 : (B2R (binary_round prec emax false p ez) <= 1)%R).
      { rewrite <- Hone. apply binary_round_le; [lia|cbn; lia|].
        change (F2R 8388608 (-23)) with (B2R one).
        rewrite B2R_one, <- bpow_0. exact Hx1. }
      split; [split; assumption|].
      (* the rounding error *)
      set (N := 2 ^ (-24 - ez)).
      destruct (Z_le_gt_dec (-24) ez) as [Hz|Hz].
      * rewrite (binary_round_grid24 p ez (Z.pos p * 2 ^ (ez + 24))).
        -- rewrite Hv. Lra.lra.
        -- fold (F2R (Z.pos p * 2 ^ (ez + 24)) (-24)).
           rewrite F2R_shift by lia. f_equal. lia.
        -- rewrite bpow_0 in Hx1.
           pose proof (F2R_le_1 p ez Hx1 ltac:(lia)) as Hp.
           assert (P0 : 0 < 2 ^ (ez + 24)) by (apply Z.pow_pos_nonneg; lia).
           replace (2 ^ 24) with (2 ^ (- ez) * 2 ^ (ez + 24))
             by (rewrite <- Z.pow_add_r by lia; f_equal; lia).
           nia.
      * rewrite bpow_0 in Hx1.
        pose proof (F2R_le_1 p ez Hx1 ltac:(lia)) as Hp.
        assert (N0 : 0 < N) by (apply Z.pow_pos_nonneg; lia).
        assert (HN : 2 ^ (- ez) = 2 ^ 24 * N).
        { subst N. rewrite <- Z.pow_add_r by lia. f_equal. lia. }
        pose proof (Z.div_mod (Z.pos p) N ltac:(lia)) as Edm.
        pose proof (Z.mod_pos_bound (Z.pos p) N N0) as Bm.
        set (g0 := Z.pos p / N) in *. set (rho := Z.pos p mod N) in *.
        assert (Hg0 : 0 <= g0) by (apply Z.div_pos; lia).
        assert (EN : forall G, F2R (G * N) ez = F2R G (-24)).
        { intros G. subst N. rewrite F2R_shift by lia. f_equal. lia. }
        destruct (Z.eq_dec rho 0) as [E0|E0].
        -- rewrite (binary_round_grid24 p ez g0).
           ++ rewrite Hv. Lra.lra.
           ++ change (IZR g0 * bpow (-24))%R with (F2R g0 (-24)).
              rewrite <- (EN g0). f_equal. lia.
           ++ nia.
        -- assert (Hg1 : 0 < g0 + 1 <= 2 ^ 24) by nia.
           destruct (g0 + 1) as [|q|q] eqn:Eq; try lia.
           assert (Hq1 : (F2R (Z.pos q) (-24) <= 1)%R).
           { rewrite <- bpow_0.
             replace 0 with (24 + -24) by lia. rewrite bpow_add.
             rewrite (bpow_IZR 24) by lia.
             unfold F2R. apply Rmult_le_compat_r;
               [pose proof (bpow_gt_0 (-24)); Lra.lra|apply IZR_le; lia]. }
           assert (Gq : Z.pos (digits2_pos q) + -24 <= 100).
           { rewrite <- bpow_0 in Hq1. pose proof (mag_le q (-24) 0 Hq1). lia. }
           assert (Hpq : (F2R (Z.pos p) ez <= F2R (Z.pos q) (-24))%R).
           { rewrite <- (EN (Z.pos q)). apply F2R_le. nia. }
           pose proof (binary_round_le p q ez (-24) ltac:(lia) Gq Hpq) as Hle.
           rewrite (binary_round_grid24 q (-24) (Z.pos q)) in Hle;
             [|reflexivity|lia].
           assert (Hdiff : (F2R (Z.pos q) (-24) - F2R (Z.pos p) ez
                            <= bpow (-24) - bpow ez)%R).
           { rewrite <- (EN (Z.pos q)), <- F2R_minus.
             replace (bpow (-24) - bpow ez)%R with (F2R (N - 1) ez).
             - apply F2R_le. nia.
             - rewrite F2R_minus. replace N with (1 * N) at 1 by lia.
               rewrite EN. unfold F2R. Lra.lra. }
           pose proof (bpow_le (-149) ez ltac:(lia)). Lra.lra.
Qed.


(** The largest value below the midpoint of 1 and its successor that a sum
    of two numbers of the format can take. *)
Definition below_mid : positive := Z.to_pos (2 ^ 149 + 2 ^ 125 - 1).

Lemma below_mid_value :
  F2R (Z.pos below_mid) (-149) = (1 + bpow (-24) - bpow (-149))%R.
Proof.
  change (Z.pos below_mid) with (2 ^ 149 + 2 ^ 125 - 1).
  unfold F2R. rewrite minus_IZR, plus_IZR, <- !bpow_IZR by lia.
  rewrite Rmult_minus_distr_r, Rmult_plus_distr_r, <- !bpow_add.
  change (149 + -149) with 0. change (125 + -149) with (-24).
  rewrite bpow_0. ring.
Qed.

Lemma below_mid_rounds_to_one :
  binary_round prec emax false below_mid (-149) = one.
Proof. vm_compute. reflexivity. Qed.

Lemma SFadd_unit d y :
  Unit d -> Unit y ->
  (B2R d + B2R y <= 1 + bpow (-24) - bpow (-149))%R ->
  Unit (SFadd prec emax d y).
Proof.
  intros [Nd Hd] [Ny Hy] Hs.
  destruct d as [sd|sd| |[|] md ed], y as [sy|sy| |[|] my ey];
    cbn [NN] in Nd, Ny; try tauto.
  - destruct sd, sy; unfold Unit; cbn; split; auto; Lra.lra.
  - split; assumption.
  - split; assumption.
  - change (SFadd prec emax (S754_finite false md ed) (S754_finite false my ey))
      with (binary_round prec emax false
              (fst (shl_align md ed (Z.min ed ey))
               + fst (shl_align my ey (Z.min ed ey)))
              (Z.min ed ey)).
    set (ez := Z.min ed ey).
    pose proof (F2R_align md ed ez ltac:(lia)) as A1.
    pose proof (F2R_align my ey ez ltac:(lia)) as A2.
    set (a := fst (shl_align md ed ez)) in *.
    set (b := fst (shl_align my ey ez)) in *.
    cbn [B2R] in *.
    assert (Hv : F2R (Z.pos (a + b)) ez
                 = (F2R (Z.pos md) ed + F2R (Z.pos my) ey)%R).
    { rewrite Pos2Z.inj_add. unfold F2R in *. rewrite plus_IZR. Lra.lra. }
    assert (Hx2 : (F2R (Z.pos (a + b)) ez <= bpow 1)%R).
    { rewrite Hv. change (bpow 1) with (2 * 1)%R. Lra.lra. }
    pose proof (mag_le _ _ 1 Hx2) as Gs.
    destruct (binary_round_spec (a + b) ez ltac:(lia)) as (k & _ & _ & Hnn & _).
    split; [exact Hnn|].
    rewrite <- B2R_one, <- below_mid_rounds_to_one.
    apply binary_round_le; [lia|vm_compute; discriminate|].
    rewrite below_mid_value, Hv. exact Hs.
Qed.


(** Truncation does not exceed the value. *)
Lemma trunc_le (m : positive) (e : Z) (v : Z) :
  trunc (S754_finite false m e) = Some v ->
  0 <= v /\ (IZR v <= F2R (Z.pos m) e)%R.
Proof.
  cbn [trunc]. intros H. injection H as <-.
  destruct e as [|p|p].
  - rewrite Z.shiftl_0_r. split; [lia|]. unfold F2R. rewrite bpow_0. Lra.lra.
  - rewrite Z.shiftl_mul_pow2 by lia. split.
    + pose proof (Z.pow_pos_nonneg 2 (Z.pos p) ltac:(lia) ltac:(lia)). nia.
    + rewrite mult_IZR. unfold F2R. rewrite (bpow_IZR (Z.pos p)) by lia.
      Lra.lra.
  - rewrite Z.shiftr_div_pow2 by lia.
    assert (P0 : 0 < 2 ^ Z.pos p) by (apply Z.pow_pos_nonneg; lia).
    pose proof (Z.div_mod (Z.pos m) (2 ^ Z.pos p) ltac:(lia)) as E.
    pose proof (Z.mod_pos_bound (Z.pos m) (2 ^ Z.pos p) P0) as B.
    split; [apply Z.div_pos; lia|].
    assert (H : Z.pos m / 2 ^ Z.pos p * 2 ^ Z.pos p <= Z.pos m) by lia.
    apply IZR_le in H. rewrite mult_IZR, <- bpow_IZR in H by lia.
    unfold F2R. pose proof (bpow_gt_0 (Z.neg p)) as Pn.
    assert (Eb : (bpow (Z.pos p) * bpow (Z.neg p) = 1)%R).
    { rewrite <- bpow_add. replace (Z.pos p + Z.neg p) with 0 by lia.
      apply bpow_0. }
    generalize dependent (IZR (Z.pos m / 2 ^ Z.pos p)).
    generalize dependent (IZR (Z.pos m)).
    generalize dependent (bpow (Z.pos p)). generalize dependent (bpow (Z.neg p)).
    intros bn Hbn bp Ebp M K HK.
    replace K with (K * bp * bn)%R by (rewrite Rmult_assoc, Ebp; ring).
    apply Rmult_le_compat_r; Lra.lra.
Qed.

(** A binary32 number of the unit interval: a valid number, not below 0 and
    not above 1. *)
Definition in_unit (x : float) : bool :=
  valid_binary prec emax x && leb zero x && leb x one.

Lemma in_unit_Unit x : in_unit x = true <-> Unit x.
Proof.
  unfold in_unit, Unit, leb.
  destruct x as [s|s| |s m e].
  - cbn. split; [intros _; split; [exact I|Lra.lra]|reflexivity].
  - destruct s; cbn; split; try discriminate; intros [[] _].
  - cbn. split; [discriminate|intros [[] _]].
  - destruct s.
    + cbn [NN]. split; [|intros [[] _]].
      rewrite andb_true_iff, andb_true_iff. intros [[_ H] _]. discriminate.
    + cbn [valid_binary NN]. rewrite !andb_true_iff.
      change (SFleb zero (S754_finite false m e)) with true.
      split.
      * intros [[Hb _] Hle]. split; [exact Hb|].
        rewrite <- B2R_one.
        apply (SFleb_NN (S754_finite false m e) one Hb NN_one), Hle.
      * intros [Hb Hle]. repeat split; [exact Hb|].
        apply (SFleb_NN (S754_finite false m e) one Hb NN_one).
        rewrite B2R_one. exact Hle.
Qed.

Lemma sub_one_in_unit d :
  in_unit d = true -> in_unit (sub one d) = true.
Proof.
  rewrite !in_unit_Unit. intros H. apply (SFsub_one_unit d H).
Qed.

(** One step of the accumulation: [d + s * (1 - d)]. *)
Lemma accumulate_in_unit d s :
  in_unit d = true -> in_unit s = true ->
  in_unit (add d (mul s (sub one d))) = true.
Proof.
  rewrite !in_unit_Unit. intros Hd Hs.
  destruct (SFsub_one_unit d Hd) as [Hr Hb].
  destruct (SFmul_unit s (SFsub prec emax one d) Hs Hr) as [Hy Hle].
  apply SFadd_unit; [exact Hd|exact Hy|].
  change (mul s (sub one d))
    with (SFmul prec emax s (SFsub prec emax one d)).
  Lra.lra.
Qed.

(** [clamp] leaves a number of the unit interval in it, with its value. *)
Lemma clamp_unit w :
  Unit w ->
  let c := fmaxf zero (fminf w one) in
  Unit c /\ B2R c = B2R w.
Proof.
  intros [Nw Hw] c. subst c.
  assert (L1 : ltb one w = false).
  { destruct (ltb one w) eqn:E; [|reflexivity]. exfalso.
    apply (SFltb_NN one w NN_one Nw) in E.
    rewrite B2R_one in E. Lra.lra. }
  assert (E1 : fminf w one = w).
  { unfold fminf. destruct w; try reflexivity; try (cbn in Nw; tauto).
    all: change one with (S754_finite false 8388608 (-23)) in *;
      cbv beta iota; rewrite L1; reflexivity. }
  rewrite E1. unfold fmaxf.
  destruct w as [s|s| |s m e]; cbn [NN] in Nw; try tauto.
  - change (match zero with S754_nan => S754_zero s | _ => _ end) with zero.
    split; [split; [exact I|change (0 <= 1)%R; Lra.lra]|reflexivity].
  - destruct s; [tauto|].
    change (match zero with S754_nan => S754_finite false m e | _ => _ end)
      with (S754_finite false m e).
    split; [split; assumption|reflexivity].
Qed.

Lemma to_int_range_bounds lo hi x :
  lo <= 0 <= hi -> lo <= to_int_range lo hi x <= hi.
Proof.
  intros H. unfold to_int_range.
  destruct x as [s|[|]| |s m e]; try lia; destruct (trunc _); lia.
Qed.

Lemma to_int_range_lt (x : float) (K : Z) :
  NN x -> (B2R x < IZR K)%R -> 0 < K ->
  to_int_range 0 255 x < K.
Proof.
  intros Nx Hx HK. destruct x as [s|s| |[|] m e]; cbn [NN] in Nx;
    try contradiction.
  - change (to_int_range 0 255 (S754_zero s)) with 0. lia.
  - unfold to_int_range. destruct (trunc _) as [v|] eqn:Ev; [|lia].
    destruct (trunc_le m e v Ev) as [Hv Hle]. cbn [B2R] in Hx.
    assert (IZR v < IZR K)%R by Lra.lra. apply lt_IZR in H. lia.
Qed.

Lemma SFeqb_finite_eq m e m' e' :
  SFeqb (S754_finite false m e) (S754_finite false m' e') = true ->
  m = m' /\ e = e'.
Proof.
  unfold SFeqb. cbn [SFcompare].
  destruct (Z.compare_spec e e') as [E|E|E]; try discriminate.
  change (Pos.compare_cont Eq m m') with (Pos.compare m m').
  destruct (Pos.compare_spec m m'); try discriminate. auto.
Qed.

Lemma below_one (m : positive) (e : Z) :
  bounded prec emax m e = true -> (F2R (Z.pos m) e < 1)%R ->
  (F2R (Z.pos m) e <= F2R 16777215 (-24))%R.
Proof.
  intros Hb Hlt. apply bounded_canonical in Hb as [C _].
  rewrite <- bpow_0 in Hlt. pose proof (mag_lt m e 0 Hlt) as Hg.
  pose proof (digits_bounds m) as B. cbv zeta in B.
  set (d := Z.pos (digits2_pos m)) in *.
  assert (Hd : d <= 24) by lia.
  assert (Hm : Z.pos m <= 16777215).
  { assert (2 ^ d <= 2 ^ 24) by (apply Z.pow_le_mono_r; lia). lia. }
  apply Rle_trans with (F2R 16777215 e); [apply F2R_le, Hm|].
  unfold F2R. apply Rmult_le_compat_l; [Lra.lra|apply bpow_le; lia].
Qed.

Definition f255 : float := of_int 255.

Lemma scaled_below_one_value :
  binary_round prec emax false (16777215 * 16711680) (-24 + -16)
  = S754_finite false 16711679 (-16).
Proof. vm_compute. reflexivity. Qed.

(** The byte of a number of the unit interval is 255 exactly at 1. *)
Lemma byte_of_unit c :
  Unit c ->
  let byte := to_int_range 0 255 (mul c (of_int 255)) in
  0 <= byte <= 255 /\ (byte = 255 <-> eqb c one = true).
Proof.
  intros [Nc Hc] byte. split; [apply to_int_range_bounds; lia|]. subst byte.
  change (of_int 255) with (S754_finite false 16711680 (-16)).
  destruct c as [s|s| |[|] m e]; cbn [NN] in Nc; try tauto.
  - destruct s; cbn; split; intros; try lia; discriminate.
  - destruct (eqb (S754_finite false m e) one) eqn:E.
    + apply SFeqb_finite_eq in E as [-> ->]. split; [reflexivity|].
      intros _. vm_compute. reflexivity.
    + split; [|discriminate]. intros H. exfalso.
      assert (Hne : B2R (S754_finite false m e) <> 1%R).
      { intros H1. rewrite <- B2R_one in H1.
        apply (SFeqb_NN (S754_finite false m e) one Nc NN_one) in H1.
        unfold eqb in E. congruence. }
      cbn [B2R] in Hc, Hne.
      assert (Hlt : (F2R (Z.pos m) e < 1)%R) by Lra.lra.
      pose proof (below_one m e Nc Hlt) as Hp.
      assert (N255 : bounded prec emax 16711680 (-16) = true) by reflexivity.
      unfold mul in H. rewrite (SFmul_round m e 16711680 (-16) Nc N255) in H.
      assert (Hx : (F2R (Z.pos (m * 16711680)) (e + -16)
                    <= F2R (Z.pos (16777215 * 16711680)) (-24 + -16))%R).
      { rewrite !Pos2Z.inj_mul, !F2R_mul.
        apply Rmult_le_compat_r; [|exact Hp].
        pose proof (F2R_pos 16711680 (-16)). Lra.lra. }
      assert (G1 : Z.pos (digits2_pos (m * 16711680)) + (e + -16) <= 100).
      { apply Z.le_trans with (8 + 1); [|lia]. apply mag_le.
        rewrite Pos2Z.inj_mul, F2R_mul.
        assert (F2R 16711680 (-16) = 255)%R.
        { unfold F2R. change 16711680 with (255 * 2 ^ 16).
          rewrite mult_IZR, <- bpow_IZR, Rmult_assoc, <- bpow_add by lia.
          change (16 + -16) with 0. rewrite bpow_0. Lra.lra. }
        rewrite H0. rewrite (bpow_IZR 8) by lia. change (IZR (2 ^ 8)) with 256%R.
        pose proof (F2R_pos m e). Lra.nra. }
      assert (G2 : Z.pos (digits2_pos (16777215 * 16711680)) + (-24 + -16)
                   <= 100) by (apply Z.leb_le; vm_compute; reflexivity).
      pose proof (binary_round_le _ _ _ _ G1 G2 Hx) as Hle.
      rewrite scaled_below_one_value in Hle.
      destruct (binary_round_spec (m * 16711680) (e + -16) G1)
        as (k & _ & _ & Hnn & _).
      assert (Hb : (B2R (binary_round prec emax false (m * 16711680) (e + -16))
                    < IZR 255)%R).
      { eapply Rle_lt_trans; [exact Hle|]. cbn [B2R]. unfold F2R.
        change 16711679 with (255 * 2 ^ 16 - 1).
        rewrite minus_IZR, mult_IZR, <- bpow_IZR by lia.
        pose proof (bpow_gt_0 (-16)).
        assert (bpow 16 * bpow (-16) = 1)%R
          by (rewrite <- bpow_add; apply bpow_0).
        Lra.nra. }
      pose proof (to_int_range_lt _ 255 Hnn Hb ltac:(lia)). lia.
Qed.

End Rounding.

(** ** Empty-space skipping: the host-side grid and the skip flags *)
Module SpaceSkipping.

Definition INT_MAX : Z := 2147483647.

(** The members of [vvRayRend] and [vvVolDesc] the two functions use.  A
    NULL array is [None].  [size] is [vd->getSize()], a vector of three
    floats, which the source casts to [int] and uses as voxel counts; [raw]
    is [vd->getRaw()]. *)
Record vvRayRend := {
  bpc : Z;
  size : Binary32.float * Binary32.float * Binary32.float;
  raw : list Z;
  h_numCells : Z * Z * Z;
  h_cellMinValues : option (list Z);
  h_cellMaxValues : option (list Z);
  h_spaceSkippingArray : option (list bool);
  _rgbaTF : list Binary32.float;
  _spaceSkipping : bool
}.

Definition numCells (n : Z * Z * Z) : Z := let '(n0, n1, n2) := n in n0 * n1 * n2.

(** [for (int v = from; v < to; ++v)] *)
Definition range (from to : Z) : list Z := seqZ from (to - from).

(** The two tests on one voxel. *)
Definition minmax (vox : Z) (mm : Z * Z) : Z * Z :=
  let '(minValue, maxValue) := mm in
  let maxValue := if maxValue <? vox then vox else maxValue in
  let minValue := if vox <? minValue then vox else minValue in
  (minValue, maxValue).

(** The cast [(int)f] of a float: truncation towards zero.  Out of the range
    of [int], and for a NaN, the cast is undefined in the source; here it
    saturates, and a NaN gives 0. *)
Definition int_cast (f : Binary32.float) : Z :=
  Binary32.to_int_range (- 2 ^ 31) (2 ^ 31 - 1) f.

(** The three voxel loops of one cell, from [minValue = INT_MAX] and
    [maxValue = -INT_MAX], reading
    [vd->getRaw()[vz * (int)(size[0] * size[1]) + vy * (int)size[0] + vx]]:
    the slice stride is the cast of the float product.  A read outside the
    raw buffer is out of bounds in the source and yields a fixed value
    here. *)
Definition cellMinMax
  (size : Binary32.float * Binary32.float * Binary32.float) (raw : list Z)
  (from to : Z * Z * Z) : Z * Z :=
  let '(size0, size1, _) := size in
  let '(f0, f1, f2) := from in
  let '(t0, t1, t2) := to in
  foldl (fun mm vz =>
    foldl (fun mm vy =>
      foldl (fun mm vx =>
        let vox := raw !!! Z.to_nat (vz * int_cast (Binary32.mul size0 size1)
                                     + vy * int_cast size0 + vx) in
        minmax vox mm)
      mm (range f0 t0))
    mm (range f1 t1))
  (INT_MAX, - INT_MAX) (range f2 t2).

(** [h_cellMinValues[idx] = minValue; h_cellMaxValues[idx] = maxValue;]
    A store past the end of an array, undefined in the source, leaves the
    array as it is. *)
Definition storeMinMax (idx : Z) (mm : Z * Z) (arrays : list Z * list Z)
  : list Z * list Z :=
  let '(minValue, maxValue) := mm in
  let '(mins, maxs) := arrays in
  if idx <? 0 then arrays
  else (<[Z.to_nat idx := minValue]> mins, <[Z.to_nat idx := maxValue]> maxs).

(** [calcSpaceSkippingGrid].  [junkMin] and [junkMax] are the indeterminate
    contents of the two fresh [new int[numCells]] arrays. *)
Definition calcSpaceSkippingGrid (junkMin junkMax : list Z) (r : vvRayRend)
  : vvRayRend :=
  let '(n0, n1, n2) := h_numCells r in
  let '(size0, size1, size2) := size r in
  let '(s0, s1, s2) := (int_cast size0, int_cast size1, int_cast size2) in
  let numCells := n0 * n1 * n2 in
  let mins := resize (Z.to_nat numCells) 0 junkMin in
  let maxs := resize (Z.to_nat numCells) 0 junkMax in
  (* Cells are uniformly sized.  If vd->size[d] isn't a multiple of
     cellSize[d], the last cell will be larger than the other cells for that
     dimension. *)
  let cellSizeAll := (Z.quot s0 n0, Z.quot s1 n1, Z.quot s2 n2) in
  let '(c0, c1, c2) := cellSizeAll in
  let lastCellSize := (c0 + Z.rem s0 n0, c1 + Z.rem s1 n1, c2 + Z.rem s2 n2) in
  let '(l0, l1, l2) := lastCellSize in
  let arrays :=
    foldl (fun arrays z =>
      let cellSize2 := if z =? n2 - 1 then l2 else c2 in
      let from2 := c2 * z in
      let to2 := from2 + cellSize2 in
      foldl (fun arrays y =>
        let cellSize1 := if y =? n1 - 1 then l1 else c1 in
        let from1 := c1 * y in
        let to1 := from1 + cellSize1 in
        foldl (fun arrays x =>
          let cellSize0 := if x =? n0 - 1 then l0 else c0 in
          let from0 := c0 * x in
          let to0 := from0 + cellSize0 in
          let idx := x * n1 * n2 + y * n2 + z in
          storeMinMax idx
            (cellMinMax (size r) (raw r)
               (from0, from1, from2) (to0, to1, to2))
            arrays)
        arrays (range 0 n2))   (* for (int x=0; x<h_numCells[2]; ++x) *)
      arrays (range 0 n1))
    (mins, maxs) (range 0 n2) in
  {| bpc := bpc r; size := size r; raw := raw r; h_numCells := h_numCells r;
     h_cellMinValues := Some (fst arrays);
     h_cellMaxValues := Some (snd arrays);
     h_spaceSkippingArray := h_spaceSkippingArray r;
     _rgbaTF := _rgbaTF r;
     _spaceSkipping := _spaceSkipping r |}.

(** The scan of one cell's scalar range,
<<
      h_spaceSkippingArray[i] = true;
      for (int j=h_cellMinValues[i]; j<=h_cellMaxValues[i]; ++j)
        if(_rgbaTF[j * 4 + 3] > 0.0f) { h_spaceSkippingArray[i] = false; break; }
>>
    over the values [js] of [j].  A read outside [_rgbaTF] is out of bounds
    in the source and yields NaN here. *)
Definition alphaAt (tf : list Binary32.float) (j : Z) : Binary32.float :=
  if j * 4 + 3 <? 0 then S754_nan
  else default S754_nan (tf !! Z.to_nat (j * 4 + 3)).

Fixpoint scanRange (tf : list Binary32.float) (js : list Z) : bool :=
  match js with
  | [] => true
  | j :: js' =>
      if Binary32.gt_zero (alphaAt tf j) then false else scanRange tf js'
  end.

Definition computeSpaceSkippingTexture (r : vvRayRend) : vvRayRend :=
  if bpc r =? 1 then
    let numCells := numCells (h_numCells r) in
    let mins := default [] (h_cellMinValues r) in
    let maxs := default [] (h_cellMaxValues r) in
    let flags :=
      map (fun i : nat =>
             scanRange (_rgbaTF r) (range (mins !!! i) (maxs !!! i + 1)))
          (seq 0 (Z.to_nat numCells)) in
    {| bpc := bpc r; size := size r; raw := raw r; h_numCells := h_numCells r;
       h_cellMinValues := h_cellMinValues r;
       h_cellMaxValues := h_cellMaxValues r;
       h_spaceSkippingArray := Some flags;
       _rgbaTF := _rgbaTF r;
       _spaceSkipping := _spaceSkipping r |}
  else
    (* Only for bpc == 1 so far. *)
    {| bpc := bpc r; size := size r; raw := raw r; h_numCells := h_numCells r;
       h_cellMinValues := None;
       h_cellMaxValues := None;
       h_spaceSkippingArray := None;
       _rgbaTF := _rgbaTF r;
       _spaceSkipping := false |}.

(** What the space-skipping invariant asks of the grid: every voxel lies in
    one cell, the one its coordinates select (the last cell of an axis takes
    the remainder), and the range stored for that cell bounds its scalar.
    The voxel counts are the extents as integers, the voxels are stored row
    by row and slice by slice. *)
Definition cellOf (s n v : Z) : Z := Z.min (Z.quot v (Z.quot s n)) (n - 1).

Definition gridCovers (r : vvRayRend) : Prop :=
  let '(n0, n1, n2) := h_numCells r in
  let '(size0, size1, size2) := size r in
  let '(s0, s1, s2) := (int_cast size0, int_cast size1, int_cast size2) in
  forall vx vy vz, 0 <= vx < s0 -> 0 <= vy < s1 -> 0 <= vz < s2 ->
    let idx := cellOf s0 n0 vx * n1 * n2 + cellOf s1 n1 vy * n2
               + cellOf s2 n2 vz in
    let vox := raw r !!! Z.to_nat (vz * (s0 * s1) + vy * s0 + vx) in
    exists lo hi,
      default [] (h_cellMinValues r) !! Z.to_nat idx = Some lo /\
      default [] (h_cellMaxValues r) !! Z.to_nat idx = Some hi /\
      lo <= vox <= hi.

(** A volume of two voxels in a row, split into two cells along x. *)
Definition twoCells : vvRayRend :=
  {| bpc := 1;
     size := (Binary32.of_int 2, Binary32.of_int 1, Binary32.of_int 1);
     raw := [5; 9]; h_numCells := (2, 1, 1);
     h_cellMinValues := None; h_cellMaxValues := None;
     h_spaceSkippingArray := None; _rgbaTF := []; _spaceSkipping := false |}.

(** C6 (the code departs from the claim).  With [h_numCells = {2, 1, 1}] the
    x loop, bounded by [h_numCells[2]], visits cell 0 only: the slots of
    cell 1 keep whatever the fresh arrays held, and with zeroed arrays the
    stored range [0, 0] of cell 1 does not bound its voxel 9. *)
Theorem grid_skips_cells_beyond_numCells2 :
  (forall a0 a1 b0 b1,
     h_cellMinValues (calcSpaceSkippingGrid [a0; a1] [b0; b1] twoCells)
     = Some [5; a1] /\
     h_cellMaxValues (calcSpaceSkippingGrid [a0; a1] [b0; b1] twoCells)
     = Some [5; b1]) /\
  ~ gridCovers (calcSpaceSkippingGrid [0; 0] [0; 0] twoCells).
Proof.
  split; [intros; split; reflexivity|].
  assert (E : calcSpaceSkippingGrid [0; 0] [0; 0] twoCells
              = {| bpc := 1;
                   size := (Binary32.of_int 2, Binary32.of_int 1,
                            Binary32.of_int 1);
                   raw := [5; 9];
                   h_numCells := (2, 1, 1);
                   h_cellMinValues := Some [5; 0];
                   h_cellMaxValues := Some [5; 0];
                   h_spaceSkippingArray := None; _rgbaTF := [];
                   _spaceSkipping := false |}) by reflexivity.
  rewrite E. unfold gridCovers. cbn [h_numCells size raw h_cellMinValues
    h_cellMaxValues default].
  change (int_cast (Binary32.of_int 2)) with 2.
  change (int_cast (Binary32.of_int 1)) with 1.
  intros H. destruct (H 1 0 0) as (lo & hi & Hlo & Hhi & Hb); try lia.
  vm_compute in Hlo, Hhi, Hb. destruct Hb as [_ Hb].
  inversion Hhi; subst. apply Hb. reflexivity.
Qed.

Lemma elem_of_range j from to : j ∈ range from to <-> from <= j < to.
Proof. unfold range. rewrite elem_of_seqZ. lia. Qed.

(** *** The grid when the x loop runs over the right count

    A stored range only ever widens, and covers each scalar it has seen. *)
Definition within (mm : Z * Z) (v : Z) : Prop := fst mm <= v <= snd mm.
Definition wider (mm mm' : Z * Z) : Prop := fst mm' <= fst mm /\ snd mm <= snd mm'.

Lemma minmax_wider v mm : wider mm (minmax v mm).
Proof.
  destruct mm as [lo hi]. unfold wider, minmax. cbn.
  destruct (Z.ltb_spec hi v), (Z.ltb_spec v lo); cbn; lia.
Qed.
Lemma minmax_within v mm : within (minmax v mm) v.
Proof.
  destruct mm as [lo hi]. unfold within, minmax. cbn.
  destruct (Z.ltb_spec hi v), (Z.ltb_spec v lo); cbn; lia.
Qed.
Lemma wider_refl mm : wider mm mm.
Proof. unfold wider. lia. Qed.
Lemma wider_trans a b c : wider a b -> wider b c -> wider a c.
Proof. unfold wider. lia. Qed.
Lemma within_wider mm mm' v : within mm v -> wider mm mm' -> within mm' v.
Proof. unfold within, wider. lia. Qed.

Lemma foldl_wider {A} (f : Z * Z -> A -> Z * Z) (l : list A) :
  (forall mm x, wider mm (f mm x)) -> forall mm, wider mm (foldl f mm l).
Proof.
  intros Hf. induction l as [|x l IH]; intros mm; cbn.
  - apply wider_refl.
  - eapply wider_trans; [apply Hf|apply IH].
Qed.

Lemma foldl_within {A} (f : Z * Z -> A -> Z * Z) (l : list A) (x0 : A) (v : Z) :
  (forall mm x, wider mm (f mm x)) ->
  (forall mm, within (f mm x0) v) ->
  x0 ∈ l -> forall mm, within (foldl f mm l) v.
Proof.
  intros Hf Hx. induction l as [|x l IH]; intros Hin mm.
  - inversion Hin.
  - cbn. apply elem_of_cons in Hin as [->|Hin].
    + eapply within_wider; [apply Hx|apply foldl_wider, Hf].
    + apply IH, Hin.
Qed.

Lemma cellMinMax_within size0 size1 size2 raw f0 f1 f2 t0 t1 t2 vx vy vz :
  f0 <= vx < t0 -> f1 <= vy < t1 -> f2 <= vz < t2 ->
  within (cellMinMax (size0, size1, size2) raw (f0, f1, f2) (t0, t1, t2))
         (raw !!! Z.to_nat (vz * int_cast (Binary32.mul size0 size1)
                            + vy * int_cast size0 + vx)).
Proof.
  intros Hx Hy Hz. unfold cellMinMax.
  apply (foldl_within _ _ vz).
  - intros mm z. apply foldl_wider. intros mm' y. apply foldl_wider.
    intros mm'' x. apply minmax_wider.
  - intros mm. apply (foldl_within _ _ vy).
    + intros mm' y. apply foldl_wider. intros mm'' x. apply minmax_wider.
    + intros mm'. apply (foldl_within _ _ vx).
      * intros mm'' x. apply minmax_wider.
      * intros mm''. apply minmax_within.
      * apply elem_of_range. lia.
    + apply elem_of_range. lia.
  - apply elem_of_range. lia.
Qed.

Lemma foldl_keep {A S} (f : S -> A -> S) (l : list A) (P : S -> Prop) :
  (forall s x, x ∈ l -> P s -> P (f s x)) ->
  forall s, P s -> P (foldl f s l).
Proof.
  induction l as [|x l IH]; intros Hf s Hs; cbn; [exact Hs|].
  apply IH.
  - intros s' x' Hx'. apply Hf. right. exact Hx'.
  - apply Hf; [left|exact Hs].
Qed.

Lemma foldl_reach {A S} (f : S -> A -> S) (l : list A) (x0 : A)
  (Inv P : S -> Prop) :
  (forall s x, x ∈ l -> Inv s -> Inv (f s x)) ->
  (forall s x, x ∈ l -> Inv s -> P s -> P (f s x)) ->
  (forall s, Inv s -> P (f s x0)) ->
  x0 ∈ l -> forall s, Inv s -> P (foldl f s l).
Proof.
  intros HI HP H0 Hin s Hs.
  enough (G : forall l', (forall x, x ∈ l' -> x ∈ l) -> x0 ∈ l' ->
              forall s, Inv s -> Inv (foldl f s l') /\ P (foldl f s l'))
    by (apply (G l); auto).
  clear s Hs Hin.
  induction l' as [|y l' IH]; intros Hsub Hin s Hs; [inversion Hin|].
  cbn. apply elem_of_cons in Hin as [->|Hin].
  - apply (foldl_keep f l' (fun s => Inv s /\ P s)).
    + intros s' x Hx [Hi Hp].
      assert (x ∈ l) by (apply Hsub; right; exact Hx).
      split; [apply HI|apply HP]; assumption.
    + split; [apply HI; [apply Hsub; left|exact Hs]|apply H0, Hs].
  - apply IH; [intros z Hz; apply Hsub; right; exact Hz|exact Hin|].
    apply HI; [apply Hsub; left|exact Hs].
Qed.

Lemma cellIdx_inj n1 n2 x y z x' y' z' :
  0 <= y < n1 -> 0 <= z < n2 -> 0 <= y' < n1 -> 0 <= z' < n2 ->
  x * n1 * n2 + y * n2 + z = x' * n1 * n2 + y' * n2 + z' ->
  x = x' /\ y = y' /\ z = z'.
Proof.
  intros Hy Hz Hy' Hz' E.
  assert (E1 : (x * n1 + y) * n2 + z = (x' * n1 + y') * n2 + z') by lia.
  assert (Hzz : z = z' /\ x * n1 + y = x' * n1 + y').
  { destruct (Z.div_mod_unique n2 (x * n1 + y) (x' * n1 + y') z z') as [E2 E3];
      try lia. }
  destruct Hzz as [-> E2].
  destruct (Z.div_mod_unique n1 x x' y y') as [E3 E4]; try lia.
Qed.

Section Cover.
Variables (N : nat) (i0 : nat) (lo0 hi0 : Z).
Definition lens (s : list Z * list Z) : Prop := length s.1 = N /\ length s.2 = N.
Definition holds (s : list Z * list Z) : Prop :=
  s.1 !! i0 = Some lo0 /\ s.2 !! i0 = Some hi0.

Lemma storeMinMax_lens idx mm s : lens s -> lens (storeMinMax idx mm s).
Proof.
  destruct mm as [lo hi], s as [mins maxs]. unfold lens, storeMinMax. cbn.
  destruct (idx <? 0); cbn; rewrite ?length_insert; auto.
Qed.

Lemma storeMinMax_other idx mm s :
  Z.to_nat idx <> i0 -> holds s -> holds (storeMinMax idx mm s).
Proof.
  destruct mm as [lo hi], s as [mins maxs]. unfold holds, storeMinMax. cbn.
  intros Hne [H1 H2].
  destruct (idx <? 0); cbn; rewrite ?list_lookup_insert_ne; auto.
Qed.

Lemma storeMinMax_here idx s :
  0 <= idx -> Z.to_nat idx = i0 -> (i0 < N)%nat -> lens s ->
  holds (storeMinMax idx (lo0, hi0) s).
Proof.
  destruct s as [mins maxs]. unfold holds, lens, storeMinMax. cbn.
  intros Hi <- Hlt [L1 L2].
  destruct (Z.ltb_spec idx 0); [lia|]. cbn.
  rewrite !list_lookup_insert_eq by lia. auto.
Qed.
End Cover.

Lemma cellOf_bounds s n v :
  0 < n <= s -> 0 <= v < s ->
  let c := Z.quot s n in
  let i := cellOf s n v in
  0 <= i < n /\
  c * i <= v < c * i + (if i =? n - 1 then c + Z.rem s n else c).
Proof.
  intros Hn Hv c i. subst i. unfold cellOf. fold c.
  assert (Hc : 0 < c) by (subst c; apply Z.quot_str_pos; lia).
  pose proof (Z.quot_rem' s n) as Hs. fold c in Hs.
  pose proof (Z.rem_bound_pos s n ltac:(lia) ltac:(lia)) as Hr.
  pose proof (Z.quot_rem' v c) as Hq.
  pose proof (Z.rem_bound_pos v c ltac:(lia) ltac:(lia)) as Hvr.
  assert (0 <= Z.quot v c) by (apply Z.quot_pos; lia).
  destruct (Z.min_spec (Z.quot v c) (n - 1)) as [[Hlt ->]|[Hge ->]].
  - split; [lia|].
    destruct (Z.eqb_spec (Z.quot v c) (n - 1)); nia.
  - split; [lia|]. rewrite Z.eqb_refl. nia.
Qed.

(** [from[d] = cellSizeAll[d] * c] and [to[d] = from[d] + cellSize[d]]: the
    voxels of cell [c] along an axis of [s] voxels cut into [n] cells. *)
Definition cellFrom (s n c : Z) : Z := Z.quot s n * c.
Definition cellTo (s n c : Z) : Z :=
  cellFrom s n c + (if c =? n - 1 then Z.quot s n + Z.rem s n else Z.quot s n).

(** What the three voxel loops compute for cell [(x, y, z)]. *)
Definition cellRange (r : vvRayRend) (x y z : Z) : Z * Z :=
  let '(n0, n1, n2) := h_numCells r in
  let '(size0, size1, size2) := size r in
  let '(s0, s1, s2) := (int_cast size0, int_cast size1, int_cast size2) in
  cellMinMax (size r) (raw r)
    (cellFrom s0 n0 x, cellFrom s1 n1 y, cellFrom s2 n2 z)
    (cellTo s0 n0 x, cellTo s1 n1 y, cellTo s2 n2 z).

(** With [h_numCells[0] = h_numCells[2]] the slot of every cell holds what
    the voxel loops computed for it. *)
Lemma grid_slot junkMin junkMax r n n1 cx cy cz :
  h_numCells r = (n, n1, n) ->
  0 <= cx < n -> 0 <= cy < n1 -> 0 <= cz < n ->
  let r' := calcSpaceSkippingGrid junkMin junkMax r in
  let idx := Z.to_nat (cx * n1 * n + cy * n + cz) in
  default [] (h_cellMinValues r') !! idx = Some (cellRange r cx cy cz).1 /\
  default [] (h_cellMaxValues r') !! idx = Some (cellRange r cx cy cz).2.
Proof.
  intros Hn Bx By Bz r' idx0. subst r' idx0.
  unfold calcSpaceSkippingGrid, cellRange, cellFrom, cellTo. rewrite Hn.
  destruct (size r) as [[size0 size1] size2] eqn:Hs.
  cbn [h_numCells size raw h_cellMinValues h_cellMaxValues default id].
  set (s0 := int_cast size0). set (s1 := int_cast size1).
  set (s2 := int_cast size2).
  set (idx := cx * n1 * n + cy * n + cz).
  set (val := cellMinMax (size0, size1, size2) (raw r) _ _).
  assert (Hidx : 0 <= idx < n * n1 * n).
  { subst idx.
    assert (0 <= cy * n + cz < n1 * n) by nia.
    assert (0 <= cx * (n1 * n) <= (n - 1) * (n1 * n)) by nia.
    lia. }
  set (N := Z.to_nat (n * n1 * n)).
  match goal with |- context [foldl ?f ?s ?l] =>
    assert (G : holds (Z.to_nat idx) val.1 val.2 (foldl f s l)) end.
  { assert (Keep : forall x y z s, 0 <= x < n -> 0 <= y < n1 -> 0 <= z < n ->
              forall mm,
              (x = cx -> y = cy -> z = cz -> mm = val) ->
              lens N s ->
              (holds (Z.to_nat idx) val.1 val.2 s \/ (x = cx /\ y = cy /\ z = cz)) ->
              holds (Z.to_nat idx) val.1 val.2
                (storeMinMax (x * n1 * n + y * n + z) mm s)).
    { intros x y z s Rx Ry Rz mm Hmm Hl Hh.
      destruct (Z.eq_dec (x * n1 * n + y * n + z) idx) as [E|E].
      - subst idx. apply cellIdx_inj in E as (Ex & Ey & Ez); try lia.
        rewrite (Hmm Ex Ey Ez). subst x y z.
        rewrite (surjective_pairing val) at 3.
        apply storeMinMax_here with (N := N); [nia|reflexivity|subst N; nia|exact Hl].
      - destruct Hh as [Hh|(-> & -> & ->)]; [|contradiction].
        apply storeMinMax_other; [|exact Hh]. subst idx. intros E'. apply E. nia. }
    apply (foldl_reach _ _ cz (lens N) (holds (Z.to_nat idx) val.1 val.2)).
    - intros s z Hz'. apply foldl_keep. intros s' y Hy'. apply foldl_keep.
      intros s'' x Hx'. apply storeMinMax_lens.
    - intros s z Hz' Hl Hh.
      apply (foldl_keep _ _ (fun s => lens N s /\ holds (Z.to_nat idx) val.1 val.2 s));
        [|split; assumption].
      intros s' y Hy' Hs'.
      apply (foldl_keep _ _ (fun s => lens N s /\ holds (Z.to_nat idx) val.1 val.2 s));
        [|exact Hs'].
      intros s'' x Hx' [Hl'' Hh''].
      apply elem_of_range in Hz', Hy', Hx'.
      split; [apply storeMinMax_lens; exact Hl''|].
      refine (Keep x y z s'' _ _ _ _ _ Hl'' (or_introl Hh'')); try lia.
      intros -> -> ->. reflexivity.
    - intros s Hl.
      apply (foldl_reach _ _ cy (lens N) (holds (Z.to_nat idx) val.1 val.2)).
      + intros s' y Hy'. apply foldl_keep. intros s'' x Hx'.
        apply storeMinMax_lens.
      + intros s' y Hy' Hl' Hh'.
        apply (foldl_keep _ _
                 (fun s => lens N s /\ holds (Z.to_nat idx) val.1 val.2 s));
          [|split; assumption].
        intros s'' x Hx' [Hl'' Hh''].
        apply elem_of_range in Hy', Hx'.
        split; [apply storeMinMax_lens; exact Hl''|].
        refine (Keep x y cz s'' _ _ _ _ _ Hl'' (or_introl Hh'')); try lia.
        intros -> -> _. reflexivity.
      + intros s' Hl'.
        apply (foldl_reach _ _ cx (lens N) (holds (Z.to_nat idx) val.1 val.2)).
        * intros s'' x Hx'. apply storeMinMax_lens.
        * intros s'' x Hx' Hl'' Hh''. apply elem_of_range in Hx'.
          refine (Keep x cy cz s'' _ _ _ _ _ Hl'' (or_introl Hh'')); try lia.
          intros -> _ _. reflexivity.
        * intros s'' Hl''.
          refine (Keep cx cy cz s'' _ _ _ _ _ Hl'' (or_intror _));
            try lia; auto.
        * apply elem_of_range. lia.
        * exact Hl'.
      + apply elem_of_range. lia.
      + exact Hl.
    - apply elem_of_range. lia.
    - split; apply length_resize. }
  exact G.
Qed.

Lemma cellOf_box s n v :
  0 < n <= s -> 0 <= v < s ->
  0 <= cellOf s n v < n /\
  cellFrom s n (cellOf s n v) <= v < cellTo s n (cellOf s n v).
Proof. intros Hn Hv. exact (cellOf_bounds s n v Hn Hv). Qed.

(** With [h_numCells[0] = h_numCells[2]] (as for the default 16 x 16 x 16
    grid), no more cells than voxels along each axis, and a slice stride
    [(int)(size[0] * size[1])] that is the product of the two voxel counts
    ([slice_stride_of_fractional_extents] below has extents for which it is
    not), every voxel lies in the cell its coordinates select and that
    cell's stored range bounds its scalar. *)
Lemma grid_covers_when_counts_agree junkMin junkMax r n n1 size0 size1 size2 :
  h_numCells r = (n, n1, n) -> size r = (size0, size1, size2) ->
  int_cast (Binary32.mul size0 size1) = int_cast size0 * int_cast size1 ->
  0 < n <= int_cast size0 -> 0 < n1 <= int_cast size1 -> n <= int_cast size2 ->
  gridCovers (calcSpaceSkippingGrid junkMin junkMax r).
Proof.
  intros Hn Hs Hstride H0 H1 H2.
  unfold gridCovers.
  replace (h_numCells (calcSpaceSkippingGrid junkMin junkMax r))
    with (n, n1, n)
    by (rewrite <- Hn; unfold calcSpaceSkippingGrid;
        destruct (h_numCells r) as [[? ?] ?], (size r) as [[? ?] ?];
        reflexivity).
  replace (size (calcSpaceSkippingGrid junkMin junkMax r))
    with (size0, size1, size2)
    by (rewrite <- Hs; unfold calcSpaceSkippingGrid;
        destruct (h_numCells r) as [[? ?] ?], (size r) as [[? ?] ?];
        reflexivity).
  replace (raw (calcSpaceSkippingGrid junkMin junkMax r)) with (raw r)
    by (unfold calcSpaceSkippingGrid;
        destruct (h_numCells r) as [[? ?] ?], (size r) as [[? ?] ?];
        reflexivity).
  cbn iota beta zeta.
  intros vx vy vz Hx Hy Hz.
  destruct (cellOf_box (int_cast size0) n vx ltac:(lia) Hx) as [Bx Cx].
  destruct (cellOf_box (int_cast size1) n1 vy ltac:(lia) Hy) as [By Cy].
  destruct (cellOf_box (int_cast size2) n vz ltac:(lia) Hz) as [Bz Cz].
  destruct (grid_slot junkMin junkMax r n n1 _ _ _ Hn Bx By Bz) as [G1 G2].
  cbv zeta in G1, G2.
  eexists _, _. split; [exact G1|]. split; [exact G2|].
  unfold cellRange. rewrite Hn, Hs. rewrite <- Hstride.
  apply cellMinMax_within; assumption.
Qed.

(** *** The stored range is the exact minimum and maximum *)

Lemma lookup_total_byte (l : list Z) (i : nat) :
  Forall (fun b => 0 <= b < 256) l -> 0 <= l !!! i < 256.
Proof.
  intros H. destruct (l !! i) as [b|] eqn:E.
  - rewrite (list_lookup_total_correct _ _ _ E).
    exact (proj1 (Forall_lookup _ l) H i b E).
  - rewrite list_lookup_total_alt, E. cbn. lia.
Qed.

Section Attained.
Variables (size0 size1 size2 : Binary32.float) (raw : list Z).
Variables (f0 f1 f2 t0 t1 t2 : Z).
Hypothesis bytes : Forall (fun b => 0 <= b < 256) raw.

Definition inBox (vx vy vz : Z) : Prop :=
  f0 <= vx < t0 /\ f1 <= vy < t1 /\ f2 <= vz < t2.

(** The voxel the loops read at [(vx, vy, vz)]. *)
Definition voxelRead (vx vy vz : Z) : Z :=
  raw !!! Z.to_nat (vz * int_cast (Binary32.mul size0 size1)
                    + vy * int_cast size0 + vx).

Definition attained (mm : Z * Z) : Prop :=
  (exists vx vy vz, inBox vx vy vz /\ voxelRead vx vy vz = mm.1) /\
  (exists vx vy vz, inBox vx vy vz /\ voxelRead vx vy vz = mm.2).
Definition fresh_or_attained (mm : Z * Z) : Prop :=
  mm = (INT_MAX, - INT_MAX) \/ attained mm.

Lemma minmax_attained vx vy vz mm :
  inBox vx vy vz -> fresh_or_attained mm ->
  attained (minmax (voxelRead vx vy vz) mm).
Proof.
  intros Hin H.
  pose proof (lookup_total_byte raw
    (Z.to_nat (vz * int_cast (Binary32.mul size0 size1)
               + vy * int_cast size0 + vx)) bytes) as Hb.
  fold (voxelRead vx vy vz) in Hb.
  destruct H as [->|[[ax [ay [az [Ha Ea]]]] [bx [by_ [bz [Hb' Eb]]]]]].
  - unfold minmax.
    destruct (Z.ltb_spec (- INT_MAX) (voxelRead vx vy vz));
      [|unfold INT_MAX in *; lia].
    destruct (Z.ltb_spec (voxelRead vx vy vz) INT_MAX);
      [|unfold INT_MAX in *; lia].
    split; exists vx, vy, vz; split; auto.
  - destruct mm as [lo hi]. cbn [fst snd] in *. unfold minmax.
    split; cbn [fst snd].
    + destruct (voxelRead vx vy vz <? lo);
        [exists vx, vy, vz|exists ax, ay, az]; split; auto.
    + destruct (hi <? voxelRead vx vy vz);
        [exists vx, vy, vz|exists bx, by_, bz]; split; auto.
Qed.

Lemma cellMinMax_attained :
  f0 < t0 -> f1 < t1 -> f2 < t2 ->
  attained (cellMinMax (size0, size1, size2) raw (f0, f1, f2) (t0, t1, t2)).
Proof.
  intros H0 H1 H2. unfold cellMinMax.
  assert (X : forall vy vz mm, f1 <= vy < t1 -> f2 <= vz < t2 ->
            fresh_or_attained mm ->
            attained (foldl (fun mm vx => minmax (voxelRead vx vy vz) mm) mm
                        (range f0 t0))).
  { intros vy vz mm Hy Hz Hmm.
    apply (foldl_reach _ _ f0 fresh_or_attained attained).
    - intros s x Hx Hs. right. apply elem_of_range in Hx.
      apply minmax_attained; [repeat split; lia|exact Hs].
    - intros s x Hx Hs _. apply elem_of_range in Hx.
      apply minmax_attained; [repeat split; lia|exact Hs].
    - intros s Hs. apply minmax_attained; [repeat split; lia|exact Hs].
    - apply elem_of_range. lia.
    - exact Hmm. }
  assert (Y : forall vz mm, f2 <= vz < t2 -> fresh_or_attained mm ->
            attained (foldl (fun mm vy =>
                        foldl (fun mm vx => minmax (voxelRead vx vy vz) mm) mm
                          (range f0 t0)) mm (range f1 t1))).
  { intros vz mm Hz Hmm.
    apply (foldl_reach _ _ f1 fresh_or_attained attained).
    - intros s y Hy Hs. right. apply elem_of_range in Hy. apply X; auto.
    - intros s y Hy Hs _. apply elem_of_range in Hy. apply X; auto.
    - intros s Hs. apply X; auto. lia.
    - apply elem_of_range. lia.
    - exact Hmm. }
  apply (foldl_reach _ _ f2 fresh_or_attained attained).
  - intros s z Hz Hs. right. apply elem_of_range in Hz. apply Y; auto.
  - intros s z Hz Hs _. apply elem_of_range in Hz. apply Y; auto.
  - intros s Hs. apply Y; auto. lia.
  - apply elem_of_range. lia.
  - left. reflexivity.
Qed.

End Attained.

Lemma cell_box_nonempty s n c :
  0 < n <= s -> 0 <= c < n -> cellFrom s n c < cellTo s n c.
Proof.
  intros Hn Hc. unfold cellTo, cellFrom.
  assert (0 < Z.quot s n) by (apply Z.quot_str_pos; lia).
  pose proof (Z.rem_bound_pos s n ltac:(lia) ltac:(lia)).
  destruct (c =? n - 1); lia.
Qed.

(** X6. With [h_numCells[0] = h_numCells[2]] and no more cells than voxels
    along each axis, [calcSpaceSkippingGrid] stores for every cell the exact
    minimum and maximum of the bytes its loops read: both bound every such
    byte and both are read at some voxel of the cell, so that
    [0 <= min <= max < 256]. *)
Theorem grid_ranges_are_exact junkMin junkMax r n n1 size0 size1 size2 x y z :
  h_numCells r = (n, n1, n) -> size r = (size0, size1, size2) ->
  0 < n <= int_cast size0 -> 0 < n1 <= int_cast size1 -> n <= int_cast size2 ->
  Forall (fun b => 0 <= b < 256) (raw r) ->
  0 <= x < n -> 0 <= y < n1 -> 0 <= z < n ->
  let r' := calcSpaceSkippingGrid junkMin junkMax r in
  let idx := Z.to_nat (x * n1 * n + y * n + z) in
  let inCell vx vy vz :=
    cellFrom (int_cast size0) n x <= vx < cellTo (int_cast size0) n x /\
    cellFrom (int_cast size1) n1 y <= vy < cellTo (int_cast size1) n1 y /\
    cellFrom (int_cast size2) n z <= vz < cellTo (int_cast size2) n z in
  let vox vx vy vz :=
    raw r !!! Z.to_nat (vz * int_cast (Binary32.mul size0 size1)
                        + vy * int_cast size0 + vx) in
  exists lo hi,
    default [] (h_cellMinValues r') !! idx = Some lo /\
    default [] (h_cellMaxValues r') !! idx = Some hi /\
    (forall vx vy vz, inCell vx vy vz -> lo <= vox vx vy vz <= hi) /\
    (exists vx vy vz, inCell vx vy vz /\ vox vx vy vz = lo) /\
    (exists vx vy vz, inCell vx vy vz /\ vox vx vy vz = hi) /\
    0 <= lo <= hi /\ hi < 256.
Proof.
  intros Hn Hs H0 H1 H2 Hb Bx By Bz r' idx inCell vox.
  destruct (grid_slot junkMin junkMax r n n1 x y z Hn Bx By Bz)
    as [Gmin Gmax].
  fold r' idx in Gmin, Gmax.
  set (mm := cellRange r x y z) in *.
  exists mm.1, mm.2. split; [exact Gmin|]. split; [exact Gmax|].
  assert (Emm : mm = cellMinMax (size0, size1, size2) (raw r)
                  (cellFrom (int_cast size0) n x,
                   cellFrom (int_cast size1) n1 y,
                   cellFrom (int_cast size2) n z)
                  (cellTo (int_cast size0) n x,
                   cellTo (int_cast size1) n1 y,
                   cellTo (int_cast size2) n z)).
  { subst mm. unfold cellRange. rewrite Hn, Hs. reflexivity. }
  assert (W : forall vx vy vz, inCell vx vy vz -> mm.1 <= vox vx vy vz <= mm.2).
  { intros vx vy vz (Hx & Hy & Hz). rewrite Emm.
    apply (cellMinMax_within size0 size1 size2 (raw r)); assumption. }
  pose proof (cellMinMax_attained size0 size1 size2 (raw r) _ _ _ _ _ _ Hb
                (cell_box_nonempty (int_cast size0) n x ltac:(lia) Bx)
                (cell_box_nonempty (int_cast size1) n1 y ltac:(lia) By)
                (cell_box_nonempty (int_cast size2) n z ltac:(lia) Bz))
    as [A1 A2].
  rewrite <- Emm in A1, A2.
  split; [exact W|]. split; [exact A1|]. split; [exact A2|].
  destruct A1 as (ax & ay & az & Ha & Ea), A2 as (bx & by_ & bz & Hb' & Eb).
  pose proof (W ax ay az Ha) as Wa.
  pose proof (lookup_total_byte (raw r)
                (Z.to_nat (az * int_cast (Binary32.mul size0 size1)
                           + ay * int_cast size0 + ax)) Hb) as Ba.
  pose proof (lookup_total_byte (raw r)
                (Z.to_nat (bz * int_cast (Binary32.mul size0 size1)
                           + by_ * int_cast size0 + bx)) Hb) as Bb.
  unfold voxelRead in Ea, Eb. subst vox. cbn beta in *. lia.
Qed.

(** A volume of 2 x 2 x 2 voxels in one cell. *)
Definition oneCell : vvRayRend :=
  {| bpc := 1;
     size := (Binary32.of_int 2, Binary32.of_int 2, Binary32.of_int 2);
     raw := [7; 3; 9; 4; 6; 200; 5; 8]; h_numCells := (1, 1, 1);
     h_cellMinValues := None; h_cellMaxValues := None;
     h_spaceSkippingArray := None; _rgbaTF := []; _spaceSkipping := false |}.

Lemma grid_ranges_are_exact_witness :
  exists lo hi,
    default [] (h_cellMinValues (calcSpaceSkippingGrid [] [] oneCell)) !! 0%nat
    = Some lo /\
    default [] (h_cellMaxValues (calcSpaceSkippingGrid [] [] oneCell)) !! 0%nat
    = Some hi /\
    0 <= lo <= hi /\ hi < 256.
Proof.
  destruct (grid_ranges_are_exact [] [] oneCell 1 1
              (Binary32.of_int 2) (Binary32.of_int 2) (Binary32.of_int 2)
              0 0 0)
    as (lo & hi & Hlo & Hhi & _ & _ & _ & Hr).
  - reflexivity.
  - reflexivity.
  - change (int_cast (Binary32.of_int 2)) with 2. lia.
  - change (int_cast (Binary32.of_int 2)) with 2. lia.
  - change (int_cast (Binary32.of_int 2)) with 2. lia.
  - repeat constructor; lia.
  - lia.
  - lia.
  - lia.
  - exists lo, hi. split; [exact Hlo|]. split; [exact Hhi|]. exact Hr.
Defined.

Example oneCell_range :
  let r := calcSpaceSkippingGrid [] [] oneCell in
  (h_cellMinValues r, h_cellMaxValues r) = (Some [3], Some [200]).
Proof. reflexivity. Qed.

(** The slice stride of the voxel read is the cast of the float product, not
    the product of the casts: for extents 1.5 x 1.5 it is 2, not 1. *)
Example slice_stride_of_fractional_extents :
  let e := Binary32.lit (3 # 2) in
  int_cast (Binary32.mul e e) = 2 /\ int_cast e * int_cast e = 1.
Proof. split; reflexivity. Qed.

(** *** The skip flags *)

Lemma scanRange_spec tf js :
  scanRange tf js = true
  <-> forall j, j ∈ js -> Binary32.gt_zero (alphaAt tf j) = false.
Proof.
  induction js as [|j js IH]; simpl.
  - split; [|reflexivity]. intros _ j Hj. inversion Hj.
  - destruct (Binary32.gt_zero (alphaAt tf j)) eqn:E.
    + split; [discriminate|]. intros H. rewrite (H j) in E by left.
      discriminate.
    + rewrite IH. split.
      * intros H k Hk. apply elem_of_cons in Hk as [->|Hk]; auto.
      * intros H k Hk. apply H. right. exact Hk.
Qed.

(** The read of the scan, [_rgbaTF[j * 4 + 3]], when it is in bounds. *)
Lemma alphaAt_lookup tf j alpha :
  0 <= j -> tf !! Z.to_nat (j * 4 + 3) = Some alpha -> alphaAt tf j = alpha.
Proof.
  intros Hj E. unfold alphaAt.
  destruct (Z.ltb_spec (j * 4 + 3) 0); [lia|].
  exact (f_equal (default S754_nan) E).
Qed.

(** C5. For one byte per channel, and a transfer function whose alpha
    entries [_rgbaTF[j*4+3]] over the cells' scalar ranges exist and are
    non-negative numbers, [computeSpaceSkippingTexture] flags cell [i]
    exactly when the entry [_rgbaTF[j*4+3]] of the table is zero for every
    [j] from [h_cellMinValues[i]] to [h_cellMaxValues[i]] inclusive.  For
    two bytes per channel it switches [_spaceSkipping] off and drops the
    three host arrays. *)
Theorem skip_flag_iff_range_transparent (r : vvRayRend) :
  (bpc r = 1 ->
   forall mins maxs,
     h_cellMinValues r = Some mins -> h_cellMaxValues r = Some maxs ->
     (forall (i : nat) lo hi j,
        mins !! i = Some lo -> maxs !! i = Some hi -> lo <= j <= hi ->
        0 <= j /\
        exists alpha,
          _rgbaTF r !! Z.to_nat (j * 4 + 3) = Some alpha /\
          Binary32.ge_zero alpha = true) ->
     exists flags,
       h_spaceSkippingArray (computeSpaceSkippingTexture r) = Some flags /\
       length flags = Z.to_nat (numCells (h_numCells r)) /\
       forall (i : nat) lo hi,
         (i < Z.to_nat (numCells (h_numCells r)))%nat ->
         mins !! i = Some lo -> maxs !! i = Some hi ->
         (flags !! i = Some true
          <-> forall j, lo <= j <= hi ->
                exists alpha,
                  _rgbaTF r !! Z.to_nat (j * 4 + 3) = Some alpha /\
                  Binary32.is_zero alpha = true)) /\
  (bpc r = 2 ->
   _spaceSkipping (computeSpaceSkippingTexture r) = false /\
   h_spaceSkippingArray (computeSpaceSkippingTexture r) = None /\
   h_cellMinValues (computeSpaceSkippingTexture r) = None /\
   h_cellMaxValues (computeSpaceSkippingTexture r) = None).
Proof.
  split.
  - intros Hb mins maxs Hmin Hmax Hge.
    unfold computeSpaceSkippingTexture. rewrite Hb, Hmin, Hmax. cbn.
    eexists. split; [reflexivity|]. split.
    + rewrite length_map, length_seq. reflexivity.
    + intros i lo hi Hi Hlo Hhi.
      rewrite list_lookup_fmap, lookup_seq_lt by exact Hi. cbn.
      rewrite (list_lookup_total_correct _ _ _ Hlo),
              (list_lookup_total_correct _ _ _ Hhi).
      split.
      * intros E. injection E as E'.
        rewrite scanRange_spec in E'. intros j Hj.
        destruct (Hge i lo hi j Hlo Hhi Hj) as (Hj0 & alpha & Ea & Hnn).
        exists alpha. split; [exact Ea|].
        apply Binary32.not_gt_zero_is_zero; [exact Hnn|].
        rewrite <- (alphaAt_lookup _ _ _ Hj0 Ea).
        apply E', elem_of_range. lia.
      * intros H. f_equal. apply scanRange_spec. intros j Hj.
        apply elem_of_range in Hj.
        destruct (Hge i lo hi j Hlo Hhi ltac:(lia)) as (Hj0 & alpha & Ea & Hnn).
        destruct (H j ltac:(lia)) as (alpha' & Ea' & Hz).
        rewrite Ea in Ea'. injection Ea' as <-.
        rewrite (alphaAt_lookup _ _ _ Hj0 Ea).
        apply Binary32.not_gt_zero_is_zero; assumption.
  - intros Hb. unfold computeSpaceSkippingTexture. rewrite Hb. cbn.
    repeat split.
Qed.

(** A transfer function whose first two entries are transparent, and two
    cells with scalar ranges [0, 0] and [1, 2]. *)
Definition stepTF : list Binary32.float :=
  flat_map (fun j : nat =>
              [Binary32.one; Binary32.one; Binary32.one;
               if (j <? 2)%nat then Binary32.zero else Binary32.one])
           (seq 0 3).
Definition twoRanges : vvRayRend :=
  {| bpc := 1;
     size := (Binary32.of_int 2, Binary32.of_int 1, Binary32.of_int 1);
     raw := [0; 2]; h_numCells := (1, 1, 2);
     h_cellMinValues := Some [0; 1]; h_cellMaxValues := Some [0; 2];
     h_spaceSkippingArray := None; _rgbaTF := stepTF;
     _spaceSkipping := true |}.

Lemma skip_flag_iff_range_transparent_witness :
  exists flags,
    h_spaceSkippingArray (computeSpaceSkippingTexture twoRanges) = Some flags /\
    length flags = 2%nat /\
    forall (i : nat) lo hi,
      (i < 2)%nat -> [0; 1] !! i = Some lo -> [0; 2] !! i = Some hi ->
      (flags !! i = Some true
       <-> forall j, lo <= j <= hi ->
             exists alpha,
               stepTF !! Z.to_nat (j * 4 + 3) = Some alpha /\
               Binary32.is_zero alpha = true).
Proof.
  apply (proj1 (skip_flag_iff_range_transparent twoRanges));
    [reflexivity | reflexivity | reflexivity |].
  intros [|[|i]] lo hi j Hlo Hhi Hj; simpl in Hlo, Hhi;
    try discriminate; injection Hlo as <-; injection Hhi as <-.
  - assert (j = 0) as -> by lia.
    split; [lia|]. eexists. split; reflexivity.
  - assert (j = 1 \/ j = 2) as [-> | ->] by lia;
      (split; [lia|]; eexists; split; reflexivity).
Defined.

Example twoRanges_flags :
  h_spaceSkippingArray (computeSpaceSkippingTexture twoRanges)
  = Some [true; false].
Proof. reflexivity. Qed.

End SpaceSkipping.

(** ** The render kernel *)
Module Kernel.

(** The arithmetic the kernel is written in.  [render] is generic in it, the
    way the device code is generic in the float unit it runs on: the
    instances below are IEEE single precision and exact rational arithmetic.
    Comparisons are the C operators (false on NaN); [Ftoint] and [Ftouint]
    are the conversions to [int] and to an unsigned type of the given
    width. *)
Class FloatOps (F : Type) := {
  Fofint : Z -> F;
  Flit : Q -> F;
  Fadd : F -> F -> F;
  Fsub : F -> F -> F;
  Fmul : F -> F -> F;
  Fdiv : F -> F -> F;
  Flt : F -> F -> bool;
  Fle : F -> F -> bool;
  Feq : F -> F -> bool;
  fminf : F -> F -> F;
  fmaxf : F -> F -> F;
  fabsf : F -> F;
  __fsqrt_rn : F -> F;
  powf : F -> F -> F;
  fmodf : F -> F -> F;
  Ftoint : F -> Z;
  Ftouint : Z -> F -> Z
}.

Declare Scope fl_scope.
Delimit Scope fl_scope with fl.
Infix "+" := Fadd : fl_scope.
Infix "-" := Fsub : fl_scope.
Infix "*" := Fmul : fl_scope.
Infix "/" := Fdiv : fl_scope.
Infix "<?" := Flt : fl_scope.
Infix "<=?" := Fle : fl_scope.
Notation "a >? b" := (Flt b a) : fl_scope.
Notation "a >=? b" := (Fle b a) : fl_scope.
Infix "==?" := Feq (at level 70) : fl_scope.

Record float3 (F : Type) := make_float3 { v_x : F; v_y : F; v_z : F }.
Record float4 (F : Type) := make_float4 { c_x : F; c_y : F; c_z : F; c_w : F }.
Record uchar4 := make_uchar4 { b_x : Z; b_y : Z; b_z : Z; b_w : Z }.
Arguments make_float3 {F}.
Arguments v_x {F}.
Arguments v_y {F}.
Arguments v_z {F}.
Arguments make_float4 {F}.
Arguments c_x {F}.
Arguments c_y {F}.
Arguments c_z {F}.
Arguments c_w {F}.

Record Ray (F : Type) := mkRay { o : float3 F; d : float3 F }.
Arguments mkRay {F}.
Arguments o {F}.
Arguments d {F}.

Definition NUM_RAND_VECS : Z := 8192.
Definition INT_MAX : positive := 2147483647.
Definition UCHAR_MAX : Z := 255.
Definition USHRT_MAX : Z := 65535.
Definition UINT_MAX : Z := 4294967295.

(** [unsigned int] arithmetic wraps. *)
Definition uint (z : Z) : Z := z mod 2 ^ 32.

(** A [for] loop of at most [n] turns whose body may [break]: the body
    returns the new state and whether it broke out. *)
Fixpoint loop {S : Type} (body : S -> S * bool) (n : positive) (s : S)
  : S * bool :=
  match n with
  | xH => body s
  | xO p =>
      let '(s1, b) := loop body p s in
      if b then (s1, true) else loop body p s1
  | xI p =>
      let '(s0, b0) := body s in
      if b0 then (s0, true)
      else let '(s1, b) := loop body p s0 in
           if b then (s1, true) else loop body p s1
  end.

(** The two output buffers.  [d_depth] is read at the element size selected
    by the depth precision of the launch. *)
Record Buffers := { d_output : Z -> uchar4; d_depth : Z -> Z }.

Definition store {A : Type} (m : Z -> A) (i : Z) (v : A) : Z -> A :=
  fun j => if j =? i then v else m j.
Definition storeOutput (i : Z) (v : uchar4) (m : Buffers) : Buffers :=
  {| d_output := store (d_output m) i v; d_depth := d_depth m |}.
Definition storeDepth (i : Z) (v : Z) (m : Buffers) : Buffers :=
  {| d_output := d_output m; d_depth := store (d_depth m) i v |}.

Section Device.

Context {F : Type} {ops : FloatOps F}.
Local Open Scope fl_scope.

(** The vector helpers of the CUDA SDK header (not part of the sources):
    component-wise operators, [dot], and the one-argument constructors. *)
Definition add3 (a b : float3 F) : float3 F :=
  make_float3 (v_x a + v_x b) (v_y a + v_y b) (v_z a + v_z b).
Definition sub3 (a b : float3 F) : float3 F :=
  make_float3 (v_x a - v_x b) (v_y a - v_y b) (v_z a - v_z b).
Definition mul3 (a b : float3 F) : float3 F :=
  make_float3 (v_x a * v_x b) (v_y a * v_y b) (v_z a * v_z b).
Definition div3 (a b : float3 F) : float3 F :=
  make_float3 (v_x a / v_x b) (v_y a / v_y b) (v_z a / v_z b).
Definition scale3 (a : float3 F) (s : F) : float3 F :=
  make_float3 (v_x a * s) (v_y a * s) (v_z a * s).
Definition dot (a b : float3 F) : F :=
  v_x a * v_x b + v_y a * v_y b + v_z a * v_z b.
Definition add4 (a b : float4 F) : float4 F :=
  make_float4 (c_x a + c_x b) (c_y a + c_y b) (c_z a + c_z b) (c_w a + c_w b).
Definition scale4 (a : float4 F) (s : F) : float4 F :=
  make_float4 (c_x a * s) (c_y a * s) (c_z a * s) (c_w a * s).
Definition xyz (v : float4 F) : float3 F := make_float3 (c_x v) (c_y v) (c_z v).
Definition splat4 (s : F) : float4 F := make_float4 s s s s.

(** Modelled from the spec: [clamp] of vvcudautils.h, which is not part of
    the sources ("Clamp components to [0,1]"). *)
Definition clamp (f : F) : F := fmaxf (Fofint 0) (fminf f (Fofint 1)).

(** Device constants, textures and the [normalize] of the SDK header. *)
Record Constants := {
  c_invViewMatrix : Z -> Z -> F;
  c_MvPrMatrix : Z -> Z -> F;
  volTexture8 : F -> F -> F -> F;
  volTexture16 : F -> F -> F -> F;
  tfTexture : F -> float4 F;
  randTexture : F -> float4 F;
  normalize : float3 F -> float3 F
}.

Variable dev : Constants.

Definition volume (t_bpc : Z) (pos : float3 F) : F :=
  if (t_bpc =? 1)%Z then volTexture8 dev (v_x pos) (v_y pos) (v_z pos)
  else if (t_bpc =? 2)%Z then volTexture16 dev (v_x pos) (v_y pos) (v_z pos)
  else Fofint (-1).

Definition skipSpace (pos : float3 F) : bool :=
  (* return (tex3D(spaceSkippingTexture, pos.x, pos.y, pos.z) == 0.0f); *)
  false.

Definition calcTexCoord (pos volPos volSizeHalf : float3 F) : float3 F :=
  make_float3
    ((v_x pos - v_x volPos + v_x volSizeHalf) / (v_x volSizeHalf * Fofint 2))
    ((v_y pos - v_y volPos + v_y volSizeHalf) / (v_y volSizeHalf * Fofint 2))
    ((v_z pos - v_z volPos + v_z volSizeHalf) / (v_z volSizeHalf * Fofint 2)).

(** Returns the result and the final [*tnear], [*tfar]; [tnear0], [tfar0]
    are their values on entry. *)
Definition solveQuadraticEquation (A B C tnear0 tfar0 : F) : bool * F * F :=
  let discrim := B * B - Fofint 4 * A * C in
  let '(tnear, tfar) :=
    if discrim <? Fofint 0 then (Fofint (-1), Fofint (-1))
    else (tnear0, tfar0) in
  let rootDiscrim := __fsqrt_rn discrim in
  let q := if B <? Fofint 0
           then Flit (-1 # 2) * (B - rootDiscrim)
           else Flit (-1 # 2) * (B + rootDiscrim) in
  let tnear := q / A in
  let tfar := C / q in
  if tnear >? tfar then (true, tfar, tnear) else (false, tnear, tfar).

Definition intersectBox (ray : Ray F) (boxmin boxmax : float3 F)
  : bool * F * F :=
  (* compute intersection of ray with all six bbox planes *)
  let invR := div3 (make_float3 (Fofint 1) (Fofint 1) (Fofint 1)) (d ray) in
  let t1 := (v_x boxmin - v_x (o ray)) * v_x invR in
  let t2 := (v_x boxmax - v_x (o ray)) * v_x invR in
  let tmin := fminf t1 t2 in
  let tmax := fmaxf t1 t2 in
  let t1 := (v_y boxmin - v_y (o ray)) * v_y invR in
  let t2 := (v_y boxmax - v_y (o ray)) * v_y invR in
  let tmin := fmaxf (fminf t1 t2) tmin in
  let tmax := fminf (fmaxf t1 t2) tmax in
  let t1 := (v_z boxmin - v_z (o ray)) * v_z invR in
  let t2 := (v_z boxmax - v_z (o ray)) * v_z invR in
  let tmin := fmaxf (fminf t1 t2) tmin in
  let tmax := fminf (fmaxf t1 t2) tmax in
  ((tmax >=? tmin) && (tmax >=? Fofint 0), tmin, tmax).

Definition intersectSphere (ray : Ray F) (center : float3 F) (radiusSqr : F)
  (tnear0 tfar0 : F) : bool * F * F :=
  let r := mkRay (sub3 (o ray) center) (d ray) in
  let A := v_x (d r) * v_x (d r) + v_y (d r) * v_y (d r)
           + v_z (d r) * v_z (d r) in
  let B := Fofint 2 * (v_x (d r) * v_x (o r) + v_y (d r) * v_y (o r)
                       + v_z (d r) * v_z (o r)) in
  let C := v_x (o r) * v_x (o r) + v_y (o r) * v_y (o r)
           + v_z (o r) * v_z (o r) - radiusSqr in
  solveQuadraticEquation A B C tnear0 tfar0.

(** Returns [*nddot] and [*tnear]. *)
Definition intersectPlane (ray : Ray F) (normal : float3 F) (dist : F)
  : F * F :=
  let nddot := dot normal (d ray) in
  let vOrigin := dist - dot normal (o ray) in
  (nddot, vOrigin / nddot).

Definition mulPost (M : Z -> Z -> F) (v : float4 F) : float4 F :=
  make_float4
    (M 0 0 * c_x v + M 0 1 * c_y v + M 0 2 * c_z v + M 0 3 * c_w v)
    (M 1 0 * c_x v + M 1 1 * c_y v + M 1 2 * c_z v + M 1 3 * c_w v)
    (M 2 0 * c_x v + M 2 1 * c_y v + M 2 2 * c_z v + M 2 3 * c_w v)
    (M 3 0 * c_x v + M 3 1 * c_y v + M 3 2 * c_z v + M 3 3 * c_w v).

Definition perspectiveDivide (v : float4 F) : float3 F :=
  let wInv := Fofint 1 / c_w v in
  make_float3 (c_x v * wInv) (c_y v * wInv) (c_z v * wInv).

Definition rgbaFloatToInt (rgba : float4 F) : uchar4 :=
  let rx := clamp (c_x rgba) in
  let ry := clamp (c_y rgba) in
  let rz := clamp (c_z rgba) in
  let rw := clamp (c_w rgba) in
  make_uchar4 (Ftouint 8 (rx * Fofint 255)) (Ftouint 8 (ry * Fofint 255))
              (Ftouint 8 (rz * Fofint 255)) (Ftouint 8 (rw * Fofint 255)).

Definition gradient (t_bpc : Z) (pos : float3 F) : float3 F :=
  let DELTA := Flit (1 # 100) in
  let z0 := Fofint 0 in
  let sample1 :=
    make_float3 (volume t_bpc (sub3 pos (make_float3 DELTA z0 z0)))
                (volume t_bpc (sub3 pos (make_float3 z0 DELTA z0)))
                (volume t_bpc (sub3 pos (make_float3 z0 z0 DELTA))) in
  let sample2 :=
    make_float3 (volume t_bpc (add3 pos (make_float3 DELTA z0 z0)))
                (volume t_bpc (add3 pos (make_float3 z0 DELTA z0)))
                (volume t_bpc (add3 pos (make_float3 z0 z0 DELTA))) in
  sub3 sample2 sample1.

Definition blinnPhong (t_bpc : Z) (classification : float4 F)
  (pos L H Ka Kd Ks : float3 F) (shininess : F)
  (normal : option (float3 F)) : float4 F :=
  let N := normalize dev (gradient t_bpc pos) in
  let N := match normal with
           | Some normal =>
               (* Interpolate gradient with normal from clip object. *)
               normalize dev
                 (add3 (scale3 normal (c_w classification))
                       (scale3 N (Fofint 1 - c_w classification)))
           | None => N
           end in
  let diffuse := fabsf (dot L N) in
  let specular := powf (dot H N) shininess in
  let c := xyz classification in
  let tmp := add3 (mul3 Ka c) (mul3 (scale3 Kd diffuse) c) in
  let tmp := if specular >? Fofint 0
             then add3 tmp (mul3 (scale3 Ks specular) c) else tmp in
  make_float4 (v_x tmp) (v_y tmp) (v_z tmp) (c_w classification).

(** The arguments of a launch (the two buffer pointers are the [Buffers]). *)
Record Args := {
  width : Z;
  height : Z;
  backgroundColor : float4 F;
  texwidth : Z;
  dist : F;
  volPos : float3 F;
  volSizeHalf : float3 F;
  probePos : float3 F;
  probeSizeHalf : float3 F;
  arg_L : float3 F;
  arg_H : float3 F;
  sphereCenter : float3 F;
  sphereRadius : F;
  planeNormal : float3 F;
  planeDist : F;
  dp : DepthPrecision
}.

Record Thread := {
  blockIdx : Z * Z;
  blockDim : Z * Z;
  threadIdx : Z * Z
}.

(** The locals that live across turns of the stepping loop, and a ghost
    counter of the samples that were classified. *)
Record LoopState := mkState {
  s_t : F;
  s_pos : float3 F;
  s_dst : float4 F;
  justClippedPlane : bool;
  justClippedSphere : bool;
  maxDiff : F;
  maxDiffDepth : float3 F;
  lastAlpha : F;
  samples : nat
}.

(** What the code before the loop hands to it. *)
Record RaySetup := mkSetup {
  ray : Ray F;
  tfar : F;
  tsnear : F;
  tsfar : F;
  tpnear : F;
  nddot : F
}.

Variable cfg : KernelConfig.
Variable a : Args.

Definition opacityThreshold : F := Flit (95 # 100).

(** [t += dist; if (t > tfar) break; pos += step;] *)
Definition advance (rs : RaySetup) (t : F) (pos : float3 F) : F * float3 F * bool :=
  let t := t + dist a in
  if t >? tfar rs then (t, pos, true)
  else (t, add3 pos (scale3 (d (ray rs)) (dist a)), false).

(** The colour work of one turn, from the volume sample to the new [dst]:
    classification, MIP, local illumination, opacity correction,
    pre-multiplication and front-to-back compositing. *)
Definition composite (st : LoopState) (texCoord : float3 F) : float4 F :=
  let pos := s_pos st in
  let dst := s_dst st in
  let sample := volume (t_bpc cfg) texCoord in
  (* Post-classification transfer-function lookup. *)
  let src := tfTexture dev sample in
  let dst :=
    if (t_mipMode cfg =? 1)%Z then
      make_float4 (fmaxf (c_x src) (c_x dst)) (fmaxf (c_y src) (c_y dst))
                  (fmaxf (c_z src) (c_z dst)) (Fofint 1)
    else if (t_mipMode cfg =? 2)%Z then
      make_float4 (fminf (c_x src) (c_x dst)) (fminf (c_y src) (c_y dst))
                  (fminf (c_z src) (c_z dst)) (Fofint 1)
    else dst in
  (* Local illumination. *)
  let src :=
    if t_lighting cfg && (c_w src >? Flit (1 # 10)) then
      let Ka := make_float3 (Fofint 0) (Fofint 0) (Fofint 0) in
      let Kd := make_float3 (Flit (8 # 10)) (Flit (8 # 10)) (Flit (8 # 10)) in
      let Ks := make_float3 (Flit (8 # 10)) (Flit (8 # 10)) (Flit (8 # 10)) in
      let shininess := Fofint 1000 in
      if justClippedPlane st then
        blinnPhong (t_bpc cfg) src texCoord (arg_L a) (arg_H a) Ka Kd Ks
          shininess (Some (planeNormal a))
      else if justClippedSphere st then
        let sphereNormal := normalize dev (sub3 pos (sphereCenter a)) in
        blinnPhong (t_bpc cfg) src texCoord (arg_L a) (arg_H a) Ka Kd Ks
          shininess (Some sphereNormal)
      else
        blinnPhong (t_bpc cfg) src texCoord (arg_L a) (arg_H a) Ka Kd Ks
          shininess None
    else src in
  let src :=
    if t_opacityCorrection cfg then
      make_float4 (c_x src) (c_y src) (c_z src)
                  (Fofint 1 - powf (Fofint 1 - c_w src) (dist a))
    else src in
  let src :=
    if (t_mipMode cfg =? 0)%Z then
      (* pre-multiply alpha *)
      make_float4 (c_x src * c_w src) (c_y src * c_w src)
                  (c_z src * c_w src) (c_w src)
    else src in
  if t_frontToBack cfg && (t_mipMode cfg =? 0)%Z then
    add4 dst (scale4 src (Fofint 1 - c_w dst))
  else dst.

(** One turn of the stepping loop. *)
Definition body (rs : RaySetup) (st : LoopState) : LoopState * bool :=
  let t := s_t st in
  let pos := s_pos st in
  let dst := s_dst st in
  (* Test for clipping. *)
  let clippedPlane :=
    t_clipPlane cfg && (((t <=? tpnear rs) && (nddot rs >=? Fofint 0))
                        || ((t >=? tpnear rs) && (nddot rs <? Fofint 0))) in
  let clippedSphere :=
    if t_useSphereAsProbe cfg
    then t_clipSphere cfg && ((t <? tsnear rs) || (t >? tsfar rs))
    else t_clipSphere cfg && (t >=? tsnear rs) && (t <=? tsfar rs) in
  if clippedPlane || clippedSphere then
    let '(t, pos, brk) := advance rs t pos in
    (mkState t pos dst clippedPlane clippedSphere
             (maxDiff st) (maxDiffDepth st) (lastAlpha st) (samples st), brk)
  else
    let texCoord := calcTexCoord pos (volPos a) (volSizeHalf a) in
    (* Skip over homogeneous space. *)
    if t_spaceSkipping cfg && skipSpace texCoord then
      let '(t, pos, brk) := advance rs t pos in
      (mkState t pos dst (justClippedPlane st) (justClippedSphere st)
               (maxDiff st) (maxDiffDepth st) (lastAlpha st) (samples st), brk)
    else
      let dst := composite st texCoord in
      let n := S (samples st) in
      if t_earlyRayTermination cfg && (c_w dst >? opacityThreshold) then
        (mkState t pos dst false false
                 (maxDiff st) (maxDiffDepth st) (lastAlpha st) n, true)
      else
        let '(t, pos, brk) := advance rs t pos in
        if brk then
          (mkState t pos dst false false
                   (maxDiff st) (maxDiffDepth st) (lastAlpha st) n, true)
        else
          let '(maxDiff', maxDiffDepth') :=
            if (c_w dst - lastAlpha st) >? maxDiff st
            then (c_w dst - lastAlpha st, pos)
            else (maxDiff st, maxDiffDepth st) in
          (mkState t pos dst false false maxDiff' maxDiffDepth' (c_w dst) n,
           false).

Definition pixel (th : Thread) : Z * Z :=
  (uint (fst (blockIdx th) * fst (blockDim th) + fst (threadIdx th)),
   uint (snd (blockIdx th) * snd (blockDim th) + snd (threadIdx th))).

(** [d_output[y * texwidth + x]], in [unsigned int] arithmetic. *)
Definition pixelIndex (x y : Z) : Z := uint (y * texwidth a + x).

Definition primaryRay (x y : Z) : Ray F :=
  let u := (Fofint x / Fofint (width a)) * Fofint 2 - Fofint 1 in
  let v := (Fofint y / Fofint (height a)) * Fofint 2 - Fofint 1 in
  let o := mulPost (c_invViewMatrix dev)
             (make_float4 u v (Fofint (-1)) (Fofint 1)) in
  let d := mulPost (c_invViewMatrix dev)
             (make_float4 u v (Fofint 1) (Fofint 1)) in
  let ray_o := perspectiveDivide o in
  let ray_d := perspectiveDivide d in
  let ray_d := sub3 ray_d ray_o in
  mkRay ray_o (normalize dev ray_d).

Definition probeHit (x y : Z) : bool * F * F :=
  intersectBox (primaryRay x y) (sub3 (probePos a) (probeSizeHalf a))
               (add3 (probePos a) (probeSizeHalf a)).

(** How far a thread gets: out at the viewport test, at the probe box, at
    the probe sphere, or through the stepping loop with its final state. *)
Inductive Outcome :=
| OutsideViewport
| MissedBox
| MissedSphere
| Marched (final : LoopState).

(** The kernel up to the end of the loop.  [junk] is the value of the locals
    [tsnear], [tsfar], [tpnear], [nddot] where the source leaves them
    uninitialised. *)
Definition march (junk : F) (th : Thread) : Outcome :=
  let '(x, y) := pixel th in
  if (width a <=? x)%Z || (height a <=? y)%Z then OutsideViewport
  else
    let ray := primaryRay x y in
    let '(hit, tnear, tfar) := probeHit x y in
    if negb hit then MissedBox
    else
      let tnear :=
        if negb (fmodf tnear (dist a) ==? Fofint 0)
        then dist a * Fofint (Ftoint (tnear / dist a))
        else tnear in
      let tnear := if tnear <? Fofint 0 then Fofint 0 else tnear in
      (* Calc hits with clip sphere. *)
      let '(hitSphere, tsnear, tsfar) :=
        if t_clipSphere cfg
        then intersectSphere ray (sphereCenter a) (sphereRadius a) junk junk
        else (true, junk, junk) in
      if t_clipSphere cfg && (negb hitSphere && t_useSphereAsProbe cfg)
      then MissedSphere
      else
        (* Calc hits with clip plane. *)
        let '(nddot, tpnear) :=
          if t_clipPlane cfg
          then intersectPlane ray (planeNormal a) (planeDist a)
          else (junk, junk) in
        let dst := if (0 <? t_mipMode cfg)%Z then backgroundColor a
                   else splat4 (Fofint 0) in
        let t := tnear in
        let pos := add3 (o ray) (scale3 (d ray) tnear) in
        let pos :=
          if t_jittering cfg then
            let randOffset :=
              randTexture dev
                (Fofint (uint (y * width a + x) mod NUM_RAND_VECS)) in
            add3 pos (xyz randOffset)
          else pos in
        let rs := mkSetup ray tfar tsnear tsfar tpnear nddot in
        let st := mkState t pos dst false false (Fofint 0)
                    (make_float3 (Fofint 0) (Fofint 0) (Fofint 0))
                    (Fofint 0) 0 in
        Marched (fst (loop (body rs) INT_MAX st)).

(** The depth value derived from [maxDiffDepth]. *)
Definition depthValue (maxDiffDepth : float3 F) : Z :=
  (* convert position to window-coordinates *)
  let depthWin := mulPost (c_MvPrMatrix dev)
                    (make_float4 (v_x maxDiffDepth) (v_y maxDiffDepth)
                                 (v_z maxDiffDepth) (Fofint 1)) in
  let depth := perspectiveDivide depthWin in
  (* map and clip on near and far-clipping planes *)
  let z := v_z depth + Fofint 1 in
  let z := z / Fofint 2 in
  let z := if z >? Fofint 1 then Fofint 1
           else if z <? Fofint 0 then Fofint 0 else z in
  match dp a with
  | VV_UCHAR => Ftouint 8 (z * Fofint UCHAR_MAX)
  | VV_USHORT => Ftouint 16 (z * Fofint USHRT_MAX)
  | VV_UINT => Ftouint 32 (z * Fofint UINT_MAX)
  end.

(** The kernel, for one thread. *)
Definition render (junk : F) (th : Thread) (m : Buffers) : Buffers :=
  let '(x, y) := pixel th in
  match march junk th with
  | OutsideViewport => m
  | MissedBox =>
      let m := storeOutput (pixelIndex x y) (make_uchar4 0 0 0 0) m in
      match dp a with
      | VV_UCHAR => storeDepth (pixelIndex x y) 0 m
      | VV_USHORT => storeDepth (pixelIndex x y) 0 m
      | VV_UINT => storeDepth (pixelIndex x y) 0 m
      end
  | MissedSphere =>
      storeOutput (pixelIndex x y) (make_uchar4 0 0 0 0) m
  | Marched st =>
      let m := storeDepth (pixelIndex x y) (depthValue (maxDiffDepth st)) m in
      storeOutput (pixelIndex x y) (rgbaFloatToInt (s_dst st)) m
  end.

End Device.

Arguments Marched {F}.
Arguments OutsideViewport {F}.
Arguments MissedBox {F}.
Arguments MissedSphere {F}.

(** The stores of a thread, as data. *)
Inductive Store :=
| StoreOutput (i : Z) (v : uchar4)
| StoreDepth (i : Z) (v : Z).

Definition applyStore (m : Buffers) (w : Store) : Buffers :=
  match w with
  | StoreOutput i v => storeOutput i v m
  | StoreDepth i v => storeDepth i v m
  end.
Definition applyStores (ws : list Store) (m : Buffers) : Buffers :=
  foldl applyStore m ws.

Definition storesOf {F : Type} {ops : FloatOps F}
  (cfg : KernelConfig) (a : Args) (dev : Constants) (junk : F) (th : Thread)
  : list Store :=
  let '(x, y) := pixel th in
  match march dev cfg a junk th with
  | OutsideViewport => []
  | MissedBox =>
      [StoreOutput (pixelIndex a x y) (make_uchar4 0 0 0 0);
       StoreDepth (pixelIndex a x y) 0]
  | MissedSphere => [StoreOutput (pixelIndex a x y) (make_uchar4 0 0 0 0)]
  | Marched st =>
      [StoreDepth (pixelIndex a x y) (depthValue dev a (maxDiffDepth st));
       StoreOutput (pixelIndex a x y) (rgbaFloatToInt (s_dst st))]
  end.

(** *** Loops *)

Lemma loop_invariant {S : Type} (P : S -> Prop) (body : S -> S * bool) :
  (forall s, P s -> P (fst (body s))) ->
  forall n s, P s -> P (fst (loop body n s)).
Proof.
  intros Hstep. induction n as [p IH|p IH|]; intros s Hs; cbn [loop].
  - pose proof (Hstep s Hs) as H0. destruct (body s) as [s0 b0].
    cbn [fst] in H0. destruct b0; [exact H0|].
    pose proof (IH s0 H0) as H1. destruct (loop body p s0) as [s1 b1].
    cbn [fst] in H1. destruct b1; [exact H1|]. apply IH. exact H1.
  - pose proof (IH s Hs) as H1. destruct (loop body p s) as [s1 b1].
    cbn [fst] in H1. destruct b1; [exact H1|]. apply IH. exact H1.
  - apply Hstep. exact Hs.
Qed.

Lemma loop_ext {S : Type} (body1 body2 : S -> S * bool) :
  (forall s, body1 s = body2 s) ->
  forall n s, loop body1 n s = loop body2 n s.
Proof.
  intros Hext. induction n as [p IH|p IH|]; intros s; cbn [loop].
  - rewrite Hext. destruct (body2 s) as [s0 [|]]; [reflexivity|].
    rewrite IH. destruct (loop body2 p s0) as [s1 [|]]; [reflexivity|apply IH].
  - rewrite IH. destruct (loop body2 p s) as [s1 [|]]; [reflexivity|apply IH].
  - apply Hext.
Qed.

Arguments loop : simpl never.

Lemma store_same {A : Type} (m : Z -> A) i v : store m i v i = v.
Proof. unfold store. rewrite Z.eqb_refl. reflexivity. Qed.

Section Properties.

Context {F : Type} {ops : FloatOps F}.
Variable cfg : KernelConfig.
Variable a : Args (F := F).
Variable dev : Constants (F := F).

Lemma render_stores junk th m :
  render dev cfg a junk th m = applyStores (storesOf cfg a dev junk th) m.
Proof.
  unfold render, storesOf. destruct (pixel th) as [x y].
  destruct (march dev cfg a junk th); try reflexivity.
  destruct (dp a); reflexivity.
Qed.

(** The loop does not read the sphere and plane locals of a kernel compiled
    without the sphere, respectively without the plane. *)
Lemma body_ignores_unset r tf j1 j2 j3 j4 k1 k2 k3 k4 st :
  (t_clipSphere cfg = false \/ (j1 = k1 /\ j2 = k2)) ->
  (t_clipPlane cfg = false \/ (j3 = k3 /\ j4 = k4)) ->
  body dev cfg a (mkSetup r tf j1 j2 j3 j4) st
  = body dev cfg a (mkSetup r tf k1 k2 k3 k4) st.
Proof.
  intros Hs Hp. unfold body, advance. cbn [tsnear tsfar tpnear nddot tfar ray].
  destruct Hs as [Hs|[-> ->]], Hp as [Hp|[-> ->]];
    rewrite ?Hs, ?Hp; cbn [andb orb]; try reflexivity;
    destruct (t_useSphereAsProbe cfg); reflexivity.
Qed.

Lemma intersectSphere_ignores_entry_values r c rad j1 j2 k1 k2 :
  intersectSphere r c rad j1 j2 = intersectSphere r c rad k1 k2.
Proof.
  unfold intersectSphere, solveQuadraticEquation.
  match goal with |- context [if ?c then _ else _] => destruct c end;
    reflexivity.
Qed.

Lemma march_ignores_junk junk1 junk2 th :
  march dev cfg a junk1 th = march dev cfg a junk2 th.
Proof.
  unfold march. destruct (pixel th) as [x y].
  destruct ((width a <=? x)%Z || (height a <=? y)%Z); [reflexivity|].
  destruct (probeHit dev a x y) as [[hit tnear] tfar].
  destruct hit; [|reflexivity]. cbn [negb].
  assert (L : forall r tf j1 j2 j3 j4 k1 k2 k3 k4 st,
             (t_clipSphere cfg = false \/ (j1 = k1 /\ j2 = k2)) ->
             (t_clipPlane cfg = false \/ (j3 = k3 /\ j4 = k4)) ->
             Marched (fst (loop (body dev cfg a (mkSetup r tf j1 j2 j3 j4))
                             INT_MAX st))
             = Marched (fst (loop (body dev cfg a (mkSetup r tf k1 k2 k3 k4))
                               INT_MAX st))).
  { intros r tf j1 j2 j3 j4 k1 k2 k3 k4 st Hs Hp.
    rewrite (loop_ext (body dev cfg a (mkSetup r tf j1 j2 j3 j4))
                      (body dev cfg a (mkSetup r tf k1 k2 k3 k4)));
      [reflexivity|].
    intros s. apply body_ignores_unset; assumption. }
  destruct (t_clipSphere cfg) eqn:Hs; cbn [andb].
  - rewrite (intersectSphere_ignores_entry_values _ _ _ junk1 junk1 junk2 junk2).
    destruct (intersectSphere _ _ _ junk2 junk2) as [[hs tsn] tsf].
    destruct (negb hs && t_useSphereAsProbe cfg); [reflexivity|].
    destruct (t_clipPlane cfg) eqn:Hp.
    + destruct (intersectPlane _ _ _) as [nd tp]. apply L; auto.
    + apply L; auto.
  - destruct (t_clipPlane cfg) eqn:Hp.
    + destruct (intersectPlane _ _ _) as [nd tp]. apply L; auto.
    + apply L; auto.
Qed.

(** C9. The stores of a thread are a function of the kernel specialisation,
    the launch arguments, the device constants and textures and the thread
    index alone.  Two executions that agree on these perform the same
    stores of the same values, whatever the uninitialised locals and the
    previous contents of the two buffers were: every cell of either buffer
    holds the same value after both runs, or was written by neither. *)
Theorem render_is_deterministic (th : Thread) (junk1 junk2 : F)
  (m1 m2 : Buffers) :
  let r1 := render dev cfg a junk1 th m1 in
  let r2 := render dev cfg a junk2 th m2 in
  (exists ws, r1 = applyStores ws m1 /\ r2 = applyStores ws m2) /\
  (forall i, d_output r1 i = d_output r2 i
             \/ (d_output r1 i = d_output m1 i /\ d_output r2 i = d_output m2 i)) /\
  (forall i, d_depth r1 i = d_depth r2 i
             \/ (d_depth r1 i = d_depth m1 i /\ d_depth r2 i = d_depth m2 i)).
Proof.
  intros r1 r2.
  assert (E : exists ws, r1 = applyStores ws m1 /\ r2 = applyStores ws m2).
  { exists (storesOf cfg a dev junk1 th). subst r1 r2.
    rewrite !render_stores. unfold storesOf.
    rewrite (march_ignores_junk junk2 junk1). split; reflexivity. }
  split; [exact E|].
  destruct E as (ws & E1 & E2). rewrite E1, E2. clear E1 E2 r1 r2.
  revert m1 m2. induction ws as [|w ws IH]; intros m1 m2.
  - split; intros i; right; split; reflexivity.
  - change (applyStores (w :: ws) m1) with (applyStores ws (applyStore m1 w)).
    change (applyStores (w :: ws) m2) with (applyStores ws (applyStore m2 w)).
    destruct (IH (applyStore m1 w) (applyStore m2 w)) as [IHo IHd].
    split; intros i.
    + destruct (IHo i) as [E|[E1 E2]]; [left; exact E|].
      rewrite E1, E2. destruct w as [j v|j v]; cbn; [|right; split; reflexivity].
      unfold store. destruct (i =? j)%Z;
        [left; reflexivity|right; split; reflexivity].
    + destruct (IHd i) as [E|[E1 E2]]; [left; exact E|].
      rewrite E1, E2. destruct w as [j v|j v]; cbn; [right; split; reflexivity|].
      unfold store. destruct (i =? j)%Z;
        [left; reflexivity|right; split; reflexivity].
Qed.

(** C1. A thread inside the viewport whose ray misses the probe box
    ([intersectBox] returns false) stores [(0,0,0,0)] at
    [d_output[y * texwidth + x]], stores 0 at the same index of the depth
    buffer (for each of the three depth precisions), and does nothing else:
    the buffers are otherwise unchanged, and the outcome is the same for
    every volume, transfer-function and jitter texture and every projection
    matrix, none of which is read. *)
Theorem miss_stores_zero_and_returns (th : Thread) (junk : F) (m : Buffers)
  (x y : Z) :
  pixel th = (x, y) -> (x < width a)%Z -> (y < height a)%Z ->
  fst (fst (probeHit dev a x y)) = false ->
  let i := pixelIndex a x y in
  let r := render dev cfg a junk th m in
  march dev cfg a junk th = MissedBox /\
  r = storeDepth i 0 (storeOutput i (make_uchar4 0 0 0 0) m) /\
  d_output r i = make_uchar4 0 0 0 0 /\
  d_depth r i = 0%Z /\
  (forall j, j <> i -> d_output r j = d_output m j /\ d_depth r j = d_depth m j) /\
  (forall mvpr vol8 vol16 tf rand,
     render {| c_invViewMatrix := c_invViewMatrix dev; c_MvPrMatrix := mvpr;
               volTexture8 := vol8; volTexture16 := vol16; tfTexture := tf;
               randTexture := rand; normalize := normalize dev |}
            cfg a junk th m = r) /\
  ((0 <= y * texwidth a + x < 2 ^ 32)%Z -> i = (y * texwidth a + x)%Z).
Proof.
  intros Hpx Hx Hy Hmiss i r.
  assert (M : forall dev', probeHit dev' a x y = probeHit dev a x y ->
                march dev' cfg a junk th = MissedBox).
  { intros dev' E. unfold march. rewrite Hpx.
    replace ((width a <=? x)%Z || (height a <=? y)%Z) with false
      by (symmetry; apply orb_false_iff; split; apply Z.leb_gt; assumption).
    rewrite E. destruct (probeHit dev a x y) as [[hit tn] tf].
    cbn [fst] in Hmiss. subst hit. reflexivity. }
  assert (R : forall dev', probeHit dev' a x y = probeHit dev a x y ->
                render dev' cfg a junk th m
                = storeDepth i 0 (storeOutput i (make_uchar4 0 0 0 0) m)).
  { intros dev' E. unfold render. rewrite Hpx, (M dev' E).
    destruct (dp a); reflexivity. }
  assert (Rr : r = storeDepth i 0 (storeOutput i (make_uchar4 0 0 0 0) m))
    by (apply R; reflexivity).
  split; [apply M; reflexivity|]. split; [exact Rr|].
  rewrite Rr. cbn [d_output d_depth storeDepth storeOutput].
  split; [apply store_same|]. split; [apply store_same|].
  split; [|split].
  - intros j Hj. unfold store.
    destruct (Z.eqb_spec j i); [contradiction|]. split; reflexivity.
  - intros mvpr vol8 vol16 tf rand. apply R. reflexivity.
  - intros Hr. unfold i, pixelIndex, uint. apply Z.mod_small. exact Hr.
Qed.

(** The destination colour on entry to the loop. *)
Definition initialDst : float4 F :=
  if (0 <? t_mipMode cfg)%Z then backgroundColor a else splat4 (Fofint 0).

(** A property of the loop state that holds on entry to the loop and is kept
    by every turn holds for the state the loop ends in. *)
Lemma march_invariant (P : LoopState -> Prop) :
  (forall rs st, P st -> P (fst (body dev cfg a rs st))) ->
  (forall t pos,
     P (mkState t pos initialDst false false (Fofint 0)
          (make_float3 (Fofint 0) (Fofint 0) (Fofint 0)) (Fofint 0) 0)) ->
  forall junk th st, march dev cfg a junk th = Marched st -> P st.
Proof.
  intros Hstep Hinit junk th st. unfold march.
  destruct (pixel th) as [x y].
  destruct ((width a <=? x)%Z || (height a <=? y)%Z); [discriminate|].
  destruct (probeHit dev a x y) as [[hit tnear] tfar].
  destruct hit; [|discriminate]. cbn [negb].
  destruct (if t_clipSphere cfg then _ else _) as [[hs tsn] tsf].
  destruct (t_clipSphere cfg && _); [discriminate|].
  destruct (if t_clipPlane cfg then _ else _) as [nd tp].
  intros E. injection E as <-.
  apply loop_invariant; [apply Hstep|apply Hinit].
Qed.

(** A turn either leaves [dst] and the sample count alone (a clipped or
    skipped position) or composites one more sample. *)
Lemma body_cases rs st :
  let st' := fst (body dev cfg a rs st) in
  (s_dst st' = s_dst st /\ samples st' = samples st) \/
  (exists texCoord,
     s_dst st' = composite dev cfg a st texCoord /\
     samples st' = S (samples st)).
Proof.
  unfold body.
  match goal with |- context [if ?c then _ else _] => destruct c end.
  - destruct (advance a rs (s_t st) (s_pos st)) as [[t' pos'] brk].
    left. split; reflexivity.
  - match goal with |- context [if ?c then _ else _] => destruct c end.
    + destruct (advance a rs (s_t st) (s_pos st)) as [[t' pos'] brk].
      left. split; reflexivity.
    + right. eexists.
      match goal with |- context [if ?c then _ else _] => destruct c end;
        [split; reflexivity|].
      destruct (advance a rs (s_t st) (s_pos st)) as [[t' pos'] brk].
      destruct brk; [split; reflexivity|].
      match goal with |- context [if ?c then _ else _] => destruct c end;
        split; reflexivity.
Qed.

(** In MIP mode MAX the composited alpha is the constant 1. *)
Lemma composite_mip_max st tc :
  t_mipMode cfg = 1%Z -> c_w (composite dev cfg a st tc) = Fofint 1.
Proof.
  intros Hmip. unfold composite. rewrite Hmip.
  change (1 =? 1)%Z with true. change (1 =? 0)%Z with false.
  rewrite andb_false_r. reflexivity.
Qed.

Lemma mip_max_body rs st :
  t_mipMode cfg = 1%Z ->
  ((1 <= samples st)%nat -> c_w (s_dst st) = Fofint 1) ->
  (1 <= samples (fst (body dev cfg a rs st)))%nat ->
  c_w (s_dst (fst (body dev cfg a rs st))) = Fofint 1.
Proof.
  intros Hmip Hst.
  destruct (body_cases rs st) as [[-> ->]|(tc & -> & _)].
  - exact Hst.
  - intros _. apply composite_mip_max. exact Hmip.
Qed.

Lemma mip_max_march junk th st :
  t_mipMode cfg = 1%Z -> march dev cfg a junk th = Marched st ->
  (1 <= samples st)%nat -> c_w (s_dst st) = Fofint 1.
Proof.
  intros Hmip. revert junk th st.
  apply (march_invariant
           (fun st => (1 <= samples st)%nat -> c_w (s_dst st) = Fofint 1)).
  - intros rs st. apply mip_max_body. exact Hmip.
  - intros t pos. cbn [samples]. lia.
Qed.

Lemma render_marched junk th m st x y :
  pixel th = (x, y) -> march dev cfg a junk th = Marched st ->
  d_output (render dev cfg a junk th m) (pixelIndex a x y)
  = rgbaFloatToInt (s_dst st).
Proof.
  intros Hpx Hm. unfold render. rewrite Hpx, Hm.
  cbn [d_output storeOutput]. apply store_same.
Qed.

End Properties.

(** *** Threads of one launch

    Buffers are compared cell by cell. *)
Definition sameBuffers (m m' : Buffers) : Prop :=
  forall i, d_output m i = d_output m' i /\ d_depth m i = d_depth m' i.

Definition target (w : Store) : Z :=
  match w with StoreOutput i _ => i | StoreDepth i _ => i end.

Lemma applyStore_same w m m' :
  sameBuffers m m' -> sameBuffers (applyStore m w) (applyStore m' w).
Proof.
  intros E i. destruct (E i) as [Eo Ed].
  destruct w as [j v|j v]; cbn; unfold store; destruct (i =? j); auto.
Qed.

Lemma applyStores_same ws : forall m m',
  sameBuffers m m' -> sameBuffers (applyStores ws m) (applyStores ws m').
Proof.
  induction ws as [|w ws IH]; intros m m' E; [exact E|].
  apply IH, applyStore_same, E.
Qed.

Lemma applyStore_swap w1 w2 m :
  target w1 <> target w2 ->
  sameBuffers (applyStore (applyStore m w1) w2) (applyStore (applyStore m w2) w1).
Proof.
  intros Hne i.
  destruct w1 as [j1 v1|j1 v1], w2 as [j2 v2|j2 v2]; cbn in *; unfold store;
    destruct (Z.eqb_spec i j1), (Z.eqb_spec i j2); subst; auto; contradiction.
Qed.

Lemma sameBuffers_refl m : sameBuffers m m.
Proof. intros i. auto. Qed.
Lemma sameBuffers_trans m1 m2 m3 :
  sameBuffers m1 m2 -> sameBuffers m2 m3 -> sameBuffers m1 m3.
Proof. intros E1 E2 i. destruct (E1 i), (E2 i). split; congruence. Qed.

Lemma applyStores_swap_one w ws : forall m,
  (forall w', w' ∈ ws -> target w <> target w') ->
  sameBuffers (applyStores ws (applyStore m w)) (applyStore (applyStores ws m) w).
Proof.
  induction ws as [|w' ws IH]; intros m Hd; [apply sameBuffers_refl|].
  change (applyStores (w' :: ws) ?m) with (applyStores ws (applyStore m w')).
  eapply sameBuffers_trans; [|apply IH; intros; apply Hd; right; assumption].
  apply applyStores_same, applyStore_swap, Hd. left.
Qed.

Lemma applyStores_swap ws1 : forall ws2 m,
  (forall w1 w2, w1 ∈ ws1 -> w2 ∈ ws2 -> target w1 <> target w2) ->
  sameBuffers (applyStores ws2 (applyStores ws1 m))
              (applyStores ws1 (applyStores ws2 m)).
Proof.
  induction ws1 as [|w ws1 IH]; intros ws2 m Hd; [apply sameBuffers_refl|].
  change (applyStores (w :: ws1) ?m) with (applyStores ws1 (applyStore m w)).
  eapply sameBuffers_trans;
    [apply IH; intros; apply Hd; [right|]; assumption|].
  apply applyStores_same, applyStores_swap_one.
  intros w' Hw'. apply Hd; [left|exact Hw'].
Qed.

(** A launch runs the threads of the grid in some order.  While the image
    is at least as wide as the viewport and its indices do not wrap, threads
    of different pixels store to different cells, and the order is
    irrelevant. *)
Section Launch.
Context {F : Type} {ops : FloatOps F}.
Variable cfg : KernelConfig.
Variable a : Args (F := F).
Variable dev : Constants (F := F).

Definition launch (junk : Thread -> F) (sched : list Thread) (m : Buffers)
  : Buffers :=
  foldl (fun m th => render dev cfg a (junk th) th m) m sched.

Hypothesis texwidth_fits : width a <= texwidth a.
Hypothesis no_wrap : height a * texwidth a <= 2 ^ 32.

Lemma pixel_nonneg th : 0 <= (pixel th).1 /\ 0 <= (pixel th).2.
Proof.
  unfold pixel, uint. cbn.
  split; apply Z.mod_pos_bound; reflexivity.
Qed.

Lemma storesOf_target junk th w :
  w ∈ storesOf cfg a dev junk th ->
  target w = pixelIndex a (pixel th).1 (pixel th).2 /\
  (pixel th).1 < width a /\ (pixel th).2 < height a.
Proof.
  unfold storesOf, march. destruct (pixel th) as [x y]. cbn [fst snd].
  destruct ((width a <=? x) || (height a <=? y))%bool eqn:V.
  - intros H. inversion H.
  - apply orb_false_iff in V as [V1 V2].
    apply Z.leb_gt in V1, V2. intros H. split; [|split; assumption].
    revert H.
    match goal with |- context [match ?o with _ => _ end] => destruct o end;
      intros H; repeat (apply elem_of_cons in H as [->|H]; [reflexivity|]);
      inversion H.
Qed.

Lemma pixelIndex_inj x y x' y' :
  0 <= x < width a -> 0 <= y < height a ->
  0 <= x' < width a -> 0 <= y' < height a ->
  pixelIndex a x y = pixelIndex a x' y' -> (x, y) = (x', y').
Proof.
  intros Hx Hy Hx' Hy' E. unfold pixelIndex, uint in E.
  rewrite !Z.mod_small in E by nia.
  assert (y = y' /\ x = x') as [-> ->]; [|reflexivity].
  destruct (Z.div_mod_unique (texwidth a) y y' x x') as [E1 E2]; try lia.
Qed.

Lemma render_same junk junk' th m m' :
  sameBuffers m m' ->
  sameBuffers (render dev cfg a junk th m) (render dev cfg a junk' th m').
Proof.
  intros E. rewrite !render_stores. unfold storesOf.
  rewrite (march_ignores_junk cfg a dev junk' junk).
  apply applyStores_same, E.
Qed.

Lemma render_commute junk1 junk2 th1 th2 m :
  pixel th1 <> pixel th2 ->
  sameBuffers
    (render dev cfg a junk1 th1 (render dev cfg a junk2 th2 m))
    (render dev cfg a junk2 th2 (render dev cfg a junk1 th1 m)).
Proof.
  intros Hne. rewrite !render_stores. apply applyStores_swap.
  intros w2 w1 H2 H1.
  apply storesOf_target in H1 as (T1 & X1 & Y1).
  apply storesOf_target in H2 as (T2 & X2 & Y2).
  rewrite T1, T2. intros E. apply Hne.
  destruct (pixel_nonneg th1), (pixel_nonneg th2).
  rewrite (surjective_pairing (pixel th1)), (surjective_pairing (pixel th2)).
  symmetry. apply pixelIndex_inj; auto; lia.
Qed.

Lemma launch_same junk junk' sched : forall m m',
  sameBuffers m m' ->
  sameBuffers (launch junk sched m) (launch junk' sched m').
Proof.
  induction sched as [|th sched IH]; intros m m' E; [exact E|].
  apply IH, render_same, E.
Qed.

Lemma launch_order_irrelevant junk junk' sched sched' :
  Permutation sched sched' -> NoDup (map pixel sched) ->
  forall m m', sameBuffers m m' ->
  sameBuffers (launch junk sched m) (launch junk' sched' m').
Proof.
  induction 1 as [|th l l' Hp IH|th1 th2 l|l1 l2 l3 Hp1 IH1 Hp2 IH2];
    intros Hnd m m' E.
  - exact E.
  - cbn in Hnd. apply NoDup_cons in Hnd as [_ Hnd].
    apply IH; [exact Hnd|]. apply render_same, E.
  - cbn in Hnd. apply NoDup_cons in Hnd as [Hin _].
    change (launch junk (th2 :: th1 :: l) m)
      with (launch junk l (render dev cfg a (junk th1) th1
                             (render dev cfg a (junk th2) th2 m))).
    change (launch junk' (th1 :: th2 :: l) m')
      with (launch junk' l (render dev cfg a (junk' th2) th2
                              (render dev cfg a (junk' th1) th1 m'))).
    apply launch_same.
    eapply sameBuffers_trans.
    + apply render_commute. intros Heq. apply Hin. rewrite <- Heq. left.
    + apply render_same, render_same, E.
  - eapply sameBuffers_trans; [apply (IH1 Hnd m m), sameBuffers_refl|].
    eapply sameBuffers_trans;
      [apply (launch_same junk' junk l2 m m), sameBuffers_refl|].
    apply IH2; [|exact E].
    assert (Hm : map pixel l1 ≡ₚ map pixel l2) by apply Permutation_map, Hp1.
    rewrite <- Hm. exact Hnd.
Qed.

End Launch.

(** *** More on the stepping loop *)

(** The specialisation [cfg] with another [t_spaceSkipping]. *)
Definition setSpaceSkipping (b : bool) (cfg : KernelConfig) : KernelConfig :=
  mkKernel (t_earlyRayTermination cfg) b (t_frontToBack cfg) (t_bpc cfg)
    (t_mipMode cfg) (t_lighting cfg) (t_opacityCorrection cfg)
    (t_jittering cfg) (t_clipPlane cfg) (t_clipSphere cfg)
    (t_useSphereAsProbe cfg).

Section Stepping.
Context {F : Type} {ops : FloatOps F}.
Local Open Scope fl_scope.
Variable cfg : KernelConfig.
Variable a : Args (F := F).
Variable dev : Constants (F := F).

Lemma body_setSpaceSkipping b rs st :
  body dev (setSpaceSkipping b cfg) a rs st = body dev cfg a rs st.
Proof.
  unfold body, skipSpace.
  destruct b, (t_spaceSkipping cfg); reflexivity.
Qed.

Lemma march_setSpaceSkipping b junk th :
  march dev (setSpaceSkipping b cfg) a junk th = march dev cfg a junk th.
Proof.
  assert (L : forall rs st,
             Marched (fst (loop (body dev (setSpaceSkipping b cfg) a rs)
                             INT_MAX st))
             = Marched (fst (loop (body dev cfg a rs) INT_MAX st))).
  { intros rs st.
    rewrite (loop_ext (body dev (setSpaceSkipping b cfg) a rs)
                      (body dev cfg a rs) (body_setSpaceSkipping b rs)).
    reflexivity. }
  unfold march.
  destruct (pixel th) as [x y].
  destruct ((width a <=? x)%Z || (height a <=? y)%Z); cbn iota;
    [reflexivity|].
  destruct (probeHit dev a x y) as [[hit tnear] tfar].
  destruct hit; cbn [negb]; cbn iota; [|reflexivity].
  cbn [setSpaceSkipping t_clipSphere t_useSphereAsProbe
    t_clipPlane t_mipMode t_jittering].
  destruct (if t_clipSphere cfg then _ else _) as [[hs tsn] tsf].
  destruct (t_clipSphere cfg && _); cbn iota; [reflexivity|].
  destruct (if t_clipPlane cfg then _ else _) as [nd tp].
  apply L.
Qed.

(** X7. The kernel never skips a position: [skipSpace] returns false
    whatever the position, so the template argument [t_spaceSkipping] has
    no effect on what a thread stores. *)
Theorem space_skipping_flag_is_inert (b : bool) (junk : F) (th : Thread)
  (m : Buffers) :
  render dev (setSpaceSkipping b cfg) a junk th m = render dev cfg a junk th m.
Proof.
  unfold render. rewrite march_setSpaceSkipping. reflexivity.
Qed.


(** X9. A turn of the stepping loop breaks out only past the far end of the
    ray ([t > tfar] after the step) or, in a kernel with early ray
    termination, right after compositing a sample that leaves the
    accumulated alpha above the opacity threshold 0.95. *)
Theorem loop_exit_reasons (rs : RaySetup) (st : LoopState) :
  snd (body dev cfg a rs st) = true ->
  let st' := fst (body dev cfg a rs st) in
  (s_t st' >? tfar rs) = true \/
  (t_earlyRayTermination cfg = true /\
   samples st' = S (samples st) /\
   (c_w (s_dst st') >? opacityThreshold) = true).
Proof.
  intros H st'. subst st'. revert H. unfold body, advance.
  repeat match goal with
         | |- context [if ?c then _ else _] =>
             lazymatch c with
             | context [if _ then _ else _] => fail
             | _ => destruct c eqn:?
             end
         end; cbn [fst snd s_t s_dst samples]; intros H;
    try discriminate; try (left; assumption).
  all: right; repeat split;
    match goal with
    | H : _ && _ = true |- _ => apply andb_true_iff in H as [? ?]; assumption
    end.
Qed.

(** X10. In a kernel with early ray termination, a turn that composites a
    sample and leaves the accumulated alpha above 0.95 is the last one. *)
Theorem early_ray_termination_breaks (rs : RaySetup) (st : LoopState) :
  t_earlyRayTermination cfg = true ->
  let st' := fst (body dev cfg a rs st) in
  samples st' = S (samples st) ->
  (c_w (s_dst st') >? opacityThreshold) = true ->
  snd (body dev cfg a rs st) = true.
Proof.
  intros Hert st'. subst st'. unfold body, advance. rewrite Hert.
  cbn [andb].
  repeat match goal with
         | |- context [if ?c then _ else _] =>
             lazymatch c with
             | context [if _ then _ else _] => fail
             | _ => destruct c eqn:?
             end
         end; cbn [fst snd s_t s_dst samples]; intros Hs Hw;
    try reflexivity; try lia; congruence.
Qed.

(** In MIP mode MIN the composited alpha is the constant 1. *)
Lemma composite_mip_min st tc :
  t_mipMode cfg = 2%Z -> c_w (composite dev cfg a st tc) = Fofint 1.
Proof.
  intros Hmip. unfold composite. rewrite Hmip.
  change (2 =? 1)%Z with false. change (2 =? 2)%Z with true.
  change (2 =? 0)%Z with false.
  rewrite andb_false_r. reflexivity.
Qed.

Lemma mip_min_march junk th st :
  t_mipMode cfg = 2%Z -> march dev cfg a junk th = Marched st ->
  (1 <= samples st)%nat -> c_w (s_dst st) = Fofint 1.
Proof.
  intros Hmip. revert junk th st.
  apply (march_invariant cfg a dev
           (fun st => (1 <= samples st)%nat -> c_w (s_dst st) = Fofint 1)).
  - intros rs st Hst.
    destruct (body_cases cfg a dev rs st) as [[-> ->]|(tc & -> & _)].
    + exact Hst.
    + intros _. apply composite_mip_min. exact Hmip.
  - intros t pos. cbn [samples]. lia.
Qed.

(** Without front-to-back compositing a NONE kernel composites nothing. *)
Lemma composite_back_to_front st tc :
  t_mipMode cfg = 0%Z -> t_frontToBack cfg = false ->
  composite dev cfg a st tc = s_dst st.
Proof.
  intros Hmip Hf. unfold composite. rewrite Hmip, Hf.
  change (0 =? 1)%Z with false. change (0 =? 2)%Z with false.
  reflexivity.
Qed.

(** X11. A NONE kernel instantiated with [t_frontToBack = false] (the
    back-to-front formula is commented out in the source) never changes
    [dst]: every ray that is marched ends with the initial
    [(0, 0, 0, 0)], whatever the volume and the transfer function. *)
Theorem back_to_front_composites_nothing (junk : F) (th : Thread)
  (m : Buffers) (st : LoopState) (x y : Z) :
  t_mipMode cfg = 0%Z -> t_frontToBack cfg = false ->
  pixel th = (x, y) -> march dev cfg a junk th = Marched st ->
  s_dst st = splat4 (Fofint 0) /\
  d_output (render dev cfg a junk th m) (pixelIndex a x y)
  = rgbaFloatToInt (splat4 (Fofint 0)).
Proof.
  intros Hmip Hf Hpx Hm.
  assert (E : s_dst st = splat4 (Fofint 0)).
  { revert Hm.
    apply (march_invariant cfg a dev (fun st => s_dst st = splat4 (Fofint 0))).
    - intros rs st0 H0.
      destruct (body_cases cfg a dev rs st0) as [[-> _]|(tc & -> & _)].
      + exact H0.
      + rewrite composite_back_to_front; assumption.
    - intros t pos. unfold initialDst. rewrite Hmip. reflexivity. }
  split; [exact E|].
  rewrite (render_marched cfg a dev junk th m st x y Hpx Hm), E. reflexivity.
Qed.

End Stepping.

(** *** The kernel in single precision

    [powf] and [fmodf] are the device's library functions, taken as
    parameters. *)
Definition binary32_ops
  (powf fmodf : Binary32.float -> Binary32.float -> Binary32.float)
  : FloatOps Binary32.float :=
  {| Fofint := Binary32.of_int;
     Flit := Binary32.lit;
     Fadd := Binary32.add;
     Fsub := Binary32.sub;
     Fmul := Binary32.mul;
     Fdiv := Binary32.div;
     Flt := Binary32.ltb;
     Fle := Binary32.leb;
     Feq := Binary32.eqb;
     fminf := Binary32.fminf;
     fmaxf := Binary32.fmaxf;
     fabsf := SFabs;
     __fsqrt_rn := Binary32.sqrt;
     powf := powf;
     fmodf := fmodf;
     Ftoint := Binary32.to_int_range (- 2 ^ 31) (2 ^ 31 - 1);
     Ftouint := fun bits => Binary32.to_int_range 0 (2 ^ bits - 1) |}.

(** *** Front-to-back accumulation, in single precision

    The accumulated alpha is [dst.w + src.w * (1 - dst.w)], each operation
    rounded to nearest even.  [Rounding] shows that it stays a number of
    the unit interval. *)
Section Accumulation.

Variables powf fmodf : Binary32.float -> Binary32.float -> Binary32.float.
Variable cfg : KernelConfig.
Variable a : Args (F := Binary32.float).
Variable dev : Constants (F := Binary32.float).

Let ops : FloatOps Binary32.float := binary32_ops powf fmodf.
Local Existing Instance ops.

Hypothesis mode_none : t_mipMode cfg = 0%Z.
Hypothesis tf_alpha_in_unit :
  forall s, Rounding.in_unit (c_w (tfTexture dev s)) = true.
Hypothesis powf_in_unit :
  t_opacityCorrection cfg = true ->
  forall b, Rounding.in_unit b = true ->
            Rounding.in_unit (powf b (dist a)) = true.

Lemma composite_none st tc :
  Rounding.in_unit (c_w (s_dst st)) = true ->
  Rounding.in_unit (c_w (composite dev cfg a st tc)) = true.
Proof.
  intros Hd. unfold composite. rewrite mode_none.
  change (0 =? 1)%Z with false. change (0 =? 2)%Z with false.
  change (0 =? 0)%Z with true. rewrite andb_true_r.
  set (src0 := tfTexture dev (volume dev (t_bpc cfg) tc)).
  set (src1 := if t_lighting cfg && _ then _ else src0).
  assert (H1 : c_w src1 = c_w src0).
  { subst src1. destruct (t_lighting cfg && _); [|reflexivity].
    destruct (justClippedPlane st); [reflexivity|].
    destruct (justClippedSphere st); reflexivity. }
  assert (H0 : Rounding.in_unit (c_w src0) = true) by apply tf_alpha_in_unit.
  set (src2 := if t_opacityCorrection cfg then _ else src1).
  assert (H2 : Rounding.in_unit (c_w src2) = true).
  { subst src2. destruct (t_opacityCorrection cfg) eqn:Hoc.
    - cbn [c_w]. rewrite H1.
      apply Rounding.sub_one_in_unit, powf_in_unit; [reflexivity|].
      apply Rounding.sub_one_in_unit. exact H0.
    - rewrite H1. exact H0. }
  destruct (t_frontToBack cfg); [|exact Hd].
  cbn [add4 scale4 c_w].
  apply Rounding.accumulate_in_unit; assumption.
Qed.

Lemma body_none rs st :
  Rounding.in_unit (c_w (s_dst st)) = true ->
  Rounding.in_unit (c_w (s_dst (fst (body dev cfg a rs st)))) = true.
Proof.
  intros Hd.
  destruct (body_cases cfg a dev rs st) as [[-> _]|(tc & -> & _)].
  - exact Hd.
  - apply composite_none. exact Hd.
Qed.

(** C2. On IEEE single precision, in NONE compositing ([t_mipMode = 0]),
    with transfer-function alphas that are numbers of the unit interval
    (and a [powf] that keeps the unit interval when opacity correction is
    on), with or without lighting, the accumulated [dst.w] is a number of
    the unit interval after any number of turns of the loop, hence for the
    state the kernel ends in: it never exceeds 1.  The alpha byte stored by
    [rgbaFloatToInt] is at most 255 and is 255 exactly when the clamped
    alpha equals 1. *)
Theorem none_alpha_never_exceeds_one :
  (forall rs n st0, Rounding.in_unit (c_w (s_dst st0)) = true ->
     Rounding.in_unit
       (c_w (s_dst (fst (loop (body dev cfg a rs) n st0)))) = true) /\
  (forall junk th m st x y,
     pixel th = (x, y) -> march dev cfg a junk th = Marched st ->
     Rounding.in_unit (c_w (s_dst st)) = true /\
     let byte :=
       b_w (d_output (render dev cfg a junk th m) (pixelIndex a x y)) in
     (0 <= byte <= 255)%Z /\
     (byte = 255%Z
      <-> Binary32.eqb (clamp (c_w (s_dst st))) Binary32.one = true)).
Proof.
  split.
  - intros rs n st0.
    apply (loop_invariant
             (fun st => Rounding.in_unit (c_w (s_dst st)) = true)).
    intros st. apply body_none.
  - intros junk th m st x y Hpx Hm.
    assert (Hu : Rounding.in_unit (c_w (s_dst st)) = true).
    { revert Hm.
      apply (march_invariant cfg a dev
               (fun st => Rounding.in_unit (c_w (s_dst st)) = true)).
      - apply body_none.
      - intros t pos. unfold initialDst. rewrite mode_none. reflexivity. }
    split; [exact Hu|].
    rewrite (render_marched cfg a dev junk th m st x y Hpx Hm).
    cbn [rgbaFloatToInt b_w].
    apply Rounding.in_unit_Unit in Hu.
    destruct (Rounding.clamp_unit _ Hu) as [Hc Hv].
    destruct (Rounding.byte_of_unit _ Hc) as [Hr Hb].
    split; [exact Hr|exact Hb].
Qed.

End Accumulation.


Lemma binary32_one_is_byte_255 powf fmodf :
  b_w (rgbaFloatToInt (ops := binary32_ops powf fmodf)
         (make_float4 Binary32.zero Binary32.zero Binary32.zero Binary32.one))
  = 255%Z.
Proof. vm_compute. reflexivity. Qed.

(** C4. In MIP mode MAX ([t_mipMode = 1]), whatever the other template
    flags (opacity correction included), a ray whose loop classified at
    least one sample ends with [dst.w] exactly 1, and the alpha byte of the
    pixel it stores is exactly 255. *)
Theorem mip_max_alpha_is_one
  (powf fmodf : Binary32.float -> Binary32.float -> Binary32.float)
  (cfg : KernelConfig) (a : Args) (dev : Constants)
  (junk : Binary32.float) (th : Thread) (m : Buffers)
  (st : LoopState) (x y : Z) :
  let ops := binary32_ops powf fmodf in
  t_mipMode cfg = 1%Z ->
  pixel th = (x, y) ->
  march dev cfg a junk th = Marched st ->
  (1 <= samples st)%nat ->
  c_w (s_dst st) = Binary32.one /\
  b_w (d_output (render dev cfg a junk th m) (pixelIndex a x y)) = 255%Z.
Proof.
  intros ops Hmip Hpx Hm Hs.
  pose proof (mip_max_march cfg a dev junk th st Hmip Hm Hs) as Hw.
  split; [exact Hw|].
  rewrite (render_marched cfg a dev junk th m st x y Hpx Hm).
  unfold rgbaFloatToInt. cbn [b_w]. rewrite Hw. vm_compute. reflexivity.
Qed.

(** X12. In MIP mode MIN ([t_mipMode = 2]), as in mode MAX, a ray whose loop
    classified at least one sample ends with [dst.w] exactly 1 and stores
    the alpha byte 255. *)
Theorem mip_min_alpha_is_one
  (powf fmodf : Binary32.float -> Binary32.float -> Binary32.float)
  (cfg : KernelConfig) (a : Args) (dev : Constants)
  (junk : Binary32.float) (th : Thread) (m : Buffers)
  (st : LoopState) (x y : Z) :
  let ops := binary32_ops powf fmodf in
  t_mipMode cfg = 2%Z ->
  pixel th = (x, y) ->
  march dev cfg a junk th = Marched st ->
  (1 <= samples st)%nat ->
  c_w (s_dst st) = Binary32.one /\
  b_w (d_output (render dev cfg a junk th m) (pixelIndex a x y)) = 255%Z.
Proof.
  intros ops Hmip Hpx Hm Hs.
  pose proof (mip_min_march cfg a dev junk th st Hmip Hm Hs) as Hw.
  split; [exact Hw|].
  rewrite (render_marched cfg a dev junk th m st x y Hpx Hm).
  unfold rgbaFloatToInt. cbn [b_w]. rewrite Hw. vm_compute. reflexivity.
Qed.

(** A launch in single precision: a 2 x 2 viewport looking down the z axis
    at the cube [-1, 1]^3, a constant volume, a transfer function of
    constant alpha 1/4, unit step. *)
Module Example32.

Import Binary32.

(** [fmodf], exact: the remainder of the truncated quotient. *)
Definition fmodf_exact (x y : float) : float :=
  match x, y with
  | S754_finite sx mx ex, S754_finite _ my ey =>
      let e := Z.min ex ey in
      let r := Z.rem (Zpos mx * 2 ^ (ex - e)) (Zpos my * 2 ^ (ey - e)) in
      binary_normalize prec emax (if sx then - r else r) e sx
  | S754_zero _, S754_finite _ _ _ => x
  | S754_zero _, S754_infinity _ => x
  | S754_finite _ _ _, S754_infinity _ => x
  | _, _ => S754_nan
  end.

(** [powf] at exponent 1, all that a launch with [dist = 1] and lighting off
    asks of it. *)
Definition powf_unit (b e : float) : float := b.

Definition ops : FloatOps float := binary32_ops powf_unit fmodf_exact.

Definition vec (x y z : Z) : float3 float :=
  make_float3 (of_int x) (of_int y) (of_int z).

Definition dev : Constants :=
  {| c_invViewMatrix := fun i j =>
       if negb (i =? j)%Z then zero
       else if (i <? 2)%Z then lit (1 # 2)
       else if (i =? 2)%Z then of_int 2 else one;
     c_MvPrMatrix := fun i j => if (i =? j)%Z then one else zero;
     volTexture8 := fun _ _ _ => lit (1 # 2);
     volTexture16 := fun _ _ _ => lit (1 # 2);
     tfTexture := fun s => make_float4 s s s (lit (1 # 4));
     randTexture := fun _ => make_float4 zero zero zero zero;
     normalize := fun v =>
       scale3 (ops := ops) v (div one (sqrt (dot (ops := ops) v v))) |}.

Definition args : Args :=
  {| width := 2; height := 2;
     backgroundColor := make_float4 zero zero zero zero;
     texwidth := 2; dist := one;
     volPos := vec 0 0 0; volSizeHalf := vec 1 1 1;
     probePos := vec 0 0 0; probeSizeHalf := vec 1 1 1;
     arg_L := vec 0 0 1; arg_H := vec 0 0 1;
     sphereCenter := vec 0 0 0; sphereRadius := one;
     planeNormal := vec 0 1 0; planeDist := zero;
     dp := VV_UCHAR |}.

(** The same launch with the probe box moved out of the way of the rays. *)
Definition argsMiss : Args :=
  {| width := 2; height := 2;
     backgroundColor := make_float4 zero zero zero zero;
     texwidth := 2; dist := one;
     volPos := vec 0 0 0; volSizeHalf := vec 1 1 1;
     probePos := vec 10 0 0; probeSizeHalf := vec 1 1 1;
     arg_L := vec 0 0 1; arg_H := vec 0 0 1;
     sphereCenter := vec 0 0 0; sphereRadius := one;
     planeNormal := vec 0 1 0; planeDist := zero;
     dp := VV_UCHAR |}.

Definition rend (mip : Z) : Dispatch.vvRayRend :=
  {| Dispatch.bpc := 1;
     Dispatch._illumination := false;
     Dispatch._opacityCorrection := true;
     Dispatch._earlyRayTermination := true;
     Dispatch.VV_CLIP_MODE := false;
     Dispatch.VV_IS_ROI_USED := false;
     Dispatch.VV_SPHERICAL_ROI := false;
     Dispatch.VV_MIP_MODE := mip |}.

Definition thread : Thread :=
  {| blockIdx := (0, 0); blockDim := (16, 16); threadIdx := (1, 1) |}.

Definition blank : Buffers :=
  {| d_output := fun _ => make_uchar4 9 9 9 9; d_depth := fun _ => 9 |}.

Definition finalState (o : Outcome) : LoopState :=
  match o with
  | Marched st => st
  | _ => mkState zero (vec 0 0 0) (make_float4 zero zero zero zero)
           false false zero (vec 0 0 0) zero 0
  end.

End Example32.

(** *** The examples, through the theorems *)

Lemma miss_stores_zero_and_returns_witness :
  d_output
    (render (ops := Example32.ops) Example32.dev
       (Dispatch.getKernel (Example32.rend 0)) Example32.argsMiss
       Binary32.zero Example32.thread Example32.blank) 3
  = make_uchar4 0 0 0 0.
Proof.
  refine (proj1 (proj2 (proj2
    (miss_stores_zero_and_returns (ops := Example32.ops)
       (Dispatch.getKernel (Example32.rend 0)) Example32.argsMiss
       Example32.dev Example32.thread Binary32.zero Example32.blank 1 1
       _ _ _ _)))).
  - reflexivity.
  - reflexivity.
  - reflexivity.
  - vm_compute. reflexivity.
Defined.

Lemma mip_max_alpha_is_one_witness :
  b_w (d_output
         (render (ops := Example32.ops) Example32.dev
            (Dispatch.getKernel (Example32.rend 1)) Example32.args
            Binary32.zero Example32.thread Example32.blank) 3)
  = 255%Z.
Proof.
  refine (proj2
    (mip_max_alpha_is_one Example32.powf_unit Example32.fmodf_exact
       (Dispatch.getKernel (Example32.rend 1)) Example32.args Example32.dev
       Binary32.zero Example32.thread Example32.blank
       (Example32.finalState
          (march (ops := Example32.ops) Example32.dev
             (Dispatch.getKernel (Example32.rend 1)) Example32.args
             Binary32.zero Example32.thread))
       1 1 _ _ _ _)).
  - reflexivity.
  - reflexivity.
  - vm_compute. reflexivity.
  - vm_compute. lia.
Defined.

Lemma none_alpha_never_exceeds_one_witness :
  Rounding.in_unit
    (c_w (s_dst
       (Example32.finalState
          (march (ops := Example32.ops) Example32.dev
             (Dispatch.getKernel (Example32.rend 0)) Example32.args
             Binary32.zero Example32.thread))))
  = true.
Proof.
  refine (proj1 (proj2
    (none_alpha_never_exceeds_one Example32.powf_unit Example32.fmodf_exact
       (Dispatch.getKernel (Example32.rend 0)) Example32.args Example32.dev
       _ _ _)
    Binary32.zero Example32.thread Example32.blank _ 1 1 _ _)).
  - reflexivity.
  - intros s. reflexivity.
  - intros _ b Hb. exact Hb.
  - reflexivity.
  - vm_compute. reflexivity.
Defined.

Lemma mip_min_alpha_is_one_witness :
  b_w (d_output
         (render (ops := Example32.ops) Example32.dev
            (Dispatch.getKernel (Example32.rend 2)) Example32.args
            Binary32.zero Example32.thread Example32.blank) 3)
  = 255%Z.
Proof.
  refine (proj2
    (mip_min_alpha_is_one Example32.powf_unit Example32.fmodf_exact
       (Dispatch.getKernel (Example32.rend 2)) Example32.args Example32.dev
       Binary32.zero Example32.thread Example32.blank
       (Example32.finalState
          (march (ops := Example32.ops) Example32.dev
             (Dispatch.getKernel (Example32.rend 2)) Example32.args
             Binary32.zero Example32.thread))
       1 1 _ _ _ _)).
  - reflexivity.
  - reflexivity.
  - vm_compute. reflexivity.
  - vm_compute. lia.
Defined.

(** The kernel the dispatcher picks for [Example32.rend 0], compiled for
    back-to-front compositing instead. *)
Definition backToFront : KernelConfig :=
  mkKernel true true false 1 0 false true false false false false.

Lemma back_to_front_composites_nothing_witness :
  d_output
    (render (ops := Example32.ops) Example32.dev backToFront Example32.args
       Binary32.zero Example32.thread Example32.blank) 3
  = make_uchar4 0 0 0 0.
Proof.
  refine (proj2
    (back_to_front_composites_nothing (ops := Example32.ops) backToFront
       Example32.args Example32.dev Binary32.zero Example32.thread
       Example32.blank
       (Example32.finalState
          (march (ops := Example32.ops) Example32.dev backToFront
             Example32.args Binary32.zero Example32.thread))
       1 1 _ _ _ _)).
  - reflexivity.
  - reflexivity.
  - reflexivity.
  - vm_compute. reflexivity.
Defined.

(** A ray about to leave the volume, and a ray that is already opaque. *)
Definition raySetup : RaySetup (F := Binary32.float) :=
  mkSetup (mkRay (Example32.vec 0 0 (-2)) (Example32.vec 0 0 1))
          Binary32.zero Binary32.zero Binary32.zero Binary32.zero
          Binary32.zero.
Definition longRay : RaySetup (F := Binary32.float) :=
  mkSetup (mkRay (Example32.vec 0 0 (-2)) (Example32.vec 0 0 1))
          (Binary32.of_int 100) Binary32.zero Binary32.zero Binary32.zero
          Binary32.zero.
Definition stateWithAlpha (w : Binary32.float) : LoopState :=
  mkState Binary32.zero (Example32.vec 0 0 0)
          (make_float4 Binary32.zero Binary32.zero Binary32.zero w)
          false false Binary32.zero (Example32.vec 0 0 0) Binary32.zero 0.

Lemma loop_exit_reasons_witness :
  Binary32.ltb (tfar raySetup)
    (s_t (fst (body (ops := Example32.ops) Example32.dev
                 (Dispatch.getKernel (Example32.rend 1)) Example32.args
                 raySetup (stateWithAlpha Binary32.zero)))) = true \/
  (t_earlyRayTermination (Dispatch.getKernel (Example32.rend 1)) = true /\
   samples (fst (body (ops := Example32.ops) Example32.dev
                 (Dispatch.getKernel (Example32.rend 1)) Example32.args
                 raySetup (stateWithAlpha Binary32.zero))) = 1%nat /\
   Binary32.ltb (opacityThreshold (ops := Example32.ops))
     (c_w (s_dst (fst (body (ops := Example32.ops) Example32.dev
                 (Dispatch.getKernel (Example32.rend 1)) Example32.args
                 raySetup (stateWithAlpha Binary32.zero))))) = true).
Proof.
  apply (loop_exit_reasons (ops := Example32.ops)
           (Dispatch.getKernel (Example32.rend 1)) Example32.args
           Example32.dev raySetup (stateWithAlpha Binary32.zero)).
  vm_compute. reflexivity.
Defined.

Lemma early_ray_termination_breaks_witness :
  snd (body (ops := Example32.ops) Example32.dev
         (Dispatch.getKernel (Example32.rend 0)) Example32.args
         longRay (stateWithAlpha Binary32.one)) = true.
Proof.
  apply (early_ray_termination_breaks (ops := Example32.ops)
           (Dispatch.getKernel (Example32.rend 0)) Example32.args
           Example32.dev longRay (stateWithAlpha Binary32.one)).
  - reflexivity.
  - vm_compute. reflexivity.
  - vm_compute. reflexivity.
Defined.

Example none_alpha_byte_binary32 :
  d_output
    (render (ops := Example32.ops) Example32.dev
       (Dispatch.getKernel (Example32.rend 0)) Example32.args
       Binary32.zero Example32.thread Example32.blank) 3
  = make_uchar4 73 73 73 147.
Proof. vm_compute. reflexivity. Qed.

End Kernel.
